(** * COFFEE: the CSE unpicker (cse.py) and the expression rewriter
      (rewriter.py), embedded shallowly.

    Python objects that are mutated and shared (the [Temporary] instances
    held by several traces, and the lists and dictionaries they point to)
    live in an explicit store and are addressed by locations.  Code that
    only reads temporaries (the cost model, the pushability test) works on
    the values read off the store. *)

From Stdlib Require Import ZArith Lia.
From stdpp Require Import base tactics option list strings numbers sorting gmap.

(** ** Nodes of the AST that the unpicker looks at

    Of the node classes of [base.py], only what [cse.py] and [rewriter.py]
    read from a node is kept. *)

(** [Symbol.urepr]: the pair of the name and the rank ([n[1]] in
    [sharing_graph_rewrite] is the rank). *)
Definition Urepr : Type := string * list string.

(** A [Symbol] object.  [oid] is the identity of the Python object. *)
Record Symbol := mkSymbol {
  oid : nat;
  symbol : string;
  rank : list string
}.

Definition urepr (s : Symbol) : Urepr := (symbol s, rank s).

(** [Symbol.__eq__] belongs to [base.py]; it is a parameter. *)
Class SymbolEq := sym_eq : Symbol → Symbol → bool.

(** Python's [x in l] on a list: some element is [x] itself or equal to it. *)
Definition py_in `{SymbolEq} (x : Symbol) (l : list Symbol) : bool :=
  existsb (λ e, Nat.eqb (oid x) (oid e) || sym_eq x e) l.

Inductive Expr :=
| ESymbol (s : Symbol)
| EProd (a b : Expr)
| EDiv (a b : Expr)
| ESum (a b : Expr)
| ESub (a b : Expr)
| EArrayInit (values : string)
| EEmptyStatement.

(** A [Writer] statement ([Assign], [Incr], ...). *)
Record Writer := mkWriter {
  wid : nat;
  lvalue : Symbol;
  rvalue : Expr
}.

(** A statement of a loop body: a [Writer], or anything else (a declaration,
    an inner loop, a call), of which only the symbols it writes and reads
    are kept.  [in_written] of [utils.py] returns the written ones. *)
Inductive Stmt :=
| SWriter (w : Writer)
| SOther (nid : nat) (written read : list Urepr).

Definition in_written (node : Stmt) : list Urepr :=
  match node with
  | SWriter w => [urepr (lvalue w)]
  | SOther _ written _ => written
  end.

Definition in_read (node : Stmt) : list Urepr :=
  match node with
  | SWriter _ => []
  | SOther _ _ read => read
  end.

(** A [For] loop: [block] identifies [loop.children[0]], [body] is the list
    of statements of that block. *)
Record Loop := mkLoop {
  lid : nat;
  size : Z;
  dim : string;
  is_linear : bool;
  block : nat;
  body : list Stmt
}.

(** A nest is the path of (loop, parent) pairs from the outermost loop down;
    it has at least one entry, which [zip( *nest)[0]] relies on. *)
Record Nest := mkNest {
  nest_outer : Loop * nat;
  nest_inner : list (Loop * nat)
}.

(** The node a [Temporary] is built from: [_analyze_loop] passes a [Writer]
    or a [Symbol], nothing else. *)
Inductive TNode :=
| TWriter (w : Writer)
| TSymbol (s : Symbol).

Definition tnode_id (n : TNode) : nat :=
  match n with TWriter w => wid w | TSymbol s => oid s end.

(** ** Ordered dictionaries

    An [OrderedDict] is an association list without repeated keys, in
    insertion order; assigning to a present key keeps its position. *)
Module OrderedDict.
Section ordered_dict.
Context {K V : Type} `{EqDecision K}.

Definition t : Type := list (K * V).

Fixpoint get (d : t) (k : K) : option V :=
  match d with
  | [] => None
  | (k', v) :: d' => if decide (k' = k) then Some v else get d' k
  end.

Definition contains (d : t) (k : K) : bool := bool_decide (is_Some (get d k)).

Fixpoint set (d : t) (k : K) (v : V) : t :=
  match d with
  | [] => [(k, v)]
  | (k', v') :: d' =>
      if decide (k' = k) then (k', v) :: d' else (k', v') :: set d' k v
  end.

Definition setdefault (d : t) (k : K) (v : V) : V * t :=
  match get d k with
  | Some v' => (v', d)
  | None => (v, set d k v)
  end.

Definition keys (d : t) : list K := d.*1.
Definition values (d : t) : list V := d.*2.

Definition update (d d' : t) : t := foldl (λ acc kv, set acc kv.1 kv.2) d d'.

Lemma get_set_eq d k v : get (set d k v) k = Some v.
Proof.
  induction d as [|[k' v'] d IH]; simpl.
  - by rewrite decide_True.
  - destruct (decide (k' = k)) as [->|Hne]; simpl.
    + by rewrite decide_True.
    + by rewrite decide_False.
Qed.

Lemma get_set_ne d k k' v : k ≠ k' → get (set d k v) k' = get d k'.
Proof.
  intros Hne. induction d as [|[k0 v0] d IH]; simpl.
  - by rewrite decide_False.
  - destruct (decide (k0 = k)) as [->|Hne0]; simpl.
    + by rewrite !decide_False.
    + destruct (decide (k0 = k')); done.
Qed.

Lemma get_set d k k' v :
  get (set d k v) k' = if decide (k = k') then Some v else get d k'.
Proof.
  case_decide as Hk; [subst; apply get_set_eq | by apply get_set_ne].
Qed.

Lemma get_set_is_Some d k k' v :
  is_Some (get d k') → is_Some (get (set d k v) k').
Proof. rewrite get_set. case_decide; eauto. Qed.
End ordered_dict.
Global Arguments t : clear implicits.
End OrderedDict.

Abbreviation odict := OrderedDict.t.

(** ** Temporaries (class [Temporary] of cse.py)

    The record is parametric in how the two list attributes ([L]) and the
    dictionary attribute ([D]) are held: as locations of the store for the
    live objects, as plain values for what has been read off them. *)
Record TemporaryOf (L D : Type) := mkTemporary {
  level : Z;
  pushed : bool;
  readby : L;
  node : TNode;
  main_loop : Loop;
  nest : Nest;
  reads : L;
  linear_reads_costs : D;
  flops : Z
}.
Arguments mkTemporary {L D}.
Arguments level {L D}.
Arguments pushed {L D}.
Arguments readby {L D}.
Arguments node {L D}.
Arguments main_loop {L D}.
Arguments nest {L D}.
Arguments reads {L D}.
Arguments linear_reads_costs {L D}.
Arguments flops {L D}.

Section properties.
Context {L D : Type}.
Implicit Type t : TemporaryOf L D.

(** [Temporary.symbol]; the [else None] branch is excluded by [TNode]. *)
Definition t_symbol t : Symbol :=
  match node t with
  | TWriter w => lvalue w
  | TSymbol s => s
  end.

(** [Temporary.expr] *)
Definition t_expr t : option Expr :=
  match node t with
  | TWriter w => Some (rvalue w)
  | TSymbol _ => None
  end.

(** [Temporary.name] *)
Definition t_name t : string := symbol (t_symbol t).

(** [Temporary.urepr] *)
Definition t_urepr t : Urepr := urepr (t_symbol t).

(** [Temporary.loops]: [zip( *self.nest)[0]] *)
Definition loops t : list Loop := (nest_outer (nest t)).1 :: (nest_inner (nest t)).*1.

(** [reduce(operator.mul, l, 1)] *)
Definition product (l : list Z) : Z := foldl Z.mul 1%Z l.

(** [Temporary.niters] *)
Definition niters t : Z := product (size <$> loops t).

(** [Temporary.niters_after_licm]: [l is not self.main_loop] compares
    identities. *)
Definition niters_after_licm t : Z :=
  product (size <$> filter (λ l, lid l ≠ lid (main_loop t)) (loops t)).

(** [Temporary.is_static_init] *)
Definition is_static_init t : bool :=
  match t_expr t with
  | Some (EArrayInit _) => true
  | _ => false
  end.
End properties.

(** ** The store of live objects *)
Abbreviation loc := nat.

Abbreviation TemporaryObj := (TemporaryOf loc loc).

(** What a temporary looks like once its attributes are read. *)
Abbreviation Temporary := (TemporaryOf (list Symbol) (list (Symbol * Z))).

Record Store := mkStore {
  temporaries : list TemporaryObj;
  lists : list (list Symbol);
  dicts : list (list (Symbol * Z))
}.

Definition empty_store : Store := mkStore [] [] [].

Definition no_symbol : Symbol := mkSymbol 0 "" [].
Definition no_loop : Loop := mkLoop 0 1 "" false 0 [].
Definition no_temporary : TemporaryObj :=
  mkTemporary (-1) false 0 (TSymbol no_symbol) no_loop (mkNest (no_loop, 0) []) 0 0 0.

Definition temporary_at (σ : Store) (r : loc) : TemporaryObj :=
  default no_temporary (temporaries σ !! r).
Definition list_at (σ : Store) (r : loc) : list Symbol :=
  default [] (lists σ !! r).
Definition dict_at (σ : Store) (r : loc) : list (Symbol * Z) :=
  default [] (dicts σ !! r).

(** The attributes of the temporary at [r], read through its references. *)
Definition view (σ : Store) (r : loc) : Temporary :=
  let t := temporary_at σ r in
  mkTemporary (level t) (pushed t) (list_at σ (readby t)) (node t) (main_loop t)
    (nest t) (list_at σ (reads t)) (dict_at σ (linear_reads_costs t)) (flops t).

(** Computations over the store that may raise ([None]). *)
Definition M (A : Type) : Type := Store → option (A * Store).

Definition ret {A} (a : A) : M A := λ σ, Some (a, σ).
Definition bind {A B} (m : M A) (k : A → M B) : M B :=
  λ σ, match m σ with
       | Some (a, σ') => k a σ'
       | None => None
       end.
Definition raise {A} : M A := λ _, None.
Definition lift {A} (o : option A) : M A :=
  λ σ, match o with Some a => Some (a, σ) | None => None end.

Declare Scope store_scope.
Delimit Scope store_scope with store.
Notation "'do' x <- m ; k" := (bind m (λ x, k))
  (at level 10, x name, m at level 100, k at level 200) : store_scope.
Notation "'do' ' p <- m ; k" := (bind m (λ x, match x with p => k end))
  (at level 10, p pattern, m at level 100, k at level 200) : store_scope.
Notation "'run' m ; k" := (bind m (λ _, k))
  (at level 10, m at level 100, k at level 200) : store_scope.
Open Scope store_scope.

Fixpoint foldM {A B} (f : A → B → M A) (a : A) (l : list B) : M A :=
  match l with
  | [] => ret a
  | b :: l' => do a' <- f a b; foldM f a' l'
  end.

Fixpoint map_store {A B} (f : A → M B) (l : list A) : M (list B) :=
  match l with
  | [] => ret []
  | a :: l' => do b <- f a; do bs <- map_store f l'; ret (b :: bs)
  end.

Definition alloc_list (l : list Symbol) : M loc :=
  λ σ, Some (length (lists σ),
             mkStore (temporaries σ) (lists σ ++ [l]) (dicts σ)).
Definition alloc_dict (d : list (Symbol * Z)) : M loc :=
  λ σ, Some (length (dicts σ),
             mkStore (temporaries σ) (lists σ) (dicts σ ++ [d])).
Definition alloc_temporary (t : TemporaryObj) : M loc :=
  λ σ, Some (length (temporaries σ),
             mkStore (temporaries σ ++ [t]) (lists σ) (dicts σ)).

Definition get_temporary (r : loc) : M TemporaryObj := λ σ, Some (temporary_at σ r, σ).
Definition get_list (r : loc) : M (list Symbol) := λ σ, Some (list_at σ r, σ).
Definition get_dict (r : loc) : M (list (Symbol * Z)) := λ σ, Some (dict_at σ r, σ).

Definition alter_temporary (f : TemporaryObj → TemporaryObj) (r : loc) : M unit :=
  λ σ, Some (tt, mkStore (alter f r (temporaries σ)) (lists σ) (dicts σ)).
Definition alter_list (f : list Symbol → list Symbol) (r : loc) : M unit :=
  λ σ, Some (tt, mkStore (temporaries σ) (alter f r (lists σ)) (dicts σ)).
Definition alter_dict (f : list (Symbol * Z) → list (Symbol * Z)) (r : loc) : M unit :=
  λ σ, Some (tt, mkStore (temporaries σ) (lists σ) (alter f r (dicts σ))).

(** [t.level = z] *)
Definition set_level (r : loc) (z : Z) : M unit :=
  alter_temporary (λ t, mkTemporary z (pushed t) (readby t) (node t) (main_loop t)
                          (nest t) (reads t) (linear_reads_costs t) (flops t)) r.
(** [t.readby = l], [t.reads = l], [t.linear_reads_costs = d]: the attribute
    is bound to another object. *)
Definition set_readby (r : loc) (l : loc) : M unit :=
  alter_temporary (λ t, mkTemporary (level t) (pushed t) l (node t) (main_loop t)
                          (nest t) (reads t) (linear_reads_costs t) (flops t)) r.
Definition set_reads (r : loc) (l : loc) : M unit :=
  alter_temporary (λ t, mkTemporary (level t) (pushed t) (readby t) (node t) (main_loop t)
                          (nest t) l (linear_reads_costs t) (flops t)) r.
Definition set_linear_reads_costs (r : loc) (d : loc) : M unit :=
  alter_temporary (λ t, mkTemporary (level t) (pushed t) (readby t) (node t) (main_loop t)
                          (nest t) (reads t) d (flops t)) r.

(** [t.readby.append(s)]: the list object is changed in place. *)
Definition readby_append (r : loc) (s : Symbol) : M unit :=
  do t <- get_temporary r; alter_list (λ l, l ++ [s]) (readby t).

(** ** The dependency tracer ([Temporary.__init__], [reconstruct],
    [_analyze_loop]) *)
Section tracer.
(** [EstimateFlops().visit] (visitors) and [_analyze_expr], whose helpers
    [FindInstances] and [explore_operator] are external, are parameters:
    the latter gives the reads and the linear reads with their costs, in
    the order of the [OrderedDict]. *)
Context (EstimateFlops : TNode → Z).
Context (_analyze_expr : Expr → list Symbol * list (Symbol * Z)).

(** [reads or []]: the given list object when it is non-empty, else a new
    empty list. *)
Definition or_new_list (reads : option loc) : M loc :=
  match reads with
  | Some r => do l <- get_list r; if l is [] then alloc_list [] else ret r
  | None => alloc_list []
  end.

(** [linear_reads_costs or OrderedDict()] *)
Definition or_new_dict (costs : option loc) : M loc :=
  match costs with
  | Some r => do d <- get_dict r; if d is [] then alloc_dict [] else ret r
  | None => alloc_dict []
  end.

(** [Temporary.__init__] *)
Definition Temporary_init (node : TNode) (main_loop : Loop) (nest : Nest)
    (reads linear_reads_costs : option loc) : M loc :=
  do rb <- alloc_list [];
  do rd <- or_new_list reads;
  do lc <- or_new_dict linear_reads_costs;
  alloc_temporary (mkTemporary (-1) false rb node main_loop nest rd lc
                     (EstimateFlops node)).

(** [Temporary.reconstruct] *)
Definition reconstruct (self : loc) : M loc :=
  do t <- get_temporary self;
  do rd <- get_list (reads t);
  do rd' <- alloc_list rd;
  do lc <- get_dict (linear_reads_costs t);
  do lc' <- alloc_dict lc;
  do temporary <- Temporary_init (node t) (main_loop t) (nest t) (Some rd') (Some lc');
  run set_level temporary (level t);
  do rb <- get_list (readby t);
  do rb' <- alloc_list rb;
  run set_readby temporary rb';
  ret temporary.

(** [Temporary.linear_reads] *)
Definition linear_reads (self : loc) : M (list Symbol) :=
  do t <- get_temporary self;
  do d <- get_dict (linear_reads_costs t);
  ret d.*1.

(** A trace: [OrderedDict] from [urepr] to the temporary object. *)
Definition Trace : Type := odict Urepr loc.

(** [max(l)], which raises on an empty list. *)
Definition py_max (l : list Z) : option Z :=
  match l with
  | [] => None
  | x :: l' => Some (foldl Z.max x l')
  end.

(** One iteration of [for s in linear_reads_costs.keys()] for the statement
    writing [target]. *)
Definition trace_linear_read (global_trace : Trace) (loop : Loop) (nest : Nest)
    (target : Symbol) (trace : Trace) (s : Symbol) : M Trace :=
  match OrderedDict.get global_trace (urepr s) with
  | Some temporary =>
      run readby_append temporary target;
      do temporary <- reconstruct temporary;
      run set_level temporary (-1);
      ret (OrderedDict.set trace (urepr s) temporary)
  | None =>
      do fresh <- Temporary_init (TSymbol s) loop nest None None;
      let '(temporary, trace) := OrderedDict.setdefault trace (urepr s) fresh in
      run readby_append temporary target;
      ret trace
  end.

(** [[trace[s.urepr].level for s in l]] *)
Definition levels_of (trace : Trace) (l : list Symbol) : M (list Z) :=
  map_store (λ s, do r <- lift (OrderedDict.get trace (urepr s));
             do t <- get_temporary r; ret (level t)) l.

(** What [_analyze_loop] does for a [Writer] up to the creation of its own
    temporary: [_analyze_expr] returns two new objects, then every linear
    read is traced. *)
Definition trace_reads (global_trace : Trace) (loop : Loop) (nest : Nest)
    (w : Writer) (trace : Trace) : M (loc * loc * Trace) :=
  let '(reads, linear_reads_costs) := _analyze_expr (rvalue w) in
  do reads <- alloc_list reads;
  do costs <- alloc_dict linear_reads_costs;
  do trace <- foldM (trace_linear_read global_trace loop nest (lvalue w))
                    trace linear_reads_costs.*1;
  ret (reads, costs, trace).

(** The body of [for node in loop.body]. *)
Definition _analyze_node (global_trace : Trace) (loop : Loop) (nest : Nest)
    (trace : Trace) (node : Stmt) : M Trace :=
  match node with
  | SOther _ _ _ =>
      let not_ssa := omap (OrderedDict.get trace) (in_written node) in
      run foldM (λ _ t, do o <- get_temporary t; readby_append t (t_symbol o)) tt not_ssa;
      ret trace
  | SWriter w =>
      do '(reads, costs, trace) <- trace_reads global_trace loop nest w trace;
      do new_temporary <- Temporary_init (TWriter w) loop nest (Some reads) (Some costs);
      do lr <- linear_reads new_temporary;
      do lv <- levels_of trace lr;
      do m <- lift (py_max (if lv is [] then [-2] else lv));
      run set_level new_temporary (m + 1);
      ret (OrderedDict.set trace (urepr (lvalue w)) new_temporary)
  end%Z.

(** [_analyze_loop] *)
Definition _analyze_loop (loop : Loop) (nest : Nest) (global_trace : Trace) : M Trace :=
  foldM (_analyze_node global_trace loop nest) [] (body loop).

End tracer.

(** ** Changes made to a temporary through one of its references

    Used to state that a snapshot taken by [reconstruct] is independent of
    the object it was taken from. *)
Inductive Mutation :=
| SetLevel (z : Z)
| BindReads (l : list Symbol)
| BindReadby (l : list Symbol)
| BindCosts (d : list (Symbol * Z))
| UpdateReads (f : list Symbol → list Symbol)
| UpdateReadby (f : list Symbol → list Symbol)
| UpdateCosts (f : list (Symbol * Z) → list (Symbol * Z)).

(** [SetLevel]: [t.level = z]; [Bind...]: the attribute is assigned a new
    list or dictionary; [Update...]: the object the attribute points to is
    changed in place ([append], [pop], item assignment, ...). *)
Definition mutate (r : loc) (m : Mutation) : M unit :=
  match m with
  | SetLevel z => set_level r z
  | BindReads l => do o <- alloc_list l; set_reads r o
  | BindReadby l => do o <- alloc_list l; set_readby r o
  | BindCosts d => do o <- alloc_dict d; set_linear_reads_costs r o
  | UpdateReads f => do t <- get_temporary r; alter_list f (reads t)
  | UpdateReadby f => do t <- get_temporary r; alter_list f (readby t)
  | UpdateCosts f => do t <- get_temporary r; alter_dict f (linear_reads_costs t)
  end.

(** The object at [r] and the objects it points to exist, and its two lists
    are two objects. *)
Definition allocated (σ : Store) (r : loc) : Prop :=
  r < length (temporaries σ)
  ∧ readby (temporary_at σ r) < length (lists σ)
  ∧ reads (temporary_at σ r) < length (lists σ)
  ∧ linear_reads_costs (temporary_at σ r) < length (dicts σ)
  ∧ readby (temporary_at σ r) ≠ reads (temporary_at σ r).

(** Every temporary of the trace exists in the store. *)
Definition trace_wf (σ : Store) (trace : Trace) : Prop :=
  ∀ u q, OrderedDict.get trace u = Some q → q < length (temporaries σ).

(** Every temporary of the trace has an existing [readby] list. *)
Definition readby_wf (σ : Store) (trace : Trace) : Prop :=
  ∀ u q, OrderedDict.get trace u = Some q →
    readby (temporary_at σ q) < length (lists σ).

(** [Temporary.is_ssa] *)
Definition is_ssa `{SymbolEq} (t : Temporary) : bool :=
  negb (py_in (t_symbol t) (readby t)).

(** [trace[s.urepr].level], the level of a read in a trace. *)
Definition level_in (σ : Store) (trace : Trace) (s : Symbol) : option Z :=
  r ← OrderedDict.get trace (urepr s); Some (level (temporary_at σ r)).

(** A temporary after [t.readby.append(s)]. *)
Definition with_reader (t : Temporary) (s : Symbol) : Temporary :=
  mkTemporary (level t) (pushed t) (readby t ++ [s]) (node t) (main_loop t) (nest t)
    (reads t) (linear_reads_costs t) (flops t).

(** What [t.reconstruct()] followed by [level = -1] holds: the attributes of
    [t], with the defaults of [__init__] for [pushed] and [flops]. *)
Definition level_reset_copy (EstimateFlops : TNode → Z) (t : Temporary) : Temporary :=
  mkTemporary (-1) false (readby t) (node t) (main_loop t) (nest t)
    (reads t) (linear_reads_costs t) (EstimateFlops (node t)).

(** ** The cost model ([_group_by_level], [_cost_cse], [_cost_fact])

    The cost model reads the temporaries of a trace and changes none of
    them: [_cost_fact] works on copies made by [reconstruct].  It is given
    the values read off the store. *)

(** The trace as the cost model reads it. *)
Definition trace_view (σ : Store) (trace : Trace) : odict Urepr Temporary :=
  (λ kv, (kv.1, view σ kv.2)) <$> trace.

(** A Python dictionary from levels to lists of temporaries: the
    [defaultdict(list)] built by [_group_by_level], or a plain [dict].
    Looking up a missing key inserts an empty list in the former and raises
    in the latter. *)
Record LevelDict := mkLevelDict {
  default_factory : bool;
  items : odict Z (list Temporary)
}.

Definition getitem (d : LevelDict) (i : Z) : option (list Temporary * LevelDict) :=
  match OrderedDict.get (items d) i with
  | Some v => Some (v, d)
  | None =>
      if default_factory d
      then Some ([], mkLevelDict true (OrderedDict.set (items d) i []))
      else None
  end.

Definition level_keys (d : LevelDict) : list Z := OrderedDict.keys (items d).

(** [_group_by_level] *)
Definition _group_by_level (trace : odict Urepr Temporary) : LevelDict :=
  foldl (λ levels temporary,
           match getitem levels (level temporary) with
           | Some (l, levels) =>
               mkLevelDict true
                 (OrderedDict.set (items levels) (level temporary) (l ++ [temporary]))
           | None => levels
           end)
        (mkLevelDict true []) (OrderedDict.values trace).

(** [range(lb, up)] *)
Definition range (lb up : Z) : list Z := seqZ lb (up - lb).

(** [{i: levels[i] for i in range(lb, up)}], with the dictionary the lookups
    leave behind. *)
Fixpoint restrict (levels : LevelDict) (l : list Z)
    : option (odict Z (list Temporary) * LevelDict) :=
  match l with
  | [] => Some ([], levels)
  | i :: l' =>
      '(v, levels) ← getitem levels i;
      '(r, levels) ← restrict levels l';
      Some ((i, v) :: r, levels)
  end.

(** [sum(t.flops*t.niters for t in temporaries)] *)
Definition materialized_cost (temporaries : list Temporary) : Z :=
  foldl (λ acc t, acc + flops t * niters t)%Z 0%Z temporaries.

(** [_cost_cse]: the cost, and [levels] as the call leaves it. *)
Definition _cost_cse (levels : LevelDict) (bounds : option (Z * Z))
    : option (Z * LevelDict) :=
  '(selected, levels) ←
    match bounds with
    | Some (b0, b1) =>
        let lb := b0 in
        let up := (b1 + 1)%Z in
        restrict levels (range lb up)
    | None => Some (items levels, levels)
    end;
  Some (foldl (λ cost lt, cost + materialized_cost lt.2)%Z 0%Z selected, levels).

(** Keys of the dictionaries handled by [_cost_fact]: a [Symbol], or the
    [urepr] that replaces it once a level has been decided. *)
Inductive LinKey :=
| KSymbol (s : Symbol)
| KUrepr (u : Urepr).

(** [s.urepr if isinstance(s, Symbol) else s] *)
Definition key_urepr (k : LinKey) : Urepr :=
  match k with
  | KSymbol s => urepr s
  | KUrepr u => u
  end.

(** A copy held in [new_trace]. *)
Abbreviation Copy := (TemporaryOf (list Symbol) (list (LinKey * Z))).

(** [Temporary.reconstruct] on values. *)
Definition reconstruct_value (EstimateFlops : TNode → Z) (t : Temporary) : Copy :=
  mkTemporary (level t) false (readby t) (node t) (main_loop t) (nest t) (reads t)
    ((λ sc, (KSymbol sc.1, sc.2)) <$> linear_reads_costs t) (EstimateFlops (node t)).

(** [Temporary.linear_reads] and [Temporary.project] *)
Definition linear_reads_of {L K} (t : TemporaryOf L (list (K * Z))) : list K :=
  (linear_reads_costs t).*1.
Definition project {L K} (t : TemporaryOf L (list (K * Z))) : Z :=
  Z.of_nat (length (linear_reads_of t)).

(** [sys.maxint] on a 64-bit platform. *)
Definition maxint : Z := (2 ^ 63 - 1)%Z.

(** [min(l)] *)
Definition py_min (l : list Z) : option Z :=
  match l with
  | [] => None
  | x :: l' => Some (foldl Z.min x l')
  end.

(** The order of [sorted(fact_levels.items(), key=lambda (i, j): i)]. *)
Definition by_level (x y : Z * list Temporary) : Prop := (x.1 ≤ y.1)%Z.
Global Instance by_level_dec : RelDecision by_level.
Proof. intros x y. unfold by_level. apply _. Defined.

Section cost_fact.
Context (EstimateFlops : TNode → Z).

(** The loop [for read, cost in t.linear_reads_costs.items()]: one
    iteration, on the pair ([linear_reads], [t_outloop_cost]). *)
Definition trace_operand (new_trace : odict Urepr Copy) (acc : list LinKey * Z)
    (rc : Symbol * Z) : list LinKey * Z :=
  let '(linear_reads, t_outloop_cost) := acc in
  let '(read, cost) := rc in
  match OrderedDict.get new_trace (urepr read) with
  | Some r =>
      (linear_reads ++ (if linear_reads_of r is [] then [KUrepr (urepr read)]
                        else linear_reads_of r),
       t_outloop_cost + project r * cost)%Z
  | None => (linear_reads ++ [KUrepr (urepr read)], t_outloop_cost)
  end.

(** The accumulators of [_cost_fact] that a temporary updates. *)
Record FactState := mkFactState {
  new_trace : odict Urepr Copy;
  total_outloop_cost : Z;
  level_inloop_cost : Z
}.

(** The body of [for t in temporaries]. *)
Definition fact_temporary (st : FactState) (t : Temporary) : option FactState :=
  let t_outloop_cost := 0%Z in
  let t_inloop_cost := 0%Z in
  let '(linear_reads, t_outloop_cost) :=
    foldl (trace_operand (new_trace st)) ([], t_outloop_cost) (linear_reads_costs t) in
  let fact_syms := remove_dups (key_urepr <$> linear_reads) in
  let t_outloop_cost :=
    (t_outloop_cost + (Z.of_nat (length linear_reads) - Z.of_nat (length fact_syms)))%Z in
  let t_inloop_cost := (t_inloop_cost + (2 * Z.of_nat (length fact_syms) - 1))%Z in
  c ← OrderedDict.get (new_trace st) (t_urepr t);
  Some (mkFactState
          (OrderedDict.set (new_trace st) (t_urepr t)
             (mkTemporary (level c) (pushed c) (readby c) (node c) (main_loop c) (nest c)
                (reads c) ((λ s, (KUrepr s, 1%Z)) <$> fact_syms) (flops c)))
          (total_outloop_cost st + t_outloop_cost * niters_after_licm t)%Z
          (level_inloop_cost st + t_inloop_cost * niters t)%Z).

(** The test made on a temporary of a lower level: some reader is outside
    this loop's trace, or at a level beyond [lvl]. *)
Definition read_elsewhere (new_trace : odict Urepr Copy) (lvl : Z) (t : Temporary) : bool :=
  existsb (λ rb, negb (OrderedDict.contains new_trace (urepr rb))) (readby t)
  || existsb (λ rb, match OrderedDict.get new_trace (urepr rb) with
                    | Some r => bool_decide (lvl < level r)%Z
                    | None => false
                    end) (readby t).

(** What the loop over the levels carries along. *)
Record LevelState := mkLevelState {
  best : Z * Z * Z;
  fact : FactState;
  uptolevel_cost : Z;
  levels_now : LevelDict
}.

(** The body of [for level, temporaries in sorted(fact_levels.items())]. *)
Definition fact_level (cse_cost : Z) (bounds : Z * Z) (fact_levels : LevelDict)
    (st : LevelState) (lt : Z * list Temporary) : option LevelState :=
  let '(lvl, temporaries) := lt in
  f ← foldl (λ o t, f ← o; fact_temporary f t)
        (Some (mkFactState (new_trace (fact st)) (total_outloop_cost (fact st)) 0%Z))
        temporaries;
  '(lower, levels) ← restrict (levels_now st) (range 0 lvl);
  let level_inloop_cost :=
    foldl (λ c t, if read_elsewhere (new_trace f) lvl t
                  then (c + flops t * niters t)%Z else c)
          (level_inloop_cost f) (mjoin lower.*2) in
  let uptolevel_cost := (cse_cost + total_outloop_cost f + level_inloop_cost)%Z in
  '(above, _) ← _cost_cse fact_levels (Some ((lvl + 1)%Z, bounds.2));
  let uptolevel_cost := (uptolevel_cost + above)%Z in
  let best := if bool_decide (uptolevel_cost < (best st).2)%Z
              then (bounds.1, lvl, uptolevel_cost) else best st in
  Some (mkLevelState best
          (mkFactState (new_trace f) (total_outloop_cost f) level_inloop_cost)
          uptolevel_cost levels).

(** [_cost_fact]: the best triple; [None] when an assertion fails or a key
    is missing. *)
Definition _cost_fact (trace : odict Urepr Temporary) (levels : LevelDict)
    (bounds : option (Z * Z)) : option (Z * Z * Z) :=
  bounds ← match bounds with
           | Some b => Some b
           | None => lo ← py_min (level_keys levels);
                     hi ← py_max (level_keys levels); Some (lo, hi)
           end;
  guard (bounds.1 ≤ bounds.2)%Z;;
  guard (bounds.1 ∈ level_keys levels ∧ bounds.2 ∈ level_keys levels);;
  lo ← py_min (level_keys levels);
  '(cse_cost, levels) ← _cost_cse levels (Some (lo, bounds.1));
  let new_trace := (λ kv, (kv.1, reconstruct_value EstimateFlops kv.2)) <$> trace in
  let first_best := (bounds.1, bounds.1, maxint) in
  let fact_levels :=
    mkLevelDict false
      (filter (λ kv, bounds.1 < kv.1 ∧ kv.1 ≤ bounds.2)%Z (items levels)) in
  st ← foldl (λ o lt, st ← o; fact_level cse_cost bounds fact_levels st lt)
         (Some (mkLevelState first_best (mkFactState new_trace 0%Z 0%Z) cse_cost levels))
         (merge_sort by_level (items fact_levels));
  Some (best st).
End cost_fact.

(** ** Pushing temporaries: [is_pushable] of [_push_temporaries] *)
Section push.
Context `{SymbolEq}.
(** [self.decls]: the declaration of each symbol name (declarations are
    identified by a number). *)
Context (decls : gmap string nat).
(** [ra], the result of [reachability_analysis] (an external collaborator):
    the blocks in which a declaration is visible; [None] where [ra[d]]
    would raise. *)
Context (ra : nat → option (list nat)).

(** [set(rb.main_loop.children[0] for rb in pushed_in if rb)], where
    [pushed_in = [global_trace.get(rb.urepr) for rb in temporary.readby]]:
    the loop bodies in which the readers live. *)
Definition pushed_in (global_trace : odict Urepr Temporary) (temporary : Temporary)
    : list nat :=
  remove_dups
    ((λ rb : Temporary, block (main_loop rb))
       <$> omap (λ rb, OrderedDict.get global_trace (urepr rb)) (readby temporary)).

(** [s.urepr in global_trace and global_trace[s.urepr].pushed] *)
Definition globally_pushed (global_trace : odict Urepr Temporary) (s : Symbol) : bool :=
  match OrderedDict.get global_trace (urepr s) with
  | Some g => pushed g
  | None => false
  end.

(** [any(l not in ra[self.decls[s.symbol]] for l in blocks)]; the generator
    looks the declaration up once per block, so nothing is raised when
    there is no block. *)
Fixpoint any_not_visible (s : Symbol) (blocks : list nat) : option bool :=
  match blocks with
  | [] => Some false
  | l :: blocks' =>
      d ← decls !! symbol s;
      scopes ← ra d;
      if bool_decide (l ∈ scopes) then any_not_visible s blocks' else Some true
  end.

(** The loop [for s in temporary.reads]. *)
Fixpoint reads_accessible (global_trace : odict Urepr Temporary) (blocks : list nat)
    (reads : list Symbol) : option bool :=
  match reads with
  | [] => Some true
  | s :: reads' =>
      if globally_pushed global_trace s
      then reads_accessible global_trace blocks reads'
      else
        hidden ← any_not_visible s blocks;
        if hidden : bool then Some false
        else reads_accessible global_trace blocks reads'
  end.

(** [is_pushable]; [None] when a lookup raises. *)
Definition is_pushable (global_trace : odict Urepr Temporary) (temporary : Temporary)
    : option bool :=
  if negb (is_ssa temporary) then Some false
  else if readby temporary is [] then Some false
  else if is_static_init temporary then Some false
  else reads_accessible global_trace (pushed_in global_trace temporary) (reads temporary).
End push.

(** ** The expression rewriter (rewriter.py)

    The AST, the declarations and the tracker of hoisted statements are
    changed in place by the collaborators ([Hoister], [Expander],
    [Factorizer], [ast_replace], ...), which are kept abstract: they act
    on an abstract [World].  A rewriter session adds the warnings logged
    and, as a record of what was done, the operations called on each
    statement. *)

(** Sets of dimensions, as Python sets of strings. *)
Definition subset (a b : list string) : bool := forallb (λ x, bool_decide (x ∈ b)) a.
Definition same_set (a b : list string) : bool := subset a b && subset b a.
Definition intersection (a b : list string) : list string :=
  filter (λ x, x ∈ b) (remove_dups a).

(** [expr_info], a [MetaExpr]. *)
Record MetaExpr := mkMetaExpr {
  dims : list string;
  linear_dims : list string;
  out_linear_dims : list string;
  dimension : Z;
  reduction_loops : list Loop
}.

(** A loop dependence analysis as the rewriter uses it: [lda[s]] by symbol,
    [lda.get(name)] by symbol name. *)
Record Lda := mkLda {
  lda_of : Symbol → list string;
  lda_get : string → option (list string)
}.

(** The values of the sort keys given to [reassociate]. *)
Inductive SortKey :=
| KeyInt (z : Z)
| KeyRankDim (rank : list string) (dim : Z).

(** The keyword arguments that the operations read or pass on. *)
Record Kwargs := mkKwargs {
  look_ahead : bool;
  kw_lda : option Lda;
  with_promotion : option bool;
  global_cse : bool;
  dimensions : list string;
  adhoc : option (list (Urepr * list Urepr));
  heuristic : bool
}.

Definition no_kwargs : Kwargs := mkKwargs false None None false [] None false.

(** What a method call evaluates to: the rewriter itself, [None], or an
    exception. *)
Inductive Returned :=
| Self
| PyNone
| Raised (exn : string).

(** The operations of a rewriter, as recorded in the session. *)
Inductive Operation :=
| OpLicm (mode : string)
| OpExpand (mode : string)
| OpFactorize (mode : string)
| OpReassociate
| OpReplacediv.

Record Session (World : Type) := mkSession {
  world : World;
  warnings : list string;
  calls : list (nat * Operation)
}.
Arguments mkSession {World}.
Arguments world {World}.
Arguments warnings {World}.
Arguments calls {World}.

(** The collaborators, as an interface.  Their first argument is the
    identity of the statement the rewriter was built on.
    [Find_Symbol]: [Find(Symbol).visit(self.stmt.rvalue)[Symbol]];
    [reassociate_by]: the rebuilding of the products in [reassociate];
    [replace_divisions]: the [ast_replace] of [replacediv];
    [make_MetaExpr]: [MetaExpr(type, block, nest, linear_dims)];
    [summand_symbols]: for each of [summands(self.stmt.rvalue)], the symbols
    it is a product of ([explore_operator]). *)
Class Collaborators (World : Type) := {
  Find_Symbol : nat → World → list Symbol;
  loops_analysis : World → Lda;
  Hoister_licm : nat → MetaExpr → (list string → bool) → Kwargs → World → World;
  Hoister_extract : nat → MetaExpr → (list string → bool) → Kwargs → World → World;
  Hoister_trim : nat → Loop → World → World;
  Expander_expand : nat → (Symbol → bool) → Kwargs → World → World;
  Factorizer_factorize : nat → (Symbol → bool) → Kwargs → World → World;
  reassociate_by : nat → (Symbol → SortKey) → World → World;
  replace_divisions : nat → World → World;
  make_MetaExpr : nat → Nest → list string → MetaExpr;
  summand_symbols : nat → World → list (list Symbol)
}.

(** A rewriter: the statement and its metadata. *)
Record ExpressionRewriter := mkExpressionRewriter {
  stmt : nat;
  expr_info : MetaExpr
}.

Section rewriter.
Context `{Collaborators World}.

Definition called (self : ExpressionRewriter) (op : Operation) (s : Session World)
    : Session World :=
  mkSession (world s) (warnings s) (calls s ++ [(stmt self, op)]).

Definition warn (msg : string) (s : Session World) : Session World :=
  mkSession (world s) (warnings s ++ [msg]) (calls s).

Definition on_world (f : World → World) (s : Session World) : Session World :=
  mkSession (f (world s)) (warnings s) (calls s).

(** [Counter(occurrences).most_common(1)[0][0]]: the first of the most
    frequent entries. *)
Definition count_of (x : list string) (l : list (list string)) : nat :=
  length (filter (λ y, y = x) l).
Definition most_common (l : list (list string)) : option (list string) :=
  foldl (λ best x, match best with
                   | None => Some x
                   | Some b => if bool_decide (count_of b l < count_of x l)
                               then Some x else Some b
                   end) None l.

(** The dimension picked by [mode == 'standard'] in [expand] and
    [factorize]; [None] when no symbol has a rank along the dimensions. *)
Definition standard_dimension (self : ExpressionRewriter) (w : World)
    : option (list string) :=
  let symbols := Find_Symbol (stmt self) w in
  let dims := out_linear_dims (expr_info self) in
  let dims := if bool_decide (dims = []) || bool_decide (2 ≤ dimension (expr_info self))%Z
              then linear_dims (expr_info self) else dims in
  let occurrences := (λ s, filter (λ r, r ∈ dims) (rank s)) <$> symbols in
  let occurrences := filter (λ i, i ≠ []) occurrences in
  most_common occurrences.

(** [lda.get(n.symbol) and any(r in dims for r in lda[n.symbol])] and its
    variants, for the modes ['all'], ['linear'], ['outlinear'],
    ['constants']. *)
Definition depends_on (lda : Lda) (dims : list string) (n : Symbol) : bool :=
  match lda_get lda (symbol n) with
  | Some (_ :: _ as d) => existsb (λ r, bool_decide (r ∈ dims)) d
  | _ => false
  end.
Definition not_within (lda : Lda) (dims : list string) (n : Symbol) : bool :=
  match lda_get lda (symbol n) with
  | Some (_ :: _ as d) => negb (subset d dims)
  | _ => false
  end.
Definition independent (lda : Lda) (n : Symbol) : bool :=
  match lda_get lda (symbol n) with
  | Some (_ :: _) => false
  | _ => true
  end.

(** [kwargs.get('lda') or loops_analysis(...)] *)
Definition lda_or_analysis (kwargs : Kwargs) (w : World) : Lda :=
  default (loops_analysis w) (kw_lda kwargs).

(** [ExpressionRewriter.expand] *)
Definition expand (self : ExpressionRewriter) (mode : string) (kwargs : Kwargs)
    (s : Session World) : Returned * Session World :=
  let s := called self (OpExpand mode) s in
  let go should_expand :=
    (Self, on_world (Expander_expand (stmt self) should_expand kwargs) s) in
  if bool_decide (mode = "standard") then
    match standard_dimension self (world s) with
    | None => (Self, s)
    | Some dimension => go (λ n, subset dimension (rank n))
    end
  else if bool_decide (mode = "dimensions") then
    go (λ n, subset (dimensions kwargs) (rank n))
  else if bool_decide (mode ∈ ["all"; "linear"; "outlinear"]) then
    let lda := lda_or_analysis kwargs (world s) in
    if bool_decide (mode = "all") then go (depends_on lda (dims (expr_info self)))
    else if bool_decide (mode = "linear")
    then go (depends_on lda (linear_dims (expr_info self)))
    else go (not_within lda (linear_dims (expr_info self)))
  else
    (PyNone, warn "Skipping unknown expansion strategy." s).

(** [ExpressionRewriter.factorize] *)
Definition factorize (self : ExpressionRewriter) (mode : string) (kwargs : Kwargs)
    (s : Session World) : Returned * Session World :=
  let s := called self (OpFactorize mode) s in
  let go kwargs should_factorize :=
    (Self, on_world (Factorizer_factorize (stmt self) should_factorize kwargs) s) in
  if bool_decide (mode = "standard") then
    match standard_dimension self (world s) with
    | None => (Self, s)
    | Some dimension => go kwargs (λ n, subset dimension (rank n))
    end
  else if bool_decide (mode = "dimensions") then
    go kwargs (λ n, subset (dimensions kwargs) (rank n))
  else if bool_decide (mode = "adhoc") then
    match adhoc kwargs with
    | None | Some [] => (Self, s)
    | Some pivots => go kwargs (λ n, bool_decide (urepr n ∈ pivots.*1))
    end
  else if bool_decide (mode = "heuristic") then
    go (mkKwargs (look_ahead kwargs) (kw_lda kwargs) (with_promotion kwargs)
           (global_cse kwargs) (dimensions kwargs) (adhoc kwargs) true)
        (λ _, false)
  else if bool_decide (mode ∈ ["all"; "linear"; "outlinear"; "constants"]) then
    let lda := lda_or_analysis kwargs (world s) in
    if bool_decide (mode = "all") then go kwargs (depends_on lda (dims (expr_info self)))
    else if bool_decide (mode = "linear")
    then go kwargs (depends_on lda (linear_dims (expr_info self)))
    else if bool_decide (mode = "outlinear")
    then go kwargs (not_within lda (linear_dims (expr_info self)))
    else go kwargs (independent lda)
  else
    (PyNone, warn "Skipping unknown factorization strategy." s).

(** [ExpressionRewriter.reassociate]; the rebuilding of the products is the
    collaborators' ([explore_operator], [ast_make_expr]). *)
Definition reassociate (self : ExpressionRewriter) (reorder : option (Symbol → SortKey))
    (s : Session World) : Returned * Session World :=
  let reorder := default (λ n, KeyRankDim (rank n) (Z.of_nat (length (rank n)))) reorder in
  (Self, on_world (reassociate_by (stmt self) reorder) (called self OpReassociate s)).

(** [ExpressionRewriter.replacediv] *)
Definition replacediv (self : ExpressionRewriter) (s : Session World)
    : Returned * Session World :=
  (Self, on_world (replace_divisions (stmt self)) (called self OpReplacediv s)).

(** Passing [key=value] next to [**kwargs] raises when [kwargs] has the key
    already. *)
Definition set_promotion (kwargs : Kwargs) : option Kwargs :=
  match with_promotion kwargs with
  | Some _ => None
  | None => Some (mkKwargs (look_ahead kwargs) (kw_lda kwargs) (Some true)
                    (global_cse kwargs) (dimensions kwargs) (adhoc kwargs)
                    (heuristic kwargs))
  end.
Definition set_lda (lda : Lda) (kwargs : Kwargs) : option Kwargs :=
  match kw_lda kwargs with
  | Some _ => None
  | None => Some (mkKwargs (look_ahead kwargs) (Some lda) (with_promotion kwargs)
                    (global_cse kwargs) (dimensions kwargs) (adhoc kwargs)
                    (heuristic kwargs))
  end.

(** [ExpressionRewriter.licm] *)
Definition licm (self : ExpressionRewriter) (mode : string) (kwargs : Kwargs)
    (s : Session World) : Returned * Session World :=
  let s := called self (OpLicm mode) s in
  let info := expr_info self in
  let hoist should_extract passed :=
    on_world ((if look_ahead kwargs then Hoister_extract else Hoister_licm)
                (stmt self) info should_extract passed) in
  let only_const d := negb (negb (bool_decide (d = [])) && subset d (dims info)) in
  if bool_decide (mode = "normal") then
    (Self, hoist (λ d, negb (same_set d (dims info))) kwargs s)
  else if bool_decide (mode = "reductions") then
    match last (reduction_loops info) with
    | None => (Self, s)
    | Some candidate =>
        if bool_decide (size candidate = 1)%Z then (PyNone, s)
        else
          let s := (expand self "all" no_kwargs s).2 in
          let lda := loops_analysis (world s) in
          let non_candidates :=
            dim <$> take (length (reduction_loops info) - 1) (reduction_loops info) in
          let s := (reassociate self
                      (Some (λ i, KeyInt (if intersection (lda_of lda i) non_candidates is []
                                          then 1 else 0))) s).2 in
          let s := hoist (λ d, negb (same_set d (dims info)))
                     (mkKwargs false (Some lda) (Some true) false [] None false) s in
          (Self, on_world (Hoister_trim (stmt self) candidate) s)
    end
  else if bool_decide (mode = "incremental") then
    let lda := lda_or_analysis kwargs (world s) in
    let with_lda := mkKwargs false (Some lda) None false [] None false in
    let s := hoist only_const with_lda s in
    let s := hoist (λ d, subset d (out_linear_dims info)) with_lda s in
    let sweeps := seqZ 1 (dimension info - 1) in
    match sweeps, set_lda lda kwargs with
    | [], _ => (Self, s)
    | _ :: _, None => (Raised "TypeError", s)
    | _ :: _, Some kwargs =>
        (Self,
         foldl (λ s i, hoist (λ d, bool_decide
                                     (Z.of_nat (length (intersection d (linear_dims info))) ≤ i)%Z)
                         kwargs s) s sweeps)
    end
  else if bool_decide (mode = "only_const") then
    (Self, hoist only_const kwargs s)
  else if bool_decide (mode = "only_outlinear") then
    (Self, hoist (λ d, subset d (out_linear_dims info)) kwargs s)
  else if bool_decide (mode = "only_linear") then
    (Self, hoist (λ d, negb (subset d (out_linear_dims info))
                       && negb (same_set d (linear_dims info))) kwargs s)
  else if bool_decide (mode = "aggressive") then
    let s := (reassociate self None s).2 in
    match set_promotion kwargs with
    | None => (Raised "TypeError", s)
    | Some kwargs => (Self, hoist (λ _, true) kwargs s)
    end
  else
    (Self, warn "Skipping unknown licm strategy." s).
End rewriter.

(** ** The unpicking driver's use of the rewriter: [_transform_temporaries] *)
Section transform.
Context `{Collaborators World}.

(** The rewriter built on a temporary. *)
Definition rewriter_of (t : Temporary) : ExpressionRewriter :=
  mkExpressionRewriter (tnode_id (node t))
    (make_MetaExpr (block (main_loop t)) (nest t)
       (dim <$> filter (λ l, is_linear l = true) (loops t))).

(** The body of the first loop: [replacediv], [expand], and the two
    [factorize]. *)
Definition expand_and_factorize (lda : Lda) (s : Session World) (t : Temporary)
    : Session World :=
  let ew := rewriter_of t in
  let s := (replacediv ew s).2 in
  let s := (expand ew "all"
              (mkKwargs false (Some lda) None false [] None false) s).2 in
  let s := (factorize ew "adhoc"
              (mkKwargs false (Some lda) None false []
                 (Some ((λ i, (urepr i, [])) <$> linear_reads_of t)) false) s).2 in
  (factorize ew "heuristic" no_kwargs s).2.

(** [_transform_temporaries]; [exprs] holds the identities of the keys of
    [self.exprs], and the temporaries of a level are distinct objects, so
    that [rewriters] has one entry per temporary, in order. *)
Definition _transform_temporaries (exprs : list nat) (temporaries : list Temporary)
    (s : Session World) : Session World :=
  let temporaries := filter (λ t, tnode_id (node t) ∉ exprs) temporaries in
  let lda := loops_analysis (world s) in
  let s := foldl (expand_and_factorize lda) s temporaries in
  let rewriters := rewriter_of <$> temporaries in
  let lda := loops_analysis (world s) in
  foldl (λ s ew,
           (licm ew "only_outlinear"
              (mkKwargs false (Some lda) None true [] None false) s).2)
        s rewriters.
End transform.

(** ** The sharing graph and its integer program ([sharing_graph_rewrite]) *)

(** [itertools.combinations(l, r=2)] *)
Fixpoint combinations {A} (l : list A) : list (A * A) :=
  match l with
  | [] => []
  | x :: l' => (pair x <$> l') ++ combinations l'
  end.

(** The loop over the summands: [lsymbols] is the list of the linear
    symbols of one summand.  Both [nodes] and [edges] grow. *)
Definition add_summand (acc : list Urepr * list (Urepr * Urepr)) (lsymbols : list Urepr)
    : list Urepr * list (Urepr * Urepr) :=
  (acc.1 ++ filter (λ j, j ∉ acc.1) lsymbols, acc.2 ++ combinations lsymbols).

Definition sharing_graph (terms : list (list Urepr)) : list Urepr * list (Urepr * Urepr) :=
  foldl add_summand ([], []) terms.

(** [nx.Graph(edges).nodes()] *)
Definition graph_nodes (edges : list (Urepr * Urepr)) : list Urepr :=
  remove_dups (edges ≫= λ e, [e.1; e.2]).

(** The variables of the program: [x[i]] for a node, [y[(i, j)]] for an
    oriented edge. *)
Inductive LpVariable :=
| VarX (i : nat)
| VarY (i j : nat).

Global Instance LpVariable_eq_dec : EqDecision LpVariable.
Proof. solve_decision. Defined.

(** Sums of variables with integer coefficients, and constraints. *)
Definition LinExpr : Type := list (Z * LpVariable).

Inductive Constraint :=
| LessEq (lhs rhs : LinExpr)
| Equals (lhs : LinExpr) (rhs : Z).

(** An [LpProblem] to minimize, all of whose variables are binary. *)
Record LpProblem := mkLpProblem {
  variables : list LpVariable;
  constraints : list Constraint;
  objective : LinExpr
}.

(** [limits]: the number of edge entries a node is an endpoint of. *)
Definition limits (edges : list (nat * nat)) (i : nat) : Z :=
  foldl (λ c e, c + (if bool_decide (e.1 = i) then 1 else 0)
                  + (if bool_decide (e.2 = i) then 1 else 0))%Z 0%Z edges.

(** The keys of [y]. *)
Definition y_keys (edges : list (nat * nat)) : list (nat * nat) :=
  remove_dups (edges ++ ((λ e, (e.2, e.1)) <$> edges)).

(** [setup()], for the nodes [0 .. n-1]. *)
Definition setup (n : nat) (edges : list (nat * nat)) : LpProblem :=
  let nodes_vars := seq 0 n in
  let y := y_keys edges in
  mkLpProblem
    ((VarX <$> nodes_vars) ++ ((λ k, VarY k.1 k.2) <$> y))
    (((λ i, LessEq ((λ j, (1%Z, VarY i j)) <$> filter (λ j, (i, j) ∈ y) nodes_vars)
                   [(limits edges i, VarX i)]) <$> nodes_vars)
     ++ ((λ e, Equals [(1%Z, VarY e.1 e.2); (1%Z, VarY e.2 e.1)] 1%Z) <$> edges))
    ((λ i, (1%Z, VarX i)) <$> nodes_vars).

(** [prob += z[i] == 0] *)
Definition add_zero (prob : LpProblem) (i : nat) : LpProblem :=
  mkLpProblem (variables prob) (constraints prob ++ [Equals [(1%Z, VarX i)] 0%Z])
    (objective prob).

(** What the solver leaves behind: a status and the values of the
    variables. *)
Inductive LpStatus :=
| Optimal
| NotSolved
| Infeasible
| Unbounded
| Undefined.

Global Instance LpStatus_eq_dec : EqDecision LpStatus.
Proof. solve_decision. Defined.

Record Solution := mkSolution {
  status : LpStatus;
  value : LpVariable → Z
}.

(** The meaning of a program. *)
Definition eval (a : LpVariable → Z) (e : LinExpr) : Z :=
  foldr (λ cv acc, cv.1 * a cv.2 + acc)%Z 0%Z e.

Definition satisfies (a : LpVariable → Z) (c : Constraint) : Prop :=
  match c with
  | LessEq lhs rhs => (eval a lhs ≤ eval a rhs)%Z
  | Equals lhs rhs => eval a lhs = rhs
  end.

Definition feasible (prob : LpProblem) (a : LpVariable → Z) : Prop :=
  (∀ v, v ∈ variables prob → a v = 0%Z ∨ a v = 1%Z)
  ∧ ∀ c, c ∈ constraints prob → satisfies a c.

Definition optimal (prob : LpProblem) (a : LpVariable → Z) : Prop :=
  feasible prob a
  ∧ ∀ a', feasible prob a' → (eval a (objective prob) ≤ eval a' (objective prob))%Z.

(** The assignment that selects the nodes of [S] and orients every edge
    towards a selected endpoint (the smaller one when both are). *)
Definition assignment_of (S : nat → bool) (v : LpVariable) : Z :=
  match v with
  | VarX i => if S i then 1%Z else 0%Z
  | VarY i j => if S i then (if S j then (if bool_decide (i < j) then 1%Z else 0%Z) else 1%Z)
                else 0%Z
  end.

(** [not set(n[1]).intersection(set(other_dims[:-1]))]: the node has no
    dimension among the reduction dimensions but the last. *)
Definition off_reduction (other_dims : list string) (n : Urepr) : bool :=
  bool_decide (intersection n.2 (take (length other_dims - 1) other_dims) = []).

(** What [sharing_graph_rewrite] decides: the nodes outside the graph, and,
    when there is a graph to solve ([solved]), the pivots and the rest. *)
Record Selection := mkSelection {
  solved : bool;
  isolated : list Urepr;
  pivots : list Urepr;
  other_nodes : list Urepr
}.

(** The nodes that [sharing_graph_rewrite] keeps for the program:
    [[n for n in nodes if n in sgraph.nodes()]]. *)
Definition connected_nodes (terms : list (list Urepr)) : list Urepr :=
  filter (λ n, n ∈ graph_nodes (sharing_graph terms).2) (sharing_graph terms).1.

(** [vars_nodes = {n: i for i, n in nodes_vars.items()}] *)
Definition vars_nodes (nodes_vars : list Urepr) : gmap Urepr nat :=
  list_to_map (reverse (imap (λ i n, (n, i)) nodes_vars)).

(** [[(vars_nodes[i], vars_nodes[j]) for i, j in edges]]; [None] when a
    lookup fails. *)
Definition indexed_edges (terms : list (list Urepr)) : option (list (nat * nat)) :=
  mapM (λ e, i ← vars_nodes (connected_nodes terms) !! e.1;
             j ← vars_nodes (connected_nodes terms) !! e.2; Some (i, j))
       (sharing_graph terms).2.

(** The program solved first. *)
Definition first_program (terms : list (list Urepr)) : option LpProblem :=
  edges ← indexed_edges terms;
  Some (setup (length (connected_nodes terms)) edges).

(** The nodes whose variable the second program sets to zero. *)
Definition zeroed (other_dims : list string) (terms : list (list Urepr)) : list nat :=
  filter (λ i, from_option (off_reduction other_dims) false (connected_nodes terms !! i))
         (seq 0 (length (connected_nodes terms))).

(** The program solved when there are several reduction dimensions. *)
Definition second_program (other_dims : list string) (terms : list (list Urepr))
    : option LpProblem :=
  prob ← first_program terms;
  Some (foldl add_zero prob (zeroed other_dims terms)).

(** The decision of [sharing_graph_rewrite], from the linear symbols of the
    summands; [solve] is the external solver.  [None] when a dictionary
    lookup fails. *)
Definition select_pivots (solve : LpProblem → Solution) (other_dims : list string)
    (terms : list (list Urepr)) : option Selection :=
  let nodes := (sharing_graph terms).1 in
  let sgraph := graph_nodes (sharing_graph terms).2 in
  let isolated := filter (λ n, n ∉ sgraph) nodes in
  let nodes := connected_nodes terms in
  if nodes is [] then Some (mkSelection false isolated [] [])
  else
    let nodes_vars := nodes in
    prob ← first_program terms;
    let x := solve prob in
    x ← (if bool_decide (1 < length other_dims) then
           prob ← second_program other_dims terms;
           let z := solve prob in
           Some (if bool_decide (status z = Optimal) then z else x)
         else Some x);
    let nodes := omap (λ i, if bool_decide (value x (VarX i) = 1%Z)
                            then nodes_vars !! i else None)
                      (seq 0 (length nodes_vars)) in
    let other_nodes := filter (λ n, n ∉ nodes) nodes_vars in
    Some (mkSelection true isolated nodes other_nodes).

(** Whether the pivots come from the second program. *)
Definition constrained (solve : LpProblem → Solution) (other_dims : list string)
    (terms : list (list Urepr)) : bool :=
  bool_decide (1 < length other_dims)
  && from_option (λ prob, bool_decide (status (solve prob) = Optimal)) false
       (second_program other_dims terms).

Section sharing_graph_rewrite.
Context `{Collaborators World}.
(** [sorted(nodes, key=itemgetter(1))] and [sorted(other_nodes)], Python's
    ordering of tuples. *)
Context (sorted_by_rank sorted_plain : list Urepr → list Urepr).



End sharing_graph_rewrite.

(** ** A small kernel used to run the definitions

    [for i: for j: T[j] = A[j]*B[j]; R[j] = T[j]*A[j]; C = K], where [j] is
    the linear dimension. *)
Module Examples.
Definition sA := mkSymbol 1 "A" ["j"].
Definition sB := mkSymbol 2 "B" ["j"].
Definition sT := mkSymbol 3 "T" ["j"].
Definition sR := mkSymbol 4 "R" ["j"].
Definition sT' := mkSymbol 5 "T" ["j"].
Definition sA' := mkSymbol 6 "A" ["j"].
Definition sC := mkSymbol 7 "C" [].
Definition sK := mkSymbol 8 "K" [].
Definition w1 := mkWriter 10 sT (EProd (ESymbol sA) (ESymbol sB)).
Definition w2 := mkWriter 11 sR (EProd (ESymbol sT') (ESymbol sA')).
Definition w3 := mkWriter 12 sC (ESymbol sK).

(** The result of [_analyze_expr] on the three right-hand sides: [A], [B]
    and [T] vary along the linear dimension [j], [K] does not. *)
Definition analysis (e : Expr) : list Symbol * list (Symbol * Z) :=
  match e with
  | EProd (ESymbol a) (ESymbol b) => ([a; b], [(a, 1%Z); (b, 1%Z)])
  | ESymbol k => ([k], [])
  | _ => ([], [])
  end.

Definition flops_of (n : TNode) : Z :=
  match n with
  | TWriter w => match rvalue w with ESymbol _ => 0 | _ => 1 end
  | TSymbol _ => 0
  end.

Definition loop_j : Loop :=
  mkLoop 100 4 "j" true 101 [SWriter w1; SWriter w2; SWriter w3].
Definition loop_i : Loop := mkLoop 200 3 "i" false 201 [SOther 100 [] []].
Definition nest_j : Nest := mkNest (loop_i, 0) [(loop_j, 200)].

(** A statement that reads [T] and writes nothing, and one that writes
    [T]. *)
Definition reads_T : Stmt := SOther 13 [] [urepr sT].
Definition writes_T : Stmt := SOther 14 [urepr sT] [].

(** [==] on symbols taken as equality of the unique representations. *)
Definition same_urepr : SymbolEq := λ a b, bool_decide (urepr a = urepr b).

(** The trace and the store after the first statement of the loop. *)
Definition after_w1 : option (Trace * Store) :=
  _analyze_node flops_of analysis [] loop_j nest_j [] (SWriter w1) empty_store.
Definition trace_w1 : Trace := from_option fst [] after_w1.
Definition store_w1 : Store := from_option snd empty_store after_w1.

(** The whole loop traced, as the cost model reads it, and the copies
    [_cost_fact] starts from. *)
Definition traced : odict Urepr Temporary :=
  from_option (λ r, trace_view r.2 r.1) []
    (_analyze_loop flops_of analysis loop_j nest_j [] empty_store).
Definition copies : odict Urepr Copy :=
  (λ kv, (kv.1, reconstruct_value flops_of kv.2)) <$> traced.
Definition temporary_T : Temporary := default (view empty_store 0) (OrderedDict.get traced (urepr sT)).
Definition temporary_R : Temporary := default (view empty_store 0) (OrderedDict.get traced (urepr sR)).
End Examples.

Import Examples.

(** ** Two sharing graphs, with solvers that answer them *)
Module Graphs.
(** The path [A - B - C - D]. *)
Definition uA : Urepr := ("A", ["j"]).
Definition uB : Urepr := ("B", ["k"]).
Definition uC : Urepr := ("C", ["j"]).
Definition uD : Urepr := ("D", ["k"]).
Definition path : list (list Urepr) := [[uA; uB]; [uB; uC]; [uC; uD]].

(** A solver that answers the program of the path (seven constraints) by
    selecting [B] and [C], and reports any other program infeasible. *)
Definition path_solver (prob : LpProblem) : Solution :=
  if bool_decide (length (constraints prob) = 7)
  then mkSolution Optimal (assignment_of (λ i, bool_decide (i = 1 ∨ i = 2)))
  else mkSolution Infeasible (λ _, 0%Z).

(** The star [L1 - C - L2] of [C[j]*L1[i0][k] + C[j]*L2[i0][k]], with the
    reduction dimensions [i0] and [i1]: [C] has none of them. *)
Definition uStar : Urepr := ("C", ["j"]).
Definition uL1 : Urepr := ("L1", ["i0"; "k"]).
Definition uL2 : Urepr := ("L2", ["i0"; "k"]).
Definition star : list (list Urepr) := [[uStar; uL1]; [uStar; uL2]].
Definition reduction_dims : list string := ["i0"; "i1"].

(** A solver that answers the first program of the star (five constraints)
    by selecting [C], and the second one, where [C] is set to zero, by
    selecting [L1] and [L2]. *)
Definition star_solver (prob : LpProblem) : Solution :=
  if bool_decide (length (constraints prob) = 5)
  then mkSolution Optimal (assignment_of (λ i, bool_decide (i = 0)))
  else mkSolution Optimal (assignment_of (λ i, bool_decide (i = 1 ∨ i = 2))).
End Graphs.

(** ** The driver: the analysis phase of [unpick] *)

(** The entries of a nest, outermost first. *)
Definition nest_entries (n : Nest) : list (Loop * nat) := nest_outer n :: nest_inner n.

(** The loop [for nest in fors: for loop, parent in nest: if loop.is_linear:
    nests[loop] = nest], with loops as keys by identity. *)
Definition linear_nests (fors : list Nest) : odict nat (Loop * Nest) :=
  foldl (λ nests nest,
           foldl (λ nests (lp : Loop * nat),
                    if is_linear lp.1
                    then OrderedDict.set nests (lid lp.1) (lp.1, nest)
                    else nests)
                 nests (nest_entries nest))
        [] fors.

Section analysis.
Context (EstimateFlops : TNode → Z).
Context (_analyze_expr : Expr → list Symbol * list (Symbol * Z)).

(** The loop [for loop, nest in nests.items()]: every loop is traced in
    turn, against the global trace built so far; a trace that is not empty
    is recorded for its loop in [mapper] and merged into the global
    trace.  Returns the global trace and [mapper]. *)
Definition analyze_loops (nests : list (Loop * Nest)) : M (Trace * odict nat Trace) :=
  foldM (λ (acc : Trace * odict nat Trace) (ln : Loop * Nest),
           let '(global_trace, mapper) := acc in
           let '(loop, nest) := ln in
           do trace <- _analyze_loop EstimateFlops _analyze_expr loop nest global_trace;
           if trace is [] then ret (global_trace, mapper)
           else ret (OrderedDict.update global_trace trace,
                     OrderedDict.set mapper (lid loop) trace))
        ([], []) nests.
End analysis.

(** ** The driver: the search for the best alternative in [unpick] *)
Section search.
Context (EstimateFlops : TNode → Z).

(** [_cost_fact] as a whole: what the loop over the levels carries along
    when it ends, with [levels] as the call leaves it ([levels] is the
    caller's dictionary, and looking a level up may add it). *)
Definition cost_fact_run (trace : odict Urepr Temporary) (levels : LevelDict)
    (bounds : option (Z * Z)) : option LevelState :=
  bounds ← match bounds with
           | Some b => Some b
           | None => lo ← py_min (level_keys levels);
                     hi ← py_max (level_keys levels); Some (lo, hi)
           end;
  guard (bounds.1 ≤ bounds.2)%Z;;
  guard (bounds.1 ∈ level_keys levels ∧ bounds.2 ∈ level_keys levels);;
  lo ← py_min (level_keys levels);
  '(cse_cost, levels) ← _cost_cse levels (Some (lo, bounds.1));
  let new_trace := (λ kv, (kv.1, reconstruct_value EstimateFlops kv.2)) <$> trace in
  let first_best := (bounds.1, bounds.1, maxint) in
  let fact_levels :=
    mkLevelDict false
      (filter (λ kv, bounds.1 < kv.1 ∧ kv.1 ≤ bounds.2)%Z (items levels)) in
  foldl (λ o lt, st ← o; fact_level cse_cost bounds fact_levels st lt)
        (Some (mkLevelState first_best (mkFactState new_trace 0%Z 0%Z) cse_cost levels))
        (merge_sort by_level (items fact_levels)).

(** One iteration of [for i in sorted(levels.keys())]. *)
Definition try_level (trace : odict Urepr Temporary) (max_level : Z)
    (acc : option (Z * Z * Z * LevelDict)) (i : Z) : option (Z * Z * Z * LevelDict) :=
  '(global_best, levels) ← acc;
  st ← cost_fact_run trace levels (Some (i, max_level));
  let local_best := best st in
  Some (if bool_decide (local_best.2 < global_best.2)%Z then local_best else global_best,
        levels_now st).

(** The search of [unpick] for one loop: the levels of the trace, the cost
    of leaving them as they are, and the best of the alternatives that
    [_cost_fact] proposes from each level on.  Returns [global_best] and
    [levels]; [None] when a call raises. *)
Definition best_alternative (trace : odict Urepr Temporary)
    : option (Z * Z * Z * LevelDict) :=
  let levels := _group_by_level trace in
  min_level ← py_min (level_keys levels);
  max_level ← py_max (level_keys levels);
  '(current_cost, levels) ← _cost_cse levels (Some (min_level, max_level));
  let global_best := (min_level, min_level, current_cost) in
  foldl (try_level trace max_level) (Some (global_best, levels))
        (merge_sort Z.le (level_keys levels)).

(** [range(global_best[0] + 1, global_best[1] + 1)]: the levels whose
    temporaries are transformed, after those of the level below have been
    pushed into them. *)
Definition transformed_levels (global_best : Z * Z * Z) : list Z :=
  range (global_best.1.1 + 1) (global_best.1.2 + 1).
End search.

(** ** A kernel whose levels have a gap

    [for i: for j: T[j] = A[j]*B[j]; R[j] = T[j]*A[j]; S[j] = R[j]*A[j];
    R[j] = K]: the last statement puts [R] back at level -1, and leaves
    the levels -1, 0 and 2. *)
Module Gap.
Definition sS := mkSymbol 9 "S" ["j"].
Definition sR' := mkSymbol 20 "R" ["j"].
Definition sA'' := mkSymbol 21 "A" ["j"].
Definition sR'' := mkSymbol 22 "R" ["j"].
Definition w4 := mkWriter 13 sS (EProd (ESymbol sR') (ESymbol sA'')).
Definition w5 := mkWriter 14 sR'' (ESymbol sK).
Definition loop_g : Loop :=
  mkLoop 300 4 "j" true 301 [SWriter w1; SWriter w2; SWriter w4; SWriter w5].
Definition nest_g : Nest := mkNest (loop_i, 0) [(loop_g, 200)].
Definition traced_gap : odict Urepr Temporary :=
  from_option (λ r, trace_view r.2 r.1) []
    (_analyze_loop flops_of analysis loop_g nest_g [] empty_store).
End Gap.

(** The levels of the first kernel once [_cost_cse] has looked them up from
    -1 to 1, with the cost it returns. *)
Definition traced_filled : Z * LevelDict :=
  default (0%Z, mkLevelDict true [])
    (_cost_cse (_group_by_level traced) (Some (-1, 1)%Z)).
(** ** Reasoning about store computations *)
Definition wp {A} (m : M A) (Q : A → Store → Prop) (σ : Store) : Prop :=
  ∃ a σ', m σ = Some (a, σ') ∧ Q a σ'.

Lemma wp_ret {A} (a : A) Q σ : Q a σ → wp (ret a) Q σ.
Proof. intros HQ. by exists a, σ. Qed.

Lemma wp_bind {A B} (m : M A) (k : A → M B) Q σ :
  wp m (λ a σ', wp (k a) Q σ') σ → wp (bind m k) Q σ.
Proof.
  intros (a & σ' & Hm & b & σ'' & Hk & HQ). exists b, σ''.
  unfold bind. by rewrite Hm.
Qed.

Lemma wp_bind_run {A B} (m : M A) (k : A → M B) a σ' Q σ :
  m σ = Some (a, σ') → wp (k a) Q σ' → wp (bind m k) Q σ.
Proof.
  intros Hm (b & σ'' & Hk & HQ). exists b, σ''. unfold bind. by rewrite Hm.
Qed.

Lemma wp_mono {A} (m : M A) (Q Q' : A → Store → Prop) σ :
  wp m Q σ → (∀ a σ', Q a σ' → Q' a σ') → wp m Q' σ.
Proof. intros (a & σ' & Hm & HQ) Himp. exists a, σ'. auto. Qed.

Lemma wp_lift {A} (o : option A) a Q σ : o = Some a → Q a σ → wp (lift o) Q σ.
Proof. intros -> HQ. by exists a, σ. Qed.

Lemma wp_foldM {A B} (I : A → list B → Store → Prop) (f : A → B → M A) a l Q σ :
  I a l σ →
  (∀ a b l' σ, I a (b :: l') σ → wp (f a b) (λ a' σ', I a' l' σ') σ) →
  (∀ a σ, I a [] σ → Q a σ) →
  wp (foldM f a l) Q σ.
Proof.
  intros HI Hstep Hend. revert a σ HI.
  induction l as [|b l IH]; intros a σ HI; simpl.
  - apply wp_ret. auto.
  - apply wp_bind. eapply wp_mono; [by apply Hstep|]. simpl. auto.
Qed.

Lemma wp_alloc_list l Q σ :
  (∀ σ', temporaries σ' = temporaries σ → lists σ' = lists σ ++ [l] →
         dicts σ' = dicts σ → Q (length (lists σ)) σ') →
  wp (alloc_list l) Q σ.
Proof. intros HQ. eexists _, _. split; [done|]. by apply HQ. Qed.

Lemma wp_alloc_dict d Q σ :
  (∀ σ', temporaries σ' = temporaries σ → lists σ' = lists σ →
         dicts σ' = dicts σ ++ [d] → Q (length (dicts σ)) σ') →
  wp (alloc_dict d) Q σ.
Proof. intros HQ. eexists _, _. split; [done|]. by apply HQ. Qed.

Lemma wp_alloc_temporary t Q σ :
  (∀ σ', temporaries σ' = temporaries σ ++ [t] → lists σ' = lists σ →
         dicts σ' = dicts σ → Q (length (temporaries σ)) σ') →
  wp (alloc_temporary t) Q σ.
Proof. intros HQ. eexists _, _. split; [done|]. by apply HQ. Qed.

Lemma wp_get_temporary r Q σ : Q (temporary_at σ r) σ → wp (get_temporary r) Q σ.
Proof. intros HQ. by eexists _, _. Qed.
Lemma wp_get_list r Q σ : Q (list_at σ r) σ → wp (get_list r) Q σ.
Proof. intros HQ. by eexists _, _. Qed.
Lemma wp_get_dict r Q σ : Q (dict_at σ r) σ → wp (get_dict r) Q σ.
Proof. intros HQ. by eexists _, _. Qed.

Lemma wp_alter_temporary f r Q σ :
  (∀ σ', temporaries σ' = alter f r (temporaries σ) → lists σ' = lists σ →
         dicts σ' = dicts σ → Q tt σ') →
  wp (alter_temporary f r) Q σ.
Proof. intros HQ. eexists _, _. split; [done|]. by apply HQ. Qed.

Lemma wp_alter_list f r Q σ :
  (∀ σ', temporaries σ' = temporaries σ → lists σ' = alter f r (lists σ) →
         dicts σ' = dicts σ → Q tt σ') →
  wp (alter_list f r) Q σ.
Proof. intros HQ. eexists _, _. split; [done|]. by apply HQ. Qed.

Lemma wp_alter_dict f r Q σ :
  (∀ σ', temporaries σ' = temporaries σ → lists σ' = lists σ →
         dicts σ' = alter f r (dicts σ) → Q tt σ') →
  wp (alter_dict f r) Q σ.
Proof. intros HQ. eexists _, _. split; [done|]. by apply HQ. Qed.

(** Reading a list through [default]. *)
Lemma default_lookup_app_l {A} (d : A) l l' i :
  i < length l → default d ((l ++ l') !! i) = default d (l !! i).
Proof. intros Hi. by rewrite lookup_app_l. Qed.

Lemma default_lookup_snoc {A} (d : A) l x : default d ((l ++ [x]) !! length l) = x.
Proof. by rewrite list_lookup_middle. Qed.

Lemma default_lookup_prefix {A} (d : A) l l' i :
  l `prefix_of` l' → i < length l → default d (l' !! i) = default d (l !! i).
Proof. intros [k ->] Hi. by apply default_lookup_app_l. Qed.

Lemma default_lookup_alter {A} (d : A) f l i j :
  default d (alter f i l !! j) =
  if decide (i = j ∧ i < length l) then f (default d (l !! i)) else default d (l !! j).
Proof.
  case_decide as Hc.
  - destruct Hc as [<- Hi]. rewrite list_lookup_alter_eq.
    destruct (lookup_lt_is_Some_2 l i Hi) as [x ->]. done.
  - destruct (decide (i = j)) as [<-|Hne].
    + rewrite list_lookup_alter_eq. rewrite lookup_ge_None_2; [done|lia].
    + by rewrite list_lookup_alter_ne.
Qed.

Lemma alter_snoc {A} (f : A → A) l x : alter f (length l) (l ++ [x]) = l ++ [f x].
Proof. rewrite <-(Nat.add_0_r (length l)). by rewrite alter_app_r. Qed.

Lemma list_at_prefix σ σ' r :
  lists σ `prefix_of` lists σ' → r < length (lists σ) → list_at σ' r = list_at σ r.
Proof. apply default_lookup_prefix. Qed.

Lemma dict_at_prefix σ σ' r :
  dicts σ `prefix_of` dicts σ' → r < length (dicts σ) → dict_at σ' r = dict_at σ r.
Proof. apply default_lookup_prefix. Qed.

Lemma temporary_at_prefix σ σ' r :
  temporaries σ `prefix_of` temporaries σ' → r < length (temporaries σ) →
  temporary_at σ' r = temporary_at σ r.
Proof. apply default_lookup_prefix. Qed.

Lemma list_at_nonempty σ r : list_at σ r ≠ [] → r < length (lists σ).
Proof.
  unfold list_at. intros Hne. apply lookup_lt_is_Some.
  destruct (lists σ !! r); [eauto|done].
Qed.

Lemma dict_at_nonempty σ r : dict_at σ r ≠ [] → r < length (dicts σ).
Proof.
  unfold dict_at. intros Hne. apply lookup_lt_is_Some.
  destruct (dicts σ !! r); [eauto|done].
Qed.

Lemma wp_or_new_list rds Q σ :
  (∀ rd σ',
     temporaries σ' = temporaries σ → lists σ `prefix_of` lists σ' →
     dicts σ' = dicts σ → rd < length (lists σ') →
     list_at σ' rd = from_option (list_at σ) [] rds →
     (length (lists σ) ≤ rd ∨
      (rds = Some rd ∧ rd < length (lists σ) ∧ list_at σ rd ≠ [])) →
     Q rd σ') →
  wp (or_new_list rds) Q σ.
Proof.
  intros HQ. unfold or_new_list.
  assert (from_option (list_at σ) [] rds = [] → wp (alloc_list []) Q σ) as Hnew.
  { intros Hemp. apply wp_alloc_list. intros σ' Ht Hl Hd. apply HQ; auto.
    - rewrite Hl. by apply prefix_app_r.
    - rewrite Hl, length_app. simpl. lia.
    - unfold list_at at 1. by rewrite Hl, default_lookup_snoc, Hemp. }
  destruct rds as [r|]; [|by apply Hnew].
  apply wp_bind, wp_get_list. destruct (list_at σ r) as [|x l] eqn:Hr.
  - apply Hnew. done.
  - apply wp_ret.
    assert (r < length (lists σ)) by (apply list_at_nonempty; by rewrite Hr).
    apply HQ; auto. right. by rewrite Hr.
Qed.

Lemma wp_or_new_dict lcs Q σ :
  (∀ lc σ',
     temporaries σ' = temporaries σ → lists σ' = lists σ →
     dicts σ `prefix_of` dicts σ' → lc < length (dicts σ') →
     dict_at σ' lc = from_option (dict_at σ) [] lcs →
     (length (dicts σ) ≤ lc ∨
      (lcs = Some lc ∧ lc < length (dicts σ) ∧ dict_at σ lc ≠ [])) →
     Q lc σ') →
  wp (or_new_dict lcs) Q σ.
Proof.
  intros HQ. unfold or_new_dict.
  assert (from_option (dict_at σ) [] lcs = [] → wp (alloc_dict []) Q σ) as Hnew.
  { intros Hemp. apply wp_alloc_dict. intros σ' Ht Hl Hd. apply HQ; auto.
    - rewrite Hd. by apply prefix_app_r.
    - rewrite Hd, length_app. simpl. lia.
    - unfold dict_at at 1. by rewrite Hd, default_lookup_snoc, Hemp. }
  destruct lcs as [r|]; [|by apply Hnew].
  apply wp_bind, wp_get_dict. destruct (dict_at σ r) as [|x l] eqn:Hr.
  - apply Hnew. done.
  - apply wp_ret.
    assert (r < length (dicts σ)) by (apply dict_at_nonempty; by rewrite Hr).
    apply HQ; auto. right. by rewrite Hr.
Qed.

Section tracer_facts.
Context (EstimateFlops : TNode → Z).
Context (_analyze_expr : Expr → list Symbol * list (Symbol * Z)).

Lemma list_at_default_ge σ r : length (lists σ) ≤ r → list_at σ r = [].
Proof. intros Hr. unfold list_at. by rewrite lookup_ge_None_2. Qed.

Lemma list_at_snoc_empty σ σ1 r :
  lists σ1 = lists σ ++ [[]] → list_at σ1 r = list_at σ r.
Proof.
  intros Hl. unfold list_at. rewrite Hl.
  destruct (decide (r < length (lists σ))) as [Hlt|Hge].
  - by rewrite lookup_app_l.
  - rewrite (lookup_ge_None_2 (lists σ)); [|lia].
    destruct (decide (r = length (lists σ))) as [->|Hne].
    + by rewrite list_lookup_middle.
    + rewrite lookup_ge_None_2; [done|]. rewrite length_app. simpl. lia.
Qed.

Lemma wp_Temporary_init nd ml ns rds lcs Q σ :
  (∀ σ' rb rd lc,
     temporaries σ' = temporaries σ ++
       [mkTemporary (-1) false rb nd ml ns rd lc (EstimateFlops nd)] →
     lists σ `prefix_of` lists σ' → dicts σ `prefix_of` dicts σ' →
     length (lists σ) ≤ rb < length (lists σ') → list_at σ' rb = [] →
     rd < length (lists σ') → rd ≠ rb →
     list_at σ' rd = from_option (list_at σ) [] rds →
     (length (lists σ) ≤ rd ∨ (rds = Some rd ∧ rd < length (lists σ))) →
     lc < length (dicts σ') →
     dict_at σ' lc = from_option (dict_at σ) [] lcs →
     (length (dicts σ) ≤ lc ∨ (lcs = Some lc ∧ lc < length (dicts σ))) →
     Q (length (temporaries σ)) σ') →
  wp (Temporary_init EstimateFlops nd ml ns rds lcs) Q σ.
Proof.
  intros HQ. unfold Temporary_init.
  apply wp_bind, wp_alloc_list. intros σ1 Ht1 Hl1 Hd1.
  apply wp_bind, wp_or_new_list. intros rd σ2 Ht2 Hl2 Hd2 Hrd Hrdv Hrdf.
  apply wp_bind, wp_or_new_dict. intros lc σ3 Ht3 Hl3 Hd3 Hlc Hlcv Hlcf.
  apply wp_alloc_temporary. intros σ4 Ht4 Hl4 Hd4.
  assert (lists σ `prefix_of` lists σ2) as Hp.
  { etrans; [|exact Hl2]. rewrite Hl1. by apply prefix_app_r. }
  assert (length (lists σ1) = S (length (lists σ))) as Hlen1.
  { rewrite Hl1, length_app. simpl. lia. }
  assert (length (lists σ1) ≤ length (lists σ2)) as Hlen2 by by apply prefix_length.
  assert (dict_at σ2 = dict_at σ) as Hdict.
  { unfold dict_at. by rewrite Hd2, Hd1. }
  assert (from_option (list_at σ1) [] rds = from_option (list_at σ) [] rds) as Hfrom.
  { destruct rds; simpl; [|done]. by apply list_at_snoc_empty. }
  rewrite Hfrom in Hrdv. rewrite Hdict in Hlcv.
  rewrite Ht3, Ht2, Ht1 in Ht4.
  assert (list_at σ4 = list_at σ2) as Hl42 by (unfold list_at; by rewrite Hl4, Hl3).
  assert (dict_at σ4 = dict_at σ3) as Hd43 by (unfold dict_at; by rewrite Hd4).
  rewrite Ht3, Ht2, Ht1.
  apply (HQ σ4 (length (lists σ)) rd lc); rewrite ?Hl42, ?Hd43, ?Hl4, ?Hl3, ?Hd4; auto.
  - by rewrite <-Hd1, <-Hd2.
  - lia.
  - unfold list_at. rewrite (default_lookup_prefix _ (lists σ1)); [|done|lia].
    by rewrite Hl1, default_lookup_snoc.
  - destruct Hrdf as [?|(_ & ? & Hne)]; [lia|].
    intros ->. apply Hne. unfold list_at. by rewrite Hl1, default_lookup_snoc.
  - destruct Hrdf as [?|(-> & ? & Hne)]; [left; lia|].
    destruct (decide (rd = length (lists σ))) as [->|Hne']; [left; lia|right].
    split; [done|lia].
  - destruct Hlcf as [?|(-> & ? & Hne)]; [left|right].
    + by rewrite <-Hd1, <-Hd2.
    + split; [done|]. by rewrite <-Hd1, <-Hd2.
Qed.

Lemma wp_set_level r z Q σ :
  (∀ σ', temporaries σ' =
           alter (λ t, mkTemporary z (pushed t) (readby t) (node t) (main_loop t)
                         (nest t) (reads t) (linear_reads_costs t) (flops t)) r
                 (temporaries σ) →
         lists σ' = lists σ → dicts σ' = dicts σ → Q tt σ') →
  wp (set_level r z) Q σ.
Proof. apply wp_alter_temporary. Qed.

Lemma wp_reconstruct g Q σ :
  (∀ σ' tc,
     temporaries σ' = temporaries σ ++ [tc] →
     lists σ `prefix_of` lists σ' → dicts σ `prefix_of` dicts σ' →
     level tc = level (temporary_at σ g) → pushed tc = false →
     node tc = node (temporary_at σ g) →
     main_loop tc = main_loop (temporary_at σ g) →
     nest tc = nest (temporary_at σ g) →
     flops tc = EstimateFlops (node (temporary_at σ g)) →
     length (lists σ) ≤ readby tc < length (lists σ') →
     length (lists σ) ≤ reads tc < length (lists σ') →
     readby tc ≠ reads tc →
     length (dicts σ) ≤ linear_reads_costs tc < length (dicts σ') →
     (readby (temporary_at σ g) < length (lists σ) →
      list_at σ' (readby tc) = list_at σ (readby (temporary_at σ g))) →
     list_at σ' (reads tc) = list_at σ (reads (temporary_at σ g)) →
     dict_at σ' (linear_reads_costs tc) =
       dict_at σ (linear_reads_costs (temporary_at σ g)) →
     Q (length (temporaries σ)) σ') →
  wp (reconstruct EstimateFlops g) Q σ.
Proof.
  intros HQ. unfold reconstruct.
  apply wp_bind, wp_get_temporary. set (tg := temporary_at σ g) in *.
  apply wp_bind, wp_get_list.
  apply wp_bind, wp_alloc_list. intros σ1 Ht1 Hl1 Hd1.
  apply wp_bind, wp_get_dict.
  apply wp_bind, wp_alloc_dict. intros σ2 Ht2 Hl2 Hd2.
  apply wp_bind, wp_Temporary_init.
  intros σ3 rb rd lc Ht3 Hl3 Hd3 Hrb Hrbv Hrd Hrdne Hrdv Hrdf Hlc Hlcv Hlcf.
  apply wp_bind, wp_set_level. intros σ4 Ht4 Hl4 Hd4.
  apply wp_bind, wp_get_list.
  apply wp_bind, wp_alloc_list. intros σ5 Ht5 Hl5 Hd5.
  apply wp_bind. apply wp_alter_temporary. intros σ6 Ht6 Hl6 Hd6.
  apply wp_ret.
  assert (length (lists σ2) = S (length (lists σ))) as Hlen2.
  { rewrite Hl2, Hl1, length_app. simpl. lia. }
  assert (length (dicts σ2) = S (length (dicts σ))) as Hdlen2.
  { rewrite Hd2, Hd1, length_app. simpl. lia. }
  assert (lists σ `prefix_of` lists σ3) as Hp3.
  { etrans; [|exact Hl3]. rewrite Hl2, Hl1. by apply prefix_app_r. }
  assert (dicts σ `prefix_of` dicts σ3) as Hdp3.
  { etrans; [|exact Hd3]. rewrite Hd2, Hd1. by apply prefix_app_r. }
  pose proof (prefix_length _ _ Hl3) as Hlen3.
  pose proof (prefix_length _ _ Hd3) as Hdlen3.
  assert (length (lists σ6) = S (length (lists σ3))) as Hlen6.
  { rewrite Hl6, Hl5, Hl4, length_app. simpl. lia. }
  assert (lists σ3 `prefix_of` lists σ6) as Hp6.
  { rewrite Hl6, Hl5, Hl4. by apply prefix_app_r. }
  rewrite Ht5, Ht4, Ht3, alter_snoc, alter_snoc in Ht6. simpl in Ht6.
  rewrite Ht2, Ht1 in *.
  eapply HQ; [exact Ht6|..]; simpl; rewrite ?Hl4.
  - by etrans.
  - by rewrite Hd6, Hd5, Hd4.
  - done.
  - done.
  - done.
  - done.
  - done.
  - done.
  - lia.
  - destruct Hrdf as [?|[[= <-] ?]]; lia.
  - lia.
  - rewrite Hd6, Hd5, Hd4. destruct Hlcf as [?|[[= <-] ?]]; [lia|]. rewrite Hd1 in *. lia.
  - intros Hv. unfold list_at at 1. rewrite Hl6, Hl5, Hl4, default_lookup_snoc.
    unfold list_at at 1. rewrite Hl4. by apply list_at_prefix.
  - rewrite (list_at_prefix σ3 σ6); [|done..]. rewrite Hrdv. simpl.
    unfold list_at at 1. by rewrite Hl2, Hl1, default_lookup_snoc.
  - unfold dict_at at 1. rewrite Hd6, Hd5, Hd4. fold (dict_at σ3 lc). rewrite Hlcv. simpl.
    unfold dict_at at 1. rewrite Hd2, default_lookup_snoc. unfold dict_at. by rewrite Hd1.
Qed.

Lemma wp_readby_append r s Q σ :
  (∀ σ', temporaries σ' = temporaries σ →
         lists σ' = alter (λ l, l ++ [s]) (readby (temporary_at σ r)) (lists σ) →
         dicts σ' = dicts σ → Q tt σ') →
  wp (readby_append r s) Q σ.
Proof.
  intros HQ. unfold readby_append. apply wp_bind, wp_get_temporary.
  by apply wp_alter_list.
Qed.

Lemma trace_wf_mono σ σ' trace :
  trace_wf σ trace → length (temporaries σ) ≤ length (temporaries σ') →
  trace_wf σ' trace.
Proof. intros Hwf Hle u q Hq. apply Hwf in Hq. lia. Qed.

Lemma trace_wf_set σ trace u r :
  trace_wf σ trace → r < length (temporaries σ) →
  trace_wf σ (OrderedDict.set trace u r).
Proof.
  intros Hwf Hr u' q. rewrite OrderedDict.get_set.
  case_decide; [intros [= <-]; done|]. apply Hwf.
Qed.

Lemma wp_trace_linear_read gt loop nest target trace s Q σ :
  trace_wf σ trace →
  (∀ trace' σ',
     trace_wf σ' trace' →
     is_Some (OrderedDict.get trace' (urepr s)) →
     (∀ u, is_Some (OrderedDict.get trace u) → is_Some (OrderedDict.get trace' u)) →
     dicts σ `prefix_of` dicts σ' →
     Q trace' σ') →
  wp (trace_linear_read EstimateFlops gt loop nest target trace s) Q σ.
Proof.
  intros Hwf HQ. unfold trace_linear_read.
  destruct (OrderedDict.get gt (urepr s)) as [g|].
  - apply wp_bind, wp_readby_append. intros σ1 Ht1 Hl1 Hd1.
    apply wp_bind, wp_reconstruct.
    intros σ2 tc Ht2 Hl2 Hd2 _ _ _ _ _ _ _ _ _ _ _ _ _.
    apply wp_bind, wp_set_level. intros σ3 Ht3 Hl3 Hd3.
    apply wp_ret.
    assert (length (temporaries σ3) = S (length (temporaries σ))) as Hlen.
    { rewrite Ht3, length_alter, Ht2, length_app, Ht1. simpl. lia. }
    apply HQ.
    + apply trace_wf_set; [|rewrite Ht1; lia].
      eapply trace_wf_mono; [done|lia].
    + rewrite OrderedDict.get_set_eq. eauto.
    + intros u. apply OrderedDict.get_set_is_Some.
    + by rewrite Hd3, <-Hd1.
  - apply wp_bind, wp_Temporary_init.
    intros σ1 rb rd lc Ht1 Hl1 Hd1 _ _ _ _ _ _ _ _ _.
    assert (length (temporaries σ1) = S (length (temporaries σ))) as Hlen.
    { rewrite Ht1, length_app. simpl. lia. }
    unfold OrderedDict.setdefault.
    destruct (OrderedDict.get trace (urepr s)) as [t|] eqn:Hget.
    + apply wp_bind, wp_readby_append. intros σ2 Ht2 Hl2 Hd2.
      apply wp_ret. apply HQ.
      * eapply trace_wf_mono; [done|]. rewrite Ht2. lia.
      * rewrite Hget. eauto.
      * done.
      * by rewrite Hd2.
    + apply wp_bind, wp_readby_append. intros σ2 Ht2 Hl2 Hd2.
      apply wp_ret. apply HQ.
      * apply trace_wf_set; [|rewrite Ht2; lia].
        eapply trace_wf_mono; [done|]. rewrite Ht2. lia.
      * rewrite OrderedDict.get_set_eq. eauto.
      * intros u. apply OrderedDict.get_set_is_Some.
      * by rewrite Hd2.
Qed.

Lemma wp_trace_reads gt loop nest w trace Q σ :
  trace_wf σ trace →
  (∀ rd lc trace' σ',
     trace_wf σ' trace' →
     (∀ s, s ∈ (_analyze_expr (rvalue w)).2.*1 →
           is_Some (OrderedDict.get trace' (urepr s))) →
     lc < length (dicts σ') →
     dict_at σ' lc = (_analyze_expr (rvalue w)).2 →
     Q (rd, lc, trace') σ') →
  wp (trace_reads EstimateFlops _analyze_expr gt loop nest w trace) Q σ.
Proof.
  intros Hwf HQ. unfold trace_reads.
  destruct (_analyze_expr (rvalue w)) as [rds lrc]. simpl in HQ.
  apply wp_bind, wp_alloc_list. intros σ1 Ht1 Hl1 Hd1.
  apply wp_bind, wp_alloc_dict. intros σ2 Ht2 Hl2 Hd2.
  apply wp_bind.
  apply (wp_foldM (λ tr l σ', trace_wf σ' tr ∧ dicts σ2 `prefix_of` dicts σ' ∧
            ∀ s, s ∈ lrc.*1 → s ∈ l ∨ is_Some (OrderedDict.get tr (urepr s)))).
  - split_and!; [|done|auto]. eapply trace_wf_mono; [done|]. rewrite Ht2, Ht1. lia.
  - intros tr b l' σ' (Hwf' & Hpre & Hin).
    apply wp_trace_linear_read; [done|]. intros tr' σ'' Hwf'' Hb Hkeep Hpre'.
    split_and!; [done|by etrans|]. intros s Hs.
    destruct (Hin s Hs) as [[->|Hs']%elem_of_cons|Hs']; auto.
  - intros tr σ' (Hwf' & Hpre & Hin). apply wp_ret.
    assert (length (dicts σ1) < length (dicts σ2)) as Hlt.
    { rewrite Hd2, length_app. simpl. lia. }
    apply HQ; [done|..].
    + intros s Hs. destruct (Hin s Hs) as [Hs'%elem_of_nil|]; done.
    + apply prefix_length in Hpre. lia.
    + rewrite (dict_at_prefix σ2 σ'); [|done..].
      unfold dict_at. by rewrite Hd2, default_lookup_snoc.
Qed.

Lemma wp_levels_of trace l Q σ :
  (∀ s, s ∈ l → is_Some (OrderedDict.get trace (urepr s))) →
  (∀ lv, Forall2 (λ s z, level_in σ trace s = Some z) l lv → Q lv σ) →
  wp (levels_of trace l) Q σ.
Proof.
  unfold levels_of. revert Q. induction l as [|s l IH]; intros Q Hin HQ; simpl.
  - apply wp_ret, HQ. constructor.
  - destruct (Hin s) as [r Hr]; [by left|].
    apply wp_bind, wp_bind. eapply wp_lift; [done|].
    apply wp_bind, wp_get_temporary, wp_ret.
    apply wp_bind, IH; [intros; apply Hin; by right|]. intros lv Hlv.
    apply wp_ret, HQ. constructor; [|done]. unfold level_in. by rewrite Hr.
Qed.

Lemma foldl_max_ge (l : list Z) x : (x ≤ foldl Z.max x l)%Z ∧ ∀ y, y ∈ l → (y ≤ foldl Z.max x l)%Z.
Proof.
  revert x. induction l as [|a l IH]; intros x; simpl.
  - split; [lia|]. by intros y ?%elem_of_nil.
  - destruct (IH (Z.max x a)) as [H1 H2]. split; [lia|].
    intros y [->|Hy]%elem_of_cons; [lia|auto].
Qed.

Lemma foldl_max_in (l : list Z) x : foldl Z.max x l = x ∨ foldl Z.max x l ∈ l.
Proof.
  revert x. induction l as [|a l IH]; intros x; simpl; [by left|].
  destruct (IH (Z.max x a)) as [->|Hin].
  - destruct (Z.max_spec x a) as [[_ ->]|[_ ->]]; [right; by left|by left].
  - right. by right.
Qed.

Lemma py_max_spec l : l ≠ [] →
  ∃ m, py_max l = Some m ∧ m ∈ l ∧ ∀ y, y ∈ l → (y ≤ m)%Z.
Proof.
  destruct l as [|x l]; [done|]. intros _. simpl. eexists. split; [done|].
  destruct (foldl_max_ge l x) as [H1 H2]. split.
  - destruct (foldl_max_in l x) as [->|?]; [by left|by right].
  - intros y [->|Hy]%elem_of_cons; auto.
Qed.

(** C6, as amended: for a write statement, the temporary created for the
    write target is installed in the trace under the target's [urepr]; its
    level is at least one more than the level, in the loop-local trace, of
    each of its linear reads, equals one more than the level of one of them
    when there is a linear read, and is -1 (not 0) when there is none. *)
Theorem new_temporary_level gt loop nest trace w σ :
  trace_wf σ trace →
  ∃ rd lc trace1 σ1 r σ',
    trace_reads EstimateFlops _analyze_expr gt loop nest w trace σ
      = Some ((rd, lc, trace1), σ1)
    ∧ _analyze_node EstimateFlops _analyze_expr gt loop nest trace (SWriter w) σ
      = Some (OrderedDict.set trace1 (urepr (lvalue w)) r, σ')
    ∧ node (temporary_at σ' r) = TWriter w
    ∧ dict_at σ' (linear_reads_costs (temporary_at σ' r)) = (_analyze_expr (rvalue w)).2
    ∧ (∀ s, s ∈ (_analyze_expr (rvalue w)).2.*1 →
        ∃ z, level_in σ1 trace1 s = Some z ∧ (1 + z ≤ level (temporary_at σ' r))%Z)
    ∧ ((_analyze_expr (rvalue w)).2 ≠ [] →
        ∃ s z, s ∈ (_analyze_expr (rvalue w)).2.*1 ∧ level_in σ1 trace1 s = Some z
               ∧ level (temporary_at σ' r) = (1 + z)%Z)
    ∧ ((_analyze_expr (rvalue w)).2 = [] → level (temporary_at σ' r) = (-1)%Z).
Proof.
  intros Hwf.
  destruct (wp_trace_reads gt loop nest w trace
              (λ a σ1, trace_wf σ1 a.2 ∧
                 (∀ s, s ∈ (_analyze_expr (rvalue w)).2.*1 →
                   is_Some (OrderedDict.get a.2 (urepr s))) ∧
                 a.1.2 < length (dicts σ1) ∧
                 dict_at σ1 a.1.2 = (_analyze_expr (rvalue w)).2) σ Hwf)
    as ([[rd lc] trace1] & σ1 & Hreads & Hwf1 & Hkeys & Hlc & Hdict); [by auto|].
  simpl in *. exists rd, lc, trace1, σ1.
  set (lrc := (_analyze_expr (rvalue w)).2) in *.
  cut (wp (_analyze_node EstimateFlops _analyze_expr gt loop nest trace (SWriter w))
         (λ tr σ', ∃ r, tr = OrderedDict.set trace1 (urepr (lvalue w)) r
            ∧ node (temporary_at σ' r) = TWriter w
            ∧ dict_at σ' (linear_reads_costs (temporary_at σ' r)) = lrc
            ∧ (∀ s, s ∈ lrc.*1 →
                ∃ z, level_in σ1 trace1 s = Some z ∧ (1 + z ≤ level (temporary_at σ' r))%Z)
            ∧ (lrc ≠ [] →
                ∃ s z, s ∈ lrc.*1 ∧ level_in σ1 trace1 s = Some z
                       ∧ level (temporary_at σ' r) = (1 + z)%Z)
            ∧ (lrc = [] → level (temporary_at σ' r) = (-1)%Z)) σ).
  { intros (tr & σ' & Hrun & r & -> & H). exists r, σ'. split; [done|]. split; [done|]. exact H. }
  unfold _analyze_node. eapply wp_bind_run; [exact Hreads|]. simpl.
  apply wp_bind, wp_Temporary_init.
  intros σ2 rb rd' lc' Ht2 Hl2 Hd2 _ _ _ _ _ _ Hlc' Hlcv _. simpl in Hlcv.
  assert (temporary_at σ2 (length (temporaries σ1)) =
    mkTemporary (-1) false rb (TWriter w) loop nest rd' lc' (EstimateFlops (TWriter w)))
    as Hnew.
  { unfold temporary_at. by rewrite Ht2, default_lookup_snoc. }
  unfold linear_reads.
  apply wp_bind, wp_bind, wp_get_temporary. rewrite Hnew. simpl.
  apply wp_bind, wp_get_dict, wp_ret. rewrite Hlcv, Hdict.
  assert (∀ s, level_in σ2 trace1 s = level_in σ1 trace1 s) as Hlevel.
  { intros s. unfold level_in. destruct (OrderedDict.get trace1 (urepr s)) as [q|] eqn:Hq;
      simpl; [|done]. f_equal. f_equal. apply temporary_at_prefix.
    - rewrite Ht2. by apply prefix_app_r.
    - by eapply Hwf1. }
  apply wp_bind, wp_levels_of; [done|]. intros lv Hlv.
  assert (∃ m, py_max (if lv is [] then [(-2)%Z] else lv) = Some m
    ∧ (lrc = [] → m = (-2)%Z)
    ∧ (∀ s, s ∈ lrc.*1 → ∃ z, level_in σ1 trace1 s = Some z ∧ (z ≤ m)%Z)
    ∧ (lrc ≠ [] → ∃ s z, s ∈ lrc.*1 ∧ level_in σ1 trace1 s = Some z ∧ m = z))
    as (m & Hm & Hm0 & Hmge & Hmin).
  { destruct lv as [|z0 lv0] eqn:Hlveq.
    - apply Forall2_nil_inv_r in Hlv. exists (-2)%Z. split_and!; [done|done|..].
      + rewrite Hlv. by intros s ?%elem_of_nil.
      + intros Hne. destruct lrc; done.
    - rewrite <-Hlveq in *. destruct (py_max_spec lv) as (m & Hm & Hmin & Hmge); [by subst|].
      exists m. split_and!; [done|..].
      + intros ->. apply Forall2_nil_inv_l in Hlv. by subst.
      + intros s Hs. apply list_elem_of_lookup in Hs as [i Hi].
        destruct (Forall2_lookup_l _ _ _ _ _ Hlv Hi) as (z & Hz & Hsz).
        exists z. rewrite <-Hlevel. split; [done|].
        apply Hmge. by eapply list_elem_of_lookup_2.
      + intros _. apply list_elem_of_lookup in Hmin as [i Hi].
        destruct (Forall2_lookup_r _ _ _ _ _ Hlv Hi) as (s & Hs & Hsz).
        exists s, m. rewrite <-Hlevel. split_and!; [|done..].
        by eapply list_elem_of_lookup_2. }
  apply wp_bind. eapply wp_lift; [exact Hm|].
  apply wp_bind, wp_set_level. intros σ3 Ht3 Hl3 Hd3. apply wp_ret.
  exists (length (temporaries σ1)). split; [done|].
  rewrite Ht2, alter_snoc in Ht3. simpl in Ht3.
  assert (temporary_at σ3 (length (temporaries σ1)) =
    mkTemporary (m + 1) false rb (TWriter w) loop nest rd' lc' (EstimateFlops (TWriter w)))
    as Hfin.
  { unfold temporary_at. by rewrite Ht3, default_lookup_snoc. }
  rewrite Hfin. simpl. split_and!.
  - done.
  - unfold dict_at. rewrite Hd3. fold (dict_at σ2 lc'). by rewrite Hlcv.
  - intros s Hs. destruct (Hmge s Hs) as (z & Hz & Hle). exists z. split; [done|lia].
  - intros Hne. destruct (Hmin Hne) as (s & z & Hs & Hz & ->). exists s, z.
    split_and!; [done..|lia].
  - intros He. rewrite (Hm0 He). done.
Qed.
End tracer_facts.
Section tracer_escape.
Context (EstimateFlops : TNode → Z).
Context (_analyze_expr : Expr → list Symbol * list (Symbol * Z)).
Context `{SymbolEq}.

Lemma py_in_elem_of (x : Symbol) (l : list Symbol) : x ∈ l → py_in x l = true.
Proof.
  intros Hx. unfold py_in. apply existsb_exists. exists x. split.
  - by apply list_elem_of_In.
  - by rewrite Nat.eqb_refl.
Qed.

Lemma list_at_alter σ σ' f r ℓ :
  lists σ' = alter f r (lists σ) →
  list_at σ' ℓ = if decide (r = ℓ ∧ r < length (lists σ)) then f (list_at σ r) else list_at σ ℓ.
Proof. intros Hl. unfold list_at. rewrite Hl. apply default_lookup_alter. Qed.

(** C7, as amended: for a statement that is not a write, every temporary
    of the trace whose symbol the statement writes ([in_written]) has its
    own symbol appended to its [readby] list, and is no longer SSA. *)
Theorem written_temporary_not_ssa gt loop nest trace nid written read σ :
  readby_wf σ trace →
  ∃ σ',
    _analyze_node EstimateFlops _analyze_expr gt loop nest trace (SOther nid written read) σ
      = Some (trace, σ')
    ∧ ∀ u t, u ∈ written → OrderedDict.get trace u = Some t →
        (∃ l1 l2, readby (view σ' t) = readby (view σ t) ++ l1 ++ [t_symbol (view σ t)] ++ l2)
        ∧ is_ssa (view σ' t) = false.
Proof.
  intros Hwf.
  set (not_ssa := omap (OrderedDict.get trace) written).
  set (rb t := readby (temporary_at σ t)).
  set (sym t := t_symbol (temporary_at σ t)).
  cut (wp (_analyze_node EstimateFlops _analyze_expr gt loop nest trace
             (SOther nid written read))
         (λ tr σ', tr = trace ∧ temporaries σ' = temporaries σ ∧
            ∀ t, t ∈ not_ssa →
              ∃ l1 l2, list_at σ' (rb t) = list_at σ (rb t) ++ l1 ++ [sym t] ++ l2) σ).
  { intros (tr & σ' & Hrun & -> & Ht & Hall). exists σ'. split; [done|].
    intros u t Hu Hget.
    destruct (Hall t) as (l1 & l2 & Hl).
    { apply list_elem_of_omap. eauto. }
    assert (temporary_at σ' t = temporary_at σ t) as Heq
      by (unfold temporary_at; by rewrite Ht).
    assert (readby (view σ' t) = readby (view σ t) ++ l1 ++ [t_symbol (view σ t)] ++ l2)
      as Hrb.
    { unfold view. simpl. rewrite Heq. exact Hl. }
    split; [by exists l1, l2|].
    unfold is_ssa. rewrite py_in_elem_of; [done|]. rewrite Hrb.
    assert (t_symbol (view σ' t) = t_symbol (view σ t)) as ->.
    { unfold t_symbol, view. simpl. by rewrite Heq. }
    rewrite !elem_of_app. right. right. left. by left. }
  unfold _analyze_node. simpl in_written. fold not_ssa.
  apply wp_bind.
  apply (wp_foldM (λ _ rest σ', temporaries σ' = temporaries σ
            ∧ length (lists σ') = length (lists σ)
            ∧ (∀ ℓ, ∃ l, list_at σ' ℓ = list_at σ ℓ ++ l)
            ∧ (∀ t, t ∈ rest → t ∈ not_ssa)
            ∧ ∀ t, t ∈ not_ssa → t ∈ rest ∨
                ∃ l1 l2, list_at σ' (rb t) = list_at σ (rb t) ++ l1 ++ [sym t] ++ l2)).
  - split_and!; auto. intros ℓ. exists []. by rewrite app_nil_r.
  - intros _ b rest σ' (Ht & Hlen & Hgrow & Hsub & Hdone).
    apply wp_bind, wp_get_temporary, wp_readby_append. intros σ'' Ht' Hl' Hd'.
    assert (temporary_at σ' b = temporary_at σ b) as Heq
      by (unfold temporary_at; by rewrite Ht).
    rewrite Heq in *. fold (rb b) (sym b) in Hl'.
    assert (rb b < length (lists σ')) as Hvalid.
    { rewrite Hlen. assert (b ∈ not_ssa) as Hb by (apply Hsub; by left).
      apply list_elem_of_omap in Hb as (u & _ & Hu). by eapply Hwf. }
    split_and!.
    + by rewrite Ht'.
    + by rewrite Hl', length_alter.
    + intros ℓ. rewrite (list_at_alter σ' σ'' _ _ ℓ Hl'). case_decide as Hc.
      * destruct Hc as [<- _]. destruct (Hgrow (rb b)) as [l ->].
        exists (l ++ [sym b]). by rewrite app_assoc.
      * apply Hgrow.
    + intros t Ht0. apply Hsub. by right.
    + intros t Ht0. rewrite (list_at_alter σ' σ'' _ _ (rb t) Hl').
      destruct (Hdone t Ht0) as [[->|Hin]%elem_of_cons|(l1 & l2 & Hl)].
      * right. rewrite decide_True by done. destruct (Hgrow (rb b)) as [l ->].
        exists l, []. by rewrite <-!app_assoc.
      * by left.
      * right. case_decide as Hc.
        -- destruct Hc as [Heqb _]. rewrite Heqb, Hl. exists l1, (l2 ++ [sym b]).
           by rewrite <-!app_assoc.
        -- eauto.
  - intros _ σ' (Ht & Hlen & Hgrow & Hsub & Hdone). apply wp_ret.
    split_and!; [done..|]. intros t Ht0.
    destruct (Hdone t Ht0) as [?%elem_of_nil|?]; done.
Qed.
End tracer_escape.
Section tracer_snapshot.
Context (EstimateFlops : TNode → Z).

Lemma view_ext σ σ' r :
  temporary_at σ' r = temporary_at σ r →
  list_at σ' (readby (temporary_at σ r)) = list_at σ (readby (temporary_at σ r)) →
  list_at σ' (reads (temporary_at σ r)) = list_at σ (reads (temporary_at σ r)) →
  dict_at σ' (linear_reads_costs (temporary_at σ r))
    = dict_at σ (linear_reads_costs (temporary_at σ r)) →
  view σ' r = view σ r.
Proof. intros Ht Hrb Hrd Hlc. unfold view. rewrite Ht, Hrb, Hrd, Hlc. done. Qed.

Lemma temporary_at_alter σ σ' f r q :
  temporaries σ' = alter f r (temporaries σ) →
  temporary_at σ' q =
    if decide (r = q ∧ r < length (temporaries σ)) then f (temporary_at σ r)
    else temporary_at σ q.
Proof. intros Hl. unfold temporary_at. rewrite Hl. apply default_lookup_alter. Qed.

Lemma dict_at_alter σ σ' f r ℓ :
  dicts σ' = alter f r (dicts σ) →
  dict_at σ' ℓ = if decide (r = ℓ ∧ r < length (dicts σ)) then f (dict_at σ r) else dict_at σ ℓ.
Proof. intros Hl. unfold dict_at. rewrite Hl. apply default_lookup_alter. Qed.

(** The temporary at [c] shares no list or dictionary with the one at [g],
    whose objects all exist. *)
Definition separated (c g : loc) (σ : Store) : Prop :=
  let tc := temporary_at σ c in
  let tg := temporary_at σ g in
  c ≠ g ∧ g < length (temporaries σ)
  ∧ readby tg < length (lists σ) ∧ reads tg < length (lists σ)
  ∧ linear_reads_costs tg < length (dicts σ)
  ∧ readby tc ≠ readby tg ∧ readby tc ≠ reads tg
  ∧ reads tc ≠ readby tg ∧ reads tc ≠ reads tg
  ∧ linear_reads_costs tc ≠ linear_reads_costs tg.

(** After an allocation and an assignment to an attribute of [c]: what the
    objects at [g] and [c] are, in terms of the store before. *)
Ltac after_bind σ σ1 c g Ht1 Ht Hgt Hct :=
  pose proof (temporary_at_alter _ _ _ _ g Ht) as Hgt;
  pose proof (temporary_at_alter _ _ _ _ c Ht) as Hct;
  rewrite decide_False in Hgt by tauto;
  replace (temporary_at σ1 g) with (temporary_at σ g) in Hgt
    by (unfold temporary_at; by rewrite Ht1);
  replace (temporary_at σ1 c) with (temporary_at σ c) in Hct
    by (unfold temporary_at; by rewrite Ht1).

(** After a change in place: the temporaries are those of the store before. *)
Ltac same_temporaries σ σ' Ht Hsame :=
  assert (∀ q, temporary_at σ' q = temporary_at σ q) as Hsame
    by (intros q; unfold temporary_at; by rewrite Ht).

Lemma mutate_separated c g m σ :
  separated c g σ →
  wp (mutate c m) (λ _ σ', separated c g σ' ∧ view σ' g = view σ g) σ.
Proof.
  intros (Hcg & Hg & Hrb & Hrd & Hlc & H1 & H2 & H3 & H4 & H5).
  destruct m as [z|l|l|d|f|f|f]; simpl.
  - apply wp_set_level. intros σ' Ht Hl Hd.
    pose proof (temporary_at_alter _ _ _ _ g Ht) as Hgt.
    pose proof (temporary_at_alter _ _ _ _ c Ht) as Hct.
    rewrite decide_False in Hgt by tauto.
    split.
    + unfold separated. rewrite Hgt, Hl, Hd, Ht, length_alter.
      case_decide; rewrite Hct; simpl; by split_and!.
    + apply view_ext; unfold list_at, dict_at; by rewrite ?Hl, ?Hd.
  - apply wp_bind, wp_alloc_list. intros σ1 Ht1 Hl1 Hd1.
    apply wp_alter_temporary. intros σ' Ht Hl Hd. after_bind σ σ1 c g Ht1 Ht Hgt Hct.
    assert (lists σ `prefix_of` lists σ') as Hp.
    { rewrite Hl, Hl1. by apply prefix_app_r. }
    pose proof (prefix_length _ _ Hp) as Hlen.
    split.
    + unfold separated. rewrite Hgt, Hd, Hd1, Ht, length_alter, Ht1.
      case_decide; rewrite Hct; simpl; split_and!; try done; lia.
    + apply view_ext; [done|by apply list_at_prefix..|].
      unfold dict_at. by rewrite Hd, Hd1.
  - apply wp_bind, wp_alloc_list. intros σ1 Ht1 Hl1 Hd1.
    apply wp_alter_temporary. intros σ' Ht Hl Hd. after_bind σ σ1 c g Ht1 Ht Hgt Hct.
    assert (lists σ `prefix_of` lists σ') as Hp.
    { rewrite Hl, Hl1. by apply prefix_app_r. }
    pose proof (prefix_length _ _ Hp) as Hlen.
    split.
    + unfold separated. rewrite Hgt, Hd, Hd1, Ht, length_alter, Ht1.
      case_decide; rewrite Hct; simpl; split_and!; try done; lia.
    + apply view_ext; [done|by apply list_at_prefix..|].
      unfold dict_at. by rewrite Hd, Hd1.
  - apply wp_bind, wp_alloc_dict. intros σ1 Ht1 Hl1 Hd1.
    apply wp_alter_temporary. intros σ' Ht Hl Hd. after_bind σ σ1 c g Ht1 Ht Hgt Hct.
    assert (dicts σ `prefix_of` dicts σ') as Hp.
    { rewrite Hd, Hd1. by apply prefix_app_r. }
    pose proof (prefix_length _ _ Hp) as Hlen.
    split.
    + unfold separated. rewrite Hgt, Hl, Hl1, Ht, length_alter, Ht1.
      case_decide; rewrite Hct; simpl; split_and!; try done; lia.
    + apply view_ext; [done| | |by apply dict_at_prefix];
        unfold list_at; by rewrite Hl, Hl1.
  - apply wp_bind, wp_get_temporary, wp_alter_list. intros σ' Ht Hl Hd.
    same_temporaries σ σ' Ht Hsame. split.
    + unfold separated. rewrite !Hsame, Ht, Hl, Hd, length_alter. by split_and!.
    + apply view_ext; [done| | |unfold dict_at; by rewrite Hd];
        rewrite (list_at_alter _ _ _ _ _ Hl); (rewrite decide_False; [done|tauto]).
  - apply wp_bind, wp_get_temporary, wp_alter_list. intros σ' Ht Hl Hd.
    same_temporaries σ σ' Ht Hsame. split.
    + unfold separated. rewrite !Hsame, Ht, Hl, Hd, length_alter. by split_and!.
    + apply view_ext; [done| | |unfold dict_at; by rewrite Hd];
        rewrite (list_at_alter _ _ _ _ _ Hl); (rewrite decide_False; [done|tauto]).
  - apply wp_bind, wp_get_temporary, wp_alter_dict. intros σ' Ht Hl Hd.
    same_temporaries σ σ' Ht Hsame. split.
    + unfold separated. rewrite !Hsame, Ht, Hl, Hd, length_alter. by split_and!.
    + apply view_ext; [done|unfold list_at; by rewrite Hl..|].
      rewrite (dict_at_alter _ _ _ _ _ Hd). rewrite decide_False; [done|tauto].
Qed.

Lemma mutations_separated c g ms σ :
  separated c g σ →
  wp (foldM (λ _ m, mutate c m) tt ms) (λ _ σ', view σ' g = view σ g) σ.
Proof.
  intros Hsep.
  apply (wp_foldM (λ _ _ σ', separated c g σ' ∧ view σ' g = view σ g)).
  - done.
  - intros _ m _ σ' [Hsep' Hview]. eapply wp_mono; [by apply mutate_separated|].
    simpl. intros _ σ'' [? ->]. done.
  - intros _ σ' [_ ?]. done.
Qed.

(** C9: when a linear read of a write statement is in the global trace,
    the write target is appended to the [readby] of the global temporary,
    and the trace of the loop receives a reconstructed copy, another
    object, whose level is -1 and whose other attributes are those of the
    global temporary; whatever is then done to the level, [reads], [readby]
    or [linear_reads_costs] of the copy, by assignment or in place, the
    global temporary reads the same. *)
Theorem snapshot_independent gt lp ns target trace s g σ :
  OrderedDict.get gt (urepr s) = Some g →
  allocated σ g →
  ∃ c σ',
    trace_linear_read EstimateFlops gt lp ns target trace s σ
      = Some (OrderedDict.set trace (urepr s) c, σ')
    ∧ view σ' g = with_reader (view σ g) target
    ∧ c ≠ g
    ∧ view σ' c = level_reset_copy EstimateFlops (view σ' g)
    ∧ ∀ ms : list Mutation, ∃ σ'',
        foldM (λ _ m, mutate c m) tt ms σ' = Some (tt, σ'')
        ∧ view σ'' g = view σ' g.
Proof.
  intros Hg (Hgv & Hrb & Hrd & Hlc & Hne).
  set (tg := temporary_at σ g) in *.
  cut (wp (trace_linear_read EstimateFlops gt lp ns target trace s)
         (λ tr σ', ∃ c, tr = OrderedDict.set trace (urepr s) c
            ∧ view σ' g = with_reader (view σ g) target
            ∧ view σ' c = level_reset_copy EstimateFlops (view σ' g)
            ∧ separated c g σ') σ).
  { intros (tr & σ' & Hrun & c & -> & Hvg & Hvc & Hsep). exists c, σ'.
    split_and!; [done|done|apply Hsep|done|].
    intros ms. destruct (mutations_separated c g ms σ' Hsep) as ([] & σ'' & ? & ?).
    by exists σ''. }
  unfold trace_linear_read. rewrite Hg.
  apply wp_bind, wp_readby_append. fold tg. intros σ1 Ht1 Hl1 Hd1.
  assert (∀ q, temporary_at σ1 q = temporary_at σ q) as Hsame1
    by (intros q; unfold temporary_at; by rewrite Ht1).
  apply wp_bind, wp_reconstruct. rewrite (Hsame1 g). fold tg.
  intros σ2 tc Ht2 Hl2 Hd2 Hlevel Hpushed Hnode Hloop Hnest Hflops
    Hrbc Hrdc Hrbrd Hlcc Hrbv Hrdv Hlcv.
  apply wp_bind, wp_set_level. intros σ3 Ht3 Hl3 Hd3. apply wp_ret.
  rewrite Ht2, Ht1, alter_snoc in Ht3. simpl in Ht3.
  assert (length (lists σ1) = length (lists σ)) as Hlen1 by by rewrite Hl1, length_alter.
  rewrite Hlen1, Hd1 in *.
  pose proof (prefix_length _ _ Hl2) as Hlen2.
  pose proof (prefix_length _ _ Hd2) as Hdlen2.
  assert (temporary_at σ3 g = tg) as Hg3.
  { unfold temporary_at. rewrite Ht3. by rewrite lookup_app_l. }
  assert (temporary_at σ3 (length (temporaries σ)) =
    mkTemporary (-1) (pushed tc) (readby tc) (node tc) (main_loop tc) (nest tc)
      (reads tc) (linear_reads_costs tc) (flops tc)) as Hc3.
  { unfold temporary_at. by rewrite Ht3, default_lookup_snoc. }
  assert (∀ ℓ, ℓ < length (lists σ) → list_at σ3 ℓ = list_at σ1 ℓ) as Hlist3.
  { intros ℓ Hℓ. unfold list_at at 1. rewrite Hl3. apply list_at_prefix; [done|lia]. }
  assert (∀ ℓ, list_at σ3 ℓ = list_at σ2 ℓ) as Hlist32
    by (intros; unfold list_at; by rewrite Hl3).
  assert (∀ ℓ, dict_at σ3 ℓ = dict_at σ2 ℓ) as Hdict32
    by (intros; unfold dict_at; by rewrite Hd3).
  assert (list_at σ1 (readby tg) = list_at σ (readby tg) ++ [target]) as Hrb1.
  { rewrite (list_at_alter _ _ _ _ _ Hl1). by rewrite decide_True. }
  assert (list_at σ1 (reads tg) = list_at σ (reads tg)) as Hrd1.
  { rewrite (list_at_alter _ _ _ _ _ Hl1). rewrite decide_False; [done|tauto]. }
  assert (dict_at σ1 (linear_reads_costs tg) = dict_at σ (linear_reads_costs tg)) as Hlc1
    by (unfold dict_at; by rewrite Hd1).
  assert (view σ3 g = with_reader (view σ g) target) as Hview.
  { unfold view, with_reader. simpl. rewrite Hg3. fold tg.
    rewrite !Hlist3, Hrb1, Hrd1 by done. rewrite Hdict32.
    rewrite (dict_at_prefix σ1 σ2), Hlc1 by (rewrite ?Hd1; done). reflexivity. }
  exists (length (temporaries σ)). split_and!.
  - by rewrite Ht1.
  - done.
  - rewrite Hview. unfold view at 1. rewrite Hc3. simpl.
    unfold level_reset_copy, with_reader, view. simpl. fold tg.
    rewrite Hpushed, Hnode, Hloop, Hnest, !Hlist32, Hdict32, Hrbv, Hrdv, Hlcv, Hrb1, Hrd1, Hlc1
      by lia. by rewrite Hflops.
  - unfold separated. rewrite Hg3, Hc3, Hl3, Hd3, Ht3, length_app. simpl.
    split_and!; lia.
Qed.
End tracer_snapshot.

Section wf_checks.
Lemma get_elem_of (trace : Trace) u q :
  OrderedDict.get trace u = Some q → (u, q) ∈ trace.
Proof.
  induction trace as [|[k v] trace IH]; simpl; [done|].
  case_decide as Hk.
  - intros [= ->]. subst. by left.
  - intros Hq. right. auto.
Qed.

Lemma trace_wf_Forall σ (trace : Trace) :
  Forall (λ kv, kv.2 < length (temporaries σ)) trace → trace_wf σ trace.
Proof.
  intros Hall u q Hq%get_elem_of. rewrite list.Forall_forall in Hall.
  exact (Hall (u, q) Hq).
Qed.

Lemma readby_wf_Forall σ (trace : Trace) :
  Forall (λ kv, readby (temporary_at σ kv.2) < length (lists σ)) trace →
  readby_wf σ trace.
Proof.
  intros Hall u q Hq%get_elem_of. rewrite list.Forall_forall in Hall.
  exact (Hall (u, q) Hq).
Qed.
End wf_checks.

Lemma level_without_linear_reads_counterexample :
  ∃ trace' σ' r,
    _analyze_node flops_of analysis [] loop_j nest_j trace_w1 (SWriter w3) store_w1
      = Some (trace', σ')
    ∧ OrderedDict.get trace' (urepr (lvalue w3)) = Some r
    ∧ (analysis (rvalue w3)).2 = []
    ∧ level (temporary_at σ' r) ≠ 0%Z.
Proof. eexists _, _, _. split_and!; [vm_compute; reflexivity..|vm_compute; discriminate]. Qed.

Lemma new_temporary_level_witness :
  trace_wf store_w1 trace_w1 ∧
  ∃ rd lc trace1 σ1 r σ',
    trace_reads flops_of analysis [] loop_j nest_j w2 trace_w1 store_w1
      = Some ((rd, lc, trace1), σ1)
    ∧ _analyze_node flops_of analysis [] loop_j nest_j trace_w1 (SWriter w2) store_w1
      = Some (OrderedDict.set trace1 (urepr (lvalue w2)) r, σ')
    ∧ node (temporary_at σ' r) = TWriter w2
    ∧ dict_at σ' (linear_reads_costs (temporary_at σ' r)) = (analysis (rvalue w2)).2
    ∧ (∀ s, s ∈ (analysis (rvalue w2)).2.*1 →
        ∃ z, level_in σ1 trace1 s = Some z ∧ (1 + z ≤ level (temporary_at σ' r))%Z)
    ∧ ((analysis (rvalue w2)).2 ≠ [] →
        ∃ s z, s ∈ (analysis (rvalue w2)).2.*1 ∧ level_in σ1 trace1 s = Some z
               ∧ level (temporary_at σ' r) = (1 + z)%Z)
    ∧ ((analysis (rvalue w2)).2 = [] → level (temporary_at σ' r) = (-1)%Z).
Proof.
  assert (trace_wf store_w1 trace_w1) as Hwf.
  { apply trace_wf_Forall. vm_compute. repeat constructor. }
  split; [exact Hwf|].
  exact (new_temporary_level flops_of analysis [] loop_j nest_j trace_w1 w2 store_w1 Hwf).
Defined.

Lemma read_only_statement_counterexample :
  ∃ t σ',
    OrderedDict.get trace_w1 (urepr sT) = Some t
    ∧ urepr sT ∈ in_read reads_T
    ∧ _analyze_node flops_of analysis [] loop_j nest_j trace_w1 reads_T store_w1
        = Some (trace_w1, σ')
    ∧ readby (view σ' t) = readby (view store_w1 t)
    ∧ @is_ssa same_urepr (view σ' t) = true.
Proof.
  eexists _, _. split_and!; [vm_compute; reflexivity|by left|vm_compute; reflexivity..].
Qed.

Lemma written_temporary_not_ssa_witness :
  readby_wf store_w1 trace_w1 ∧
  ∃ σ',
    _analyze_node flops_of analysis [] loop_j nest_j trace_w1 writes_T store_w1
      = Some (trace_w1, σ')
    ∧ ∀ u t, u ∈ [urepr sT] → OrderedDict.get trace_w1 u = Some t →
        (∃ l1 l2, readby (view σ' t)
                  = readby (view store_w1 t) ++ l1 ++ [t_symbol (view store_w1 t)] ++ l2)
        ∧ @is_ssa same_urepr (view σ' t) = false.
Proof.
  assert (readby_wf store_w1 trace_w1) as Hwf.
  { apply readby_wf_Forall. vm_compute. repeat constructor. }
  split; [exact Hwf|].
  exact (written_temporary_not_ssa flops_of analysis (H:=same_urepr) [] loop_j nest_j trace_w1
           14 [urepr sT] [] store_w1 Hwf).
Defined.

Lemma snapshot_independent_witness :
  OrderedDict.get trace_w1 (urepr sT') = Some 2
  ∧ allocated store_w1 2
  ∧ ∃ c σ',
      trace_linear_read flops_of trace_w1 loop_j nest_j sR [] sT' store_w1
        = Some (OrderedDict.set [] (urepr sT') c, σ')
      ∧ view σ' 2 = with_reader (view store_w1 2) sR
      ∧ c ≠ 2
      ∧ view σ' c = level_reset_copy flops_of (view σ' 2)
      ∧ ∀ ms : list Mutation, ∃ σ'',
          foldM (λ _ m, mutate c m) tt ms σ' = Some (tt, σ'')
          ∧ view σ'' 2 = view σ' 2.
Proof.
  assert (OrderedDict.get trace_w1 (urepr sT') = Some 2) as Hg by (vm_compute; reflexivity).
  assert (allocated store_w1 2) as Hal by (vm_compute; repeat split; lia).
  split_and!; [exact Hg|exact Hal|].
  exact (snapshot_independent flops_of trace_w1 loop_j nest_j sR [] sT' 2 store_w1 Hg Hal).
Defined.
(** ** The cost model: what [_cost_cse] computes *)
Section cost_cse_facts.
Local Open Scope Z_scope.

(** [levels[i]] as a value: the list under [i], or the empty list. *)
Definition levels_at (d : LevelDict) (i : Z) : list Temporary :=
  default [] (OrderedDict.get (items d) i).

(** The dictionaries [d] and [d'] hold the same temporaries at every level. *)
Definition same_levels (d d' : LevelDict) : Prop :=
  default_factory d' = default_factory d ∧ ∀ i, levels_at d' i = levels_at d i.

Lemma same_levels_refl d : same_levels d d.
Proof. by split. Qed.

Lemma same_levels_trans d1 d2 d3 :
  same_levels d1 d2 → same_levels d2 d3 → same_levels d1 d3.
Proof. intros [H1 H2] [H3 H4]. split; [congruence|]. intros i. by rewrite H4. Qed.

Lemma getitem_default d i :
  default_factory d = true →
  ∃ d', getitem d i = Some (levels_at d i, d') ∧ same_levels d d'.
Proof.
  intros Hd. unfold getitem, levels_at.
  destruct (OrderedDict.get (items d) i) as [v|] eqn:Hget; simpl.
  - exists d. split; [done|apply same_levels_refl].
  - rewrite Hd. eexists. split; [done|]. split; [done|].
    intros j. unfold levels_at. simpl. rewrite OrderedDict.get_set.
    case_decide; [subst; by rewrite Hget|done].
Qed.

Lemma restrict_default d l :
  default_factory d = true →
  ∃ d', restrict d l = Some ((λ i, (i, levels_at d i)) <$> l, d') ∧ same_levels d d'.
Proof.
  revert d. induction l as [|i l IH]; intros d Hd; simpl.
  - exists d. split; [done|apply same_levels_refl].
  - destruct (getitem_default d i Hd) as (d1 & -> & Hs1). simpl.
    destruct (IH d1) as (d2 & -> & Hs2); [by rewrite (proj1 Hs1)|]. simpl.
    exists d2. split; [|by eapply same_levels_trans].
    f_equal. f_equal. f_equal. apply list_fmap_ext. intros _ j _. simpl. f_equal. apply Hs1.
Qed.

(** The cost of leaving the levels of [l] materialized. *)
Definition levels_cost (d : LevelDict) (l : list Z) : Z :=
  foldr (λ i c, materialized_cost (levels_at d i) + c) 0 l.

Lemma foldl_cost_shift {A} (f : A → Z) (l : list A) (x : Z) :
  foldl (λ cost a, cost + f a) x l = x + foldr (λ a c, f a + c) 0 l.
Proof.
  revert x. induction l as [|a l IH]; intros x; simpl; [lia|]. rewrite IH. lia.
Qed.

Lemma levels_cost_app d l1 l2 :
  levels_cost d (l1 ++ l2) = levels_cost d l1 + levels_cost d l2.
Proof. unfold levels_cost. induction l1 as [|i l1 IH]; simpl; [done|]. rewrite IH. lia. Qed.

Lemma levels_cost_same d d' l : same_levels d d' → levels_cost d' l = levels_cost d l.
Proof.
  intros [_ Hs]. unfold levels_cost. induction l as [|i l IH]; simpl; [done|].
  by rewrite IH, Hs.
Qed.

Lemma cost_cse_default d a b :
  default_factory d = true →
  ∃ d', _cost_cse d (Some (a, b)) = Some (levels_cost d (range a (b + 1)), d')
        ∧ same_levels d d'.
Proof.
  intros Hd. unfold _cost_cse.
  destruct (restrict_default d (range a (b + 1)) Hd) as (d' & -> & Hs). simpl.
  exists d'. split; [|done]. do 2 f_equal.
  rewrite (foldl_cost_shift (λ lt : Z * list Temporary, materialized_cost lt.2)).
  unfold levels_cost. generalize (range a (b + 1)). intros l. rewrite Z.add_0_l.
  induction l as [|i l IH]; [done|]. rewrite fmap_cons. simpl. by rewrite IH.
Qed.

Lemma range_split a b c : a ≤ b → b < c → range a (c + 1) = range a (b + 1) ++ range (b + 1) (c + 1).
Proof.
  intros Hab Hbc. unfold range.
  replace (c + 1 - a) with ((b + 1 - a) + (c + 1 - (b + 1))) by lia.
  rewrite seqZ_app by lia. do 2 f_equal; lia.
Qed.

Lemma group_by_level_default trace : default_factory (_group_by_level trace) = true.
Proof.
  unfold _group_by_level. generalize (OrderedDict.values trace). intros l.
  assert (default_factory (mkLevelDict true []) = true) as Hd by done.
  revert Hd. generalize (mkLevelDict true []). induction l as [|t l IH]; intros d Hd; simpl.
  - done.
  - apply IH. destruct (getitem d (level t)) as [[v d']|]; done.
Qed.

(** C8: for the level grouping of a trace and integers [a <= b < c], the
    cost of the levels [a..c] is the cost of [a..b] plus the cost of
    [b+1..c]; this holds for the three calls made on the grouping itself
    and for the calls made one after the other on what the previous call
    left. *)
Theorem cost_cse_additive (trace : odict Urepr Temporary) (a b c : Z) :
  a ≤ b → b < c →
  ∃ x y z l1 l2 l3 l2' l3',
    _cost_cse (_group_by_level trace) (Some (a, c)) = Some (x, l1)
    ∧ _cost_cse (_group_by_level trace) (Some (a, b)) = Some (y, l2)
    ∧ _cost_cse (_group_by_level trace) (Some (b + 1, c)) = Some (z, l3)
    ∧ x = y + z
    ∧ _cost_cse l1 (Some (a, b)) = Some (y, l2')
    ∧ _cost_cse l2' (Some (b + 1, c)) = Some (z, l3').
Proof.
  intros Hab Hbc.
  pose proof (group_by_level_default trace) as Hd.
  set (levels := _group_by_level trace) in *.
  destruct (cost_cse_default levels a c Hd) as (l1 & H1 & Hs1).
  destruct (cost_cse_default levels a b Hd) as (l2 & H2 & Hs2).
  destruct (cost_cse_default levels (b + 1) c Hd) as (l3 & H3 & Hs3).
  destruct (cost_cse_default l1 a b) as (l2' & H2' & Hs2'); [by rewrite (proj1 Hs1)|].
  destruct (cost_cse_default l2' (b + 1) c) as (l3' & H3' & Hs3').
  { by rewrite (proj1 Hs2'), (proj1 Hs1). }
  eexists _, _, _, l1, l2, l3, l2', l3'. split_and!; [done..| | |].
  - rewrite (range_split a b c) by done. apply levels_cost_app.
  - rewrite H2'. by rewrite (levels_cost_same levels l1).
  - rewrite H3'. rewrite (levels_cost_same l1 l2') by done.
    by rewrite (levels_cost_same levels l1).
Qed.
End cost_cse_facts.

Lemma cost_cse_additive_witness :
  (-1 ≤ 0)%Z ∧ (0 < 1)%Z ∧
  ∃ x y z l1 l2 l3 l2' l3',
    _cost_cse (_group_by_level (trace_view store_w1 trace_w1)) (Some (-1, 1)%Z) = Some (x, l1)
    ∧ _cost_cse (_group_by_level (trace_view store_w1 trace_w1)) (Some (-1, 0)%Z) = Some (y, l2)
    ∧ _cost_cse (_group_by_level (trace_view store_w1 trace_w1)) (Some (0 + 1, 1)%Z) = Some (z, l3)
    ∧ x = (y + z)%Z
    ∧ _cost_cse l1 (Some (-1, 0)%Z) = Some (y, l2')
    ∧ _cost_cse l2' (Some (0 + 1, 1)%Z) = Some (z, l3').
Proof.
  split; [lia|]. split; [lia|].
  apply (cost_cse_additive (trace_view store_w1 trace_w1) (-1) 0 1); lia.
Defined.
(** ** The cost model: what a temporary adds in [_cost_fact] *)
Section cost_fact_facts.
Local Open Scope Z_scope.

(** The operands that the linear read [read] of a temporary stands for in
    the working trace: the linear reads of its copy, or itself. *)
Definition operands_of_read (nt : odict Urepr Copy) (read : Symbol) : list LinKey :=
  match OrderedDict.get nt (urepr read) with
  | Some r => if linear_reads_of r is [] then [KUrepr (urepr read)] else linear_reads_of r
  | None => [KUrepr (urepr read)]
  end.

(** All the operands of [t], with repetitions. *)
Definition operands (nt : odict Urepr Copy) (t : Temporary) : list LinKey :=
  (linear_reads_costs t).*1 ≫= operands_of_read nt.

(** The distinct operands of [t]. *)
Definition distinct_operands (nt : odict Urepr Copy) (t : Temporary) : list Urepr :=
  remove_dups (key_urepr <$> operands nt t).

(** The sum, over the linear reads of [t] that are in the working trace, of
    the read's [project] times its cost in [t]. *)
Definition traced_products (nt : odict Urepr Copy) (t : Temporary) : Z :=
  foldr (λ rc acc, match OrderedDict.get nt (urepr rc.1) with
                   | Some r => project r * rc.2
                   | None => 0
                   end + acc) 0 (linear_reads_costs t).

Lemma trace_operand_fold nt (l : list (Symbol * Z)) (ops : list LinKey) (c : Z) :
  foldl (trace_operand nt) (ops, c) l =
  (ops ++ (l.*1 ≫= operands_of_read nt),
   c + foldr (λ rc acc, match OrderedDict.get nt (urepr rc.1) with
                        | Some r => project r * rc.2
                        | None => 0
                        end + acc) 0 l).
Proof.
  revert ops c. induction l as [|[read cost] l IH]; intros ops c.
  - simpl. rewrite app_nil_r. f_equal. lia.
  - cbn [foldl]. rewrite fmap_cons, bind_cons. cbn [foldr fst snd].
    assert (trace_operand nt (ops, c) (read, cost) =
            (ops ++ operands_of_read nt read,
             c + match OrderedDict.get nt (urepr read) with
                 | Some r => project r * cost
                 | None => 0
                 end)) as ->.
    { unfold trace_operand, operands_of_read.
      destruct (OrderedDict.get nt (urepr read)); [done|]. f_equal. lia. }
    rewrite IH. f_equal; [by rewrite app_assoc|lia].
Qed.

(** C2, as amended: for a temporary [t] whose copy is in the working
    trace, with [n] the number of distinct operands that its linear reads
    trace to, the outer-loop cost grows by (the sum over the traced linear
    reads of [project] times cost, plus the number of operands minus [n])
    times [niters_after_licm], the inner-loop cost grows by [2n - 1] times
    [niters], and the copy of [t] is left with the [n] operands at cost 1. *)
Theorem fact_temporary_costs (st : FactState) (t : Temporary) :
  is_Some (OrderedDict.get (new_trace st) (t_urepr t)) →
  ∃ st',
    fact_temporary st t = Some st'
    ∧ NoDup (distinct_operands (new_trace st) t)
    ∧ (∀ u, u ∈ distinct_operands (new_trace st) t ↔
            ∃ k, k ∈ operands (new_trace st) t ∧ key_urepr k = u)
    ∧ total_outloop_cost st' = total_outloop_cost st +
        (traced_products (new_trace st) t
         + (Z.of_nat (length (operands (new_trace st) t))
            - Z.of_nat (length (distinct_operands (new_trace st) t))))
        * niters_after_licm t
    ∧ level_inloop_cost st' = level_inloop_cost st +
        (2 * Z.of_nat (length (distinct_operands (new_trace st) t)) - 1) * niters t
    ∧ linear_reads_costs <$> OrderedDict.get (new_trace st') (t_urepr t)
      = Some ((λ u, (KUrepr u, 1)) <$> distinct_operands (new_trace st) t).
Proof.
  intros [c Hc]. unfold fact_temporary.
  rewrite trace_operand_fold. simpl. rewrite Hc. simpl.
  eexists. split; [done|]. simpl. split_and!.
  - apply NoDup_remove_dups.
  - intros u. unfold distinct_operands. rewrite elem_of_remove_dups, list_elem_of_fmap.
    split; intros (k & ? & ?); eauto.
  - done.
  - unfold distinct_operands, operands. lia.
  - by rewrite OrderedDict.get_set_eq.
Qed.
End cost_fact_facts.

Lemma fact_temporary_costs_witness :
  is_Some (OrderedDict.get copies (t_urepr temporary_R)) ∧
  ∃ st',
    fact_temporary (mkFactState copies 0 0) temporary_R = Some st'
    ∧ NoDup (distinct_operands copies temporary_R)
    ∧ (∀ u, u ∈ distinct_operands copies temporary_R ↔
            ∃ k, k ∈ operands copies temporary_R ∧ key_urepr k = u)
    ∧ total_outloop_cost st' = (0 +
        (traced_products copies temporary_R
         + (Z.of_nat (length (operands copies temporary_R))
            - Z.of_nat (length (distinct_operands copies temporary_R))))
        * niters_after_licm temporary_R)%Z
    ∧ level_inloop_cost st' = (0 +
        (2 * Z.of_nat (length (distinct_operands copies temporary_R)) - 1)
        * niters temporary_R)%Z
    ∧ linear_reads_costs <$> OrderedDict.get (new_trace st') (t_urepr temporary_R)
      = Some ((λ u, (KUrepr u, 1%Z)) <$> distinct_operands copies temporary_R).
Proof.
  assert (is_Some (OrderedDict.get copies (t_urepr temporary_R))) as Hin
    by (vm_compute; eauto).
  split; [exact Hin|].
  exact (fact_temporary_costs (mkFactState copies 0 0) temporary_R Hin).
Defined.

(** The outer-loop cost that [R] adds is not the number of repeated operands
    times the post-hoist iteration count: the products hoisted with the
    operands of [T] are counted too. *)
Lemma outloop_cost_counterexample :
  ∃ st',
    fact_temporary (mkFactState copies 0 0) temporary_R = Some st'
    ∧ (Z.of_nat (length (operands copies temporary_R))
       - Z.of_nat (length (distinct_operands copies temporary_R)))%Z = 1%Z
    ∧ niters_after_licm temporary_R = 3%Z
    ∧ total_outloop_cost st' = 9%Z
    ∧ (total_outloop_cost st' - 0)%Z ≠
        ((Z.of_nat (length (operands copies temporary_R))
          - Z.of_nat (length (distinct_operands copies temporary_R)))
         * niters_after_licm temporary_R)%Z.
Proof.
  eexists. split_and!; [vm_compute; reflexivity..|vm_compute; discriminate].
Qed.
(** ** Pushability *)
Section push_facts.
Context `{SymbolEq}.
Context (decls : gmap string nat) (ra : nat → option (list nat)).

(** The declaration of [s] is visible in the block [l]. *)
Definition visible (s : Symbol) (l : nat) : Prop :=
  ∃ d scopes, decls !! symbol s = Some d ∧ ra d = Some scopes ∧ l ∈ scopes.

Lemma any_not_visible_false s blocks :
  any_not_visible decls ra s blocks = Some false ↔ ∀ l, l ∈ blocks → visible s l.
Proof.
  induction blocks as [|l blocks IH]; simpl.
  - split; [|done]. by intros _ l ?%elem_of_nil.
  - destruct (decls !! symbol s) as [d|] eqn:Hd; simpl.
    + destruct (ra d) as [scopes|] eqn:Hra; simpl.
      * case_bool_decide as Hl.
        -- rewrite IH. split.
           ++ intros Hall l' [->|Hl']%elem_of_cons; [by exists d, scopes|auto].
           ++ intros Hall l' Hl'. apply Hall. by right.
        -- split; [done|]. intros Hall. destruct (Hall l) as (d' & sc' & Hd' & Hra' & Hin).
           { by left. }
           rewrite Hd in Hd'. injection Hd' as <-. rewrite Hra in Hra'.
           injection Hra' as <-. done.
      * split; [done|]. intros Hall. destruct (Hall l) as (d' & sc' & Hd' & Hra' & _).
        { by left. }
        rewrite Hd in Hd'. injection Hd' as <-. by rewrite Hra in Hra'.
    + split; [done|]. intros Hall. destruct (Hall l) as (d' & sc' & Hd' & _).
      { by left. }
      by rewrite Hd in Hd'.
Qed.

Lemma any_not_visible_declared s blocks :
  (∃ d scopes, decls !! symbol s = Some d ∧ ra d = Some scopes) →
  is_Some (any_not_visible decls ra s blocks).
Proof.
  intros (d & scopes & Hd & Hra). induction blocks as [|l blocks IH]; simpl; [eauto|].
  rewrite Hd. simpl. rewrite Hra. simpl. case_bool_decide; eauto.
Qed.

Lemma reads_accessible_true gt blocks reads :
  reads_accessible decls ra gt blocks reads = Some true ↔
  ∀ s, s ∈ reads → globally_pushed gt s = true ∨ ∀ l, l ∈ blocks → visible s l.
Proof.
  induction reads as [|s reads IH]; simpl.
  - split; [|done]. by intros _ s ?%elem_of_nil.
  - destruct (globally_pushed gt s) eqn:Hp.
    + rewrite IH. split.
      * intros Hall s' [->|Hs']%elem_of_cons; [by left|auto].
      * intros Hall s' Hs'. apply Hall. by right.
    + destruct (any_not_visible decls ra s blocks) as [[]|] eqn:Hv; simpl.
      * split; [done|]. intros Hall. destruct (Hall s) as [Hp'|Hvis]; [by left|congruence|].
        apply (proj2 (any_not_visible_false s blocks)) in Hvis. congruence.
      * rewrite IH. pose proof (proj1 (any_not_visible_false s blocks) Hv) as Hv'. split.
        -- intros Hall s' [->|Hs']%elem_of_cons; [by right|auto].
        -- intros Hall s' Hs'. apply Hall. by right.
      * split; [done|]. intros Hall. destruct (Hall s) as [Hp'|Hvis]; [by left|congruence|].
        apply (proj2 (any_not_visible_false s blocks)) in Hvis. congruence.
Qed.

Lemma reads_accessible_declared gt blocks reads :
  (∀ s, s ∈ reads → ∃ d scopes, decls !! symbol s = Some d ∧ ra d = Some scopes) →
  is_Some (reads_accessible decls ra gt blocks reads).
Proof.
  induction reads as [|s reads IH]; intros Hall; simpl; [eauto|].
  assert (is_Some (reads_accessible decls ra gt blocks reads)) as Hrest.
  { apply IH. intros s' Hs'. apply Hall. by right. }
  destruct (globally_pushed gt s); [done|].
  destruct (any_not_visible_declared s blocks) as [[] ->]; simpl; eauto.
  apply Hall. by left.
Qed.

Lemma is_ssa_true (t : Temporary) :
  is_ssa t = true ↔
  ∀ rb, rb ∈ readby t → oid (t_symbol t) ≠ oid rb ∧ sym_eq (t_symbol t) rb = false.
Proof.
  unfold is_ssa, py_in. rewrite negb_true_iff, <-not_true_iff_false, existsb_exists.
  split.
  - intros Hno rb Hrb. split.
    + intros Heq. apply Hno. exists rb. split; [by apply list_elem_of_In|].
      apply orb_true_iff. left. by apply Nat.eqb_eq.
    + apply not_true_iff_false. intros Heq. apply Hno. exists rb.
      split; [by apply list_elem_of_In|]. apply orb_true_iff. by right.
  - intros Hall (rb & Hrb%list_elem_of_In & [Hid%Nat.eqb_eq|Heq]%orb_true_iff);
      destruct (Hall rb Hrb) as [? ?]; congruence.
Qed.

Lemma elem_of_pushed_in gt (t : Temporary) l :
  l ∈ pushed_in gt t ↔
  ∃ rb g, rb ∈ readby t ∧ OrderedDict.get gt (urepr rb) = Some g ∧ block (main_loop g) = l.
Proof.
  unfold pushed_in. rewrite elem_of_remove_dups, list_elem_of_fmap. split.
  - intros (g & -> & (rb & ? & ?)%list_elem_of_omap). eauto.
  - intros (rb & g & ? & ? & <-). exists g. split; [done|]. apply list_elem_of_omap. eauto.
Qed.

(** C4: [is_pushable] returns [True] exactly when the temporary's symbol
    is not among its readers, it has a reader, its expression is not an
    [ArrayInit], and every symbol it reads is pushed in the global trace or
    has its declaration visible in the body of the main loop of every
    reader found in the global trace.  When every read symbol has a
    declaration known to the reachability relation, [is_pushable] returns. *)
Theorem is_pushable_iff (global_trace : odict Urepr Temporary) (t : Temporary) :
  (is_pushable decls ra global_trace t = Some true ↔
     (∀ rb, rb ∈ readby t → oid (t_symbol t) ≠ oid rb ∧ sym_eq (t_symbol t) rb = false)
     ∧ readby t ≠ []
     ∧ (∀ values, t_expr t ≠ Some (EArrayInit values))
     ∧ ∀ s, s ∈ reads t →
         (∃ g, OrderedDict.get global_trace (urepr s) = Some g ∧ pushed g = true)
         ∨ ∀ rb g, rb ∈ readby t → OrderedDict.get global_trace (urepr rb) = Some g →
             visible s (block (main_loop g)))
  ∧ ((∀ s, s ∈ reads t → ∃ d scopes, decls !! symbol s = Some d ∧ ra d = Some scopes) →
     is_Some (is_pushable decls ra global_trace t)).
Proof.
  split.
  - unfold is_pushable. rewrite <-is_ssa_true.
    destruct (is_ssa t); simpl; [|split; [done|by intros [? _]]].
    destruct (readby t) as [|rb0 rbs] eqn:Hrb; [split; [done|by intros (_ & ? & _)]|].
    rewrite <-Hrb.
    assert ((∀ values, t_expr t ≠ Some (EArrayInit values)) ↔ is_static_init t = false)
      as Hinit.
    { unfold is_static_init. destruct (t_expr t) as [[]|]; split; try done.
      intros Hv. by destruct (Hv values). }
    rewrite Hinit.
    destruct (is_static_init t); [split; [done|by intros (_ & _ & ? & _)]|].
    rewrite reads_accessible_true. split.
    + intros Hall. split_and!; [done|by rewrite Hrb|done|]. intros s Hs.
      destruct (Hall s Hs) as [Hp|Hvis].
      * left. unfold globally_pushed in Hp.
        destruct (OrderedDict.get global_trace (urepr s)) as [g|]; [eauto|done].
      * right. intros rb g Hin Hg. apply Hvis. apply elem_of_pushed_in. eauto.
    + intros (_ & _ & _ & Hall) s Hs. destruct (Hall s Hs) as [(g & Hg & Hp)|Hvis].
      * left. unfold globally_pushed. by rewrite Hg.
      * right. intros l (rb & g & ? & ? & <-)%elem_of_pushed_in. eauto.
  - intros Hdecl. unfold is_pushable.
    destruct (negb (is_ssa t)); [eauto|]. destruct (readby t); [eauto|].
    destruct (is_static_init t); [eauto|]. by apply reads_accessible_declared.
Qed.
End push_facts.
(** ** The rewriter: unknown modes, and what [_transform_temporaries] calls *)
Section rewriter_facts.
Context `{Collaborators World}.

(** C5: with a mode that no branch knows, [licm] logs a warning, leaves
    the world as it is and returns the rewriter, whereas [expand] and
    [factorize] log a warning, leave the world as it is and return [None]. *)
Lemma unknown_mode_returns (self : ExpressionRewriter) (kwargs : Kwargs)
    (s : Session World) :
  licm self "fastest" kwargs s
    = (Self, warn "Skipping unknown licm strategy." (called self (OpLicm "fastest") s))
  ∧ expand self "fastest" kwargs s
    = (PyNone, warn "Skipping unknown expansion strategy."
                 (called self (OpExpand "fastest") s))
  ∧ factorize self "fastest" kwargs s
    = (PyNone, warn "Skipping unknown factorization strategy."
                 (called self (OpFactorize "fastest") s))
  ∧ world (expand self "fastest" kwargs s).2 = world s
  ∧ world (factorize self "fastest" kwargs s).2 = world s
  ∧ world (licm self "fastest" kwargs s).2 = world s.
Proof. split_and!; reflexivity. Qed.

Lemma calls_replacediv self (s : Session World) :
  calls (replacediv self s).2 = calls s ++ [(stmt self, OpReplacediv)].
Proof. done. Qed.

Lemma calls_expand self mode kwargs (s : Session World) :
  calls (expand self mode kwargs s).2 = calls s ++ [(stmt self, OpExpand mode)].
Proof.
  unfold expand. repeat case_bool_decide; simpl; try done.
  by destruct (standard_dimension _ _).
Qed.

Lemma calls_factorize self mode kwargs (s : Session World) :
  calls (factorize self mode kwargs s).2 = calls s ++ [(stmt self, OpFactorize mode)].
Proof.
  unfold factorize. repeat case_bool_decide; simpl; try done.
  - by destruct (standard_dimension _ _).
  - by destruct (adhoc kwargs) as [[|]|].
Qed.

Lemma calls_licm_only_outlinear self kwargs (s : Session World) :
  calls (licm self "only_outlinear" kwargs s).2
  = calls s ++ [(stmt self, OpLicm "only_outlinear")].
Proof. done. Qed.

(** The operations [_transform_temporaries] calls on the rewriter of [t]
    in its first loop. *)
Definition first_pass (t : Temporary) : list (nat * Operation) :=
  (λ op, (tnode_id (node t), op))
    <$> [OpReplacediv; OpExpand "all"; OpFactorize "adhoc"; OpFactorize "heuristic"].

Lemma calls_expand_and_factorize lda (s : Session World) t :
  calls (expand_and_factorize lda s t) = calls s ++ first_pass t.
Proof.
  unfold expand_and_factorize.
  rewrite calls_factorize, calls_factorize, calls_expand, calls_replacediv.
  by rewrite <-!app_assoc.
Qed.

Lemma calls_first_loop lda (s : Session World) ts :
  calls (foldl (expand_and_factorize lda) s ts) = calls s ++ (ts ≫= first_pass).
Proof.
  revert s. induction ts as [|t ts IH]; intros s.
  - simpl. by rewrite app_nil_r.
  - cbn [foldl]. rewrite bind_cons, IH, calls_expand_and_factorize. by rewrite <-app_assoc.
Qed.

Lemma calls_second_loop kwargs (s : Session World) rewriters :
  calls (foldl (λ s ew, (licm ew "only_outlinear" kwargs s).2) s rewriters)
  = calls s ++ ((λ ew, (stmt ew, OpLicm "only_outlinear")) <$> rewriters).
Proof.
  revert s. induction rewriters as [|ew rewriters IH]; intros s.
  - simpl. by rewrite app_nil_r.
  - cbn [foldl]. rewrite fmap_cons, IH, calls_licm_only_outlinear. by rewrite <-app_assoc.
Qed.

(** C10: every operation that [_transform_temporaries] calls is called on
    the node of one of the given temporaries that is not a key of
    [self.exprs]; and each such temporary gets [replacediv], [expand],
    the two [factorize] and [licm]. *)
Theorem transform_skips_main_expressions (exprs : list nat)
    (temporaries : list Temporary) (s : Session World) :
  ∃ new_calls,
    calls (_transform_temporaries exprs temporaries s) = calls s ++ new_calls
    ∧ (∀ on op, (on, op) ∈ new_calls →
         (on ∉ exprs) ∧ (∃ t, t ∈ temporaries ∧ tnode_id (node t) = on))
    ∧ (∀ t, t ∈ temporaries → tnode_id (node t) ∉ exprs →
         ∀ op, op ∈ [OpReplacediv; OpExpand "all"; OpFactorize "adhoc";
                     OpFactorize "heuristic"; OpLicm "only_outlinear"] →
           (tnode_id (node t), op) ∈ new_calls).
Proof.
  unfold _transform_temporaries.
  set (kept := filter (λ t : Temporary, tnode_id (node t) ∉ exprs) temporaries).
  rewrite calls_second_loop, calls_first_loop, <-app_assoc.
  eexists. split; [done|]. split.
  - intros on op [Hin|Hin]%elem_of_app.
    + apply list_elem_of_bind in Hin as (t & Hop & [Hne Ht]%list_elem_of_filter).
      apply list_elem_of_fmap in Hop as (op' & [= -> ->] & _). eauto.
    + apply list_elem_of_fmap in Hin as (ew & [= -> ->] & Hew).
      apply list_elem_of_fmap in Hew as (t & -> & [Hne Ht]%list_elem_of_filter). eauto.
  - intros t Ht Hne op Hop.
    assert (t ∈ kept) as Hkept by by apply list_elem_of_filter.
    apply elem_of_cons in Hop as [->|Hop]; [|apply elem_of_cons in Hop as [->|Hop];
      [|apply elem_of_cons in Hop as [->|Hop]; [|apply elem_of_cons in Hop as [->|Hop]]]].
    1-4: apply elem_of_app; left; apply list_elem_of_bind; exists t; split; [|done];
         unfold first_pass; apply list_elem_of_fmap; eexists; split; [done|];
         repeat constructor.
    apply list_elem_of_singleton in Hop as ->. apply elem_of_app. right.
    apply list_elem_of_fmap. exists (rewriter_of t). split; [done|].
    apply list_elem_of_fmap. eauto.
Qed.
End rewriter_facts.
(** ** The integer program of the sharing graph *)
Section ilp_facts.
Local Open Scope Z_scope.

Lemma eval_cons a c v e : eval a ((c, v) :: e) = c * a v + eval a e.
Proof. done. Qed.

Lemma eval_unit_row_bound (a : LpVariable → Z) (f : nat → LpVariable) (l : list nat) :
  (∀ j, j ∈ l → 0 ≤ a (f j)) →
  ∀ j, j ∈ l → a (f j) ≤ eval a ((λ j, (1, f j)) <$> l).
Proof.
  induction l as [|k l IH]; intros Hpos j Hj; [by apply elem_of_nil in Hj|].
  rewrite fmap_cons, eval_cons.
  assert (0 ≤ eval a ((λ j, (1, f j)) <$> l)) as Hrest.
  { clear IH Hj. induction l as [|k' l IH']; [done|]. rewrite fmap_cons, eval_cons.
    assert (0 ≤ a (f k')) by (apply Hpos; right; by left).
    assert (0 ≤ eval a ((λ j, (1, f j)) <$> l)); [|lia].
    apply IH'. intros j' [->|Hj']%elem_of_cons; apply Hpos; [by left|right; by right]. }
  assert (0 ≤ a (f k)) by (apply Hpos; by left).
  apply elem_of_cons in Hj as [->|Hj]; [lia|].
  assert (a (f j) ≤ eval a ((λ j, (1, f j)) <$> l)); [|lia].
  apply IH; [|done]. intros j' Hj'. apply Hpos. by right.
Qed.

Lemma eval_unit_row_le_length (a : LpVariable → Z) (f : nat → LpVariable) (l : list nat) :
  (∀ j, j ∈ l → a (f j) ≤ 1) →
  eval a ((λ j, (1, f j)) <$> l) ≤ Z.of_nat (length l).
Proof.
  induction l as [|k l IH]; intros Hle; [done|].
  rewrite fmap_cons, eval_cons. simpl length.
  assert (a (f k) ≤ 1) by (apply Hle; by left).
  assert (eval a ((λ j, (1, f j)) <$> l) ≤ Z.of_nat (length l)); [|lia].
  apply IH. intros j Hj. apply Hle. by right.
Qed.

Lemma eval_unit_row_zero (a : LpVariable → Z) (f : nat → LpVariable) (l : list nat) :
  (∀ j, j ∈ l → a (f j) = 0) → eval a ((λ j, (1, f j)) <$> l) = 0.
Proof.
  induction l as [|k l IH]; intros Hz; [done|].
  rewrite fmap_cons, eval_cons, IH, (Hz k); [lia|by left|].
  intros j Hj. apply Hz. by right.
Qed.

Lemma elem_of_y_keys edges i j :
  (i, j) ∈ y_keys edges ↔ (i, j) ∈ edges ∨ (j, i) ∈ edges.
Proof.
  unfold y_keys. rewrite elem_of_remove_dups, elem_of_app, list_elem_of_fmap.
  split; [intros [?|([i' j'] & [= -> ->] & ?)]; auto|].
  intros [?|?]; [by left|right]. by exists (j, i).
Qed.

Lemma limits_count edges i :
  limits edges i =
  Z.of_nat (length (filter (λ e, e.1 = i) edges) + length (filter (λ e, e.2 = i) edges)).
Proof.
  unfold limits.
  assert (∀ c, foldl (λ c e, c + (if bool_decide (e.1 = i) then 1 else 0)
                               + (if bool_decide (e.2 = i) then 1 else 0)) c edges
               = c + Z.of_nat (length (filter (λ e : nat * nat, e.1 = i) edges)
                               + length (filter (λ e : nat * nat, e.2 = i) edges))) as Hgen.
  { induction edges as [|e edges IH]; intros c; [simpl; lia|].
    cbn [foldl]. rewrite IH, !filter_cons.
    repeat case_bool_decide; repeat case_decide; try done; simpl length; lia. }
  by rewrite Hgen.
Qed.

Lemma neighbours_le_limits n edges i :
  Z.of_nat (length (filter (λ j, (i, j) ∈ y_keys edges) (seq 0 n))) ≤ limits edges i.
Proof.
  rewrite limits_count. apply inj_le.
  rewrite <-(length_fmap snd (filter (λ e, e.1 = i) edges)).
  rewrite <-(length_fmap fst (filter (λ e, e.2 = i) edges)).
  rewrite <-length_app.
  apply submseteq_length, NoDup_submseteq.
  - apply NoDup_filter, NoDup_seq.
  - intros j [Hj _]%list_elem_of_filter. apply elem_of_y_keys in Hj as [Hj|Hj].
    + apply elem_of_app. left. apply list_elem_of_fmap. exists (i, j). split; [done|].
      by apply list_elem_of_filter.
    + apply elem_of_app. right. apply list_elem_of_fmap. exists (j, i). split; [done|].
      by apply list_elem_of_filter.
Qed.

Lemma setup_edge_constraint n edges a i j :
  feasible (setup n edges) a → (i, j) ∈ edges →
  a (VarY i j) + a (VarY j i) = 1
  ∧ (a (VarY i j) = 0 ∨ a (VarY i j) = 1)
  ∧ (a (VarY j i) = 0 ∨ a (VarY j i) = 1).
Proof.
  intros [Hbin Hcons] Hij. split_and!.
  - assert (satisfies a (Equals [(1, VarY i j); (1, VarY j i)] 1)) as Hsat.
    { apply Hcons. simpl. apply elem_of_app. right.
      apply list_elem_of_fmap. by exists (i, j). }
    simpl in Hsat. lia.
  - apply Hbin. simpl. apply elem_of_app. right. apply list_elem_of_fmap.
    exists (i, j). split; [done|]. apply elem_of_y_keys. by left.
  - apply Hbin. simpl. apply elem_of_app. right. apply list_elem_of_fmap.
    exists (j, i). split; [done|]. apply elem_of_y_keys. by right.
Qed.

Lemma setup_row_constraint n edges a i j :
  feasible (setup n edges) a → (i < n)%nat → (j < n)%nat → (i, j) ∈ y_keys edges →
  a (VarY i j) ≤ limits edges i * a (VarX i).
Proof.
  intros [Hbin Hcons] Hi Hj Hkey.
  assert (satisfies a
    (LessEq ((λ j, (1, VarY i j)) <$> filter (λ j, (i, j) ∈ y_keys edges) (seq 0 n))
            [(limits edges i, VarX i)])) as Hsat.
  { apply Hcons. simpl. apply elem_of_app. left.
    apply list_elem_of_fmap. exists i. split; [done|]. apply elem_of_seq. lia. }
  simpl in Hsat.
  assert (a (VarY i j)
          ≤ eval a ((λ j, (1, VarY i j)) <$> filter (λ j, (i, j) ∈ y_keys edges) (seq 0 n)));
    [|lia].
  apply (eval_unit_row_bound a (VarY i)).
  - intros k [Hk _]%list_elem_of_filter.
    destruct (Hbin (VarY i k)) as [->| ->]; [|lia..]. simpl. apply elem_of_app. right.
    apply list_elem_of_fmap. by exists (i, k).
  - apply list_elem_of_filter. split; [done|]. apply elem_of_seq. lia.
Qed.

Lemma setup_node_binary n edges a i :
  feasible (setup n edges) a → (i < n)%nat → a (VarX i) = 0 ∨ a (VarX i) = 1.
Proof.
  intros [Hbin _] Hi. apply Hbin. simpl. apply elem_of_app. left.
  apply list_elem_of_fmap. exists i. split; [done|]. apply elem_of_seq. lia.
Qed.

(** A feasible assignment selects an endpoint of every edge. *)
Lemma feasible_edge_covered n edges a i j :
  feasible (setup n edges) a → (i, j) ∈ edges → (i < n)%nat → (j < n)%nat →
  a (VarX i) = 1 ∨ a (VarX j) = 1.
Proof.
  intros Hf Hij Hi Hj.
  destruct (setup_edge_constraint n edges a i j Hf Hij) as (Hsum & Hb1 & Hb2).
  pose proof (setup_row_constraint n edges a i j Hf Hi Hj) as Hrow1.
  pose proof (setup_row_constraint n edges a j i Hf Hj Hi) as Hrow2.
  destruct (setup_node_binary n edges a i Hf Hi) as [Hxi|Hxi]; [|by left].
  destruct (setup_node_binary n edges a j Hf Hj) as [Hxj|Hxj]; [|by right].
  rewrite Hxi in Hrow1. rewrite Hxj in Hrow2.
  assert (a (VarY i j) ≤ 0) by (rewrite Z.mul_0_r in Hrow1; apply Hrow1, elem_of_y_keys; by left).
  assert (a (VarY j i) ≤ 0) by (rewrite Z.mul_0_r in Hrow2; apply Hrow2, elem_of_y_keys; by right).
  lia.
Qed.

(** No feasible assignment exists when an edge joins a node to itself. *)
Lemma feasible_no_loop n edges a i : feasible (setup n edges) a → (i, i) ∉ edges.
Proof.
  intros Hf Hii. destruct (setup_edge_constraint n edges a i i Hf Hii) as (? & ? & ?). lia.
Qed.

Lemma variables_add_zeros prob zs : variables (foldl add_zero prob zs) = variables prob.
Proof. revert prob. induction zs as [|z zs IH]; intros prob; [done|]. simpl. by rewrite IH. Qed.

Lemma objective_add_zeros prob zs : objective (foldl add_zero prob zs) = objective prob.
Proof. revert prob. induction zs as [|z zs IH]; intros prob; [done|]. simpl. by rewrite IH. Qed.

Lemma constraints_add_zeros prob zs :
  constraints (foldl add_zero prob zs)
  = constraints prob ++ ((λ i, Equals [(1, VarX i)] 0) <$> zs).
Proof.
  revert prob. induction zs as [|z zs IH]; intros prob; simpl.
  - by rewrite app_nil_r.
  - rewrite IH. simpl. by rewrite <-app_assoc.
Qed.

Lemma feasible_add_zeros prob zs a :
  feasible (foldl add_zero prob zs) a ↔
  feasible prob a ∧ ∀ i, i ∈ zs → a (VarX i) = 0.
Proof.
  unfold feasible. rewrite variables_add_zeros, constraints_add_zeros. split.
  - intros [Hbin Hcons]. split_and!; [done| |].
    + intros c Hc. apply Hcons, elem_of_app. by left.
    + intros i Hi. assert (satisfies a (Equals [(1, VarX i)] 0)) as Hsat.
      { apply Hcons, elem_of_app. right. apply list_elem_of_fmap. by exists i. }
      simpl in Hsat. lia.
  - intros [[Hbin Hcons] Hz]. split; [done|].
    intros c [Hc|(i & -> & Hi)%list_elem_of_fmap]%elem_of_app; [auto|].
    simpl. rewrite (Hz i Hi). lia.
Qed.

Lemma cover_feasible n edges (S : nat → bool) :
  (∀ i j, (i, j) ∈ edges → i ≠ j ∧ (S i = true ∨ S j = true)) →
  feasible (setup n edges) (assignment_of S).
Proof.
  intros Hcover. split.
  - intros [i|i j] _; simpl; repeat case_match; auto.
  - intros c [(i & -> & Hi)%list_elem_of_fmap|([i j] & -> & Hij)%list_elem_of_fmap]%elem_of_app.
    + simpl. destruct (S i) eqn:HSi.
      * pose proof (neighbours_le_limits n edges i) as Hlim.
        pose proof (eval_unit_row_le_length (assignment_of S) (VarY i)
                      (filter (λ j, (i, j) ∈ y_keys edges) (seq 0 n))) as Hlen.
        assert (∀ j, assignment_of S (VarY i j) ≤ 1) as Hle.
        { intros j. simpl. repeat case_match; lia. }
        specialize (Hlen (λ j _, Hle j)). lia.
      * rewrite eval_unit_row_zero; [lia|]. intros j _. simpl. by rewrite HSi.
    + destruct (Hcover i j Hij) as [Hne HS]. simpl.
      destruct (S i), (S j); repeat case_bool_decide; destruct HS; try done; lia.
Qed.

Lemma eval_selection a (l : list nat) :
  (∀ i, i ∈ l → a (VarX i) = 0 ∨ a (VarX i) = 1) →
  eval a ((λ i, (1, VarX i)) <$> l) = Z.of_nat (length (filter (λ i, a (VarX i) = 1) l)).
Proof.
  induction l as [|i l IH]; intros Hbin; [done|].
  rewrite fmap_cons, eval_cons, filter_cons, IH by (intros j Hj; apply Hbin; by right).
  destruct (Hbin i) as [Hi|Hi]; [by left|..]; rewrite Hi; case_decide; try done;
    simpl length; lia.
Qed.
End ilp_facts.
(** ** The sharing graph *)
Section sharing_graph_facts.
Implicit Types (terms : list (list Urepr)) (u v : Urepr).

Lemma elem_of_combinations {A} (l : list A) (x y : A) :
  (x, y) ∈ combinations l → x ∈ l ∧ y ∈ l.
Proof.
  induction l as [|z l IH]; simpl; [by intros ?%elem_of_nil|].
  intros [(y' & [= -> ->] & Hy)%list_elem_of_fmap|Hin]%elem_of_app.
  - split; [by left|by right].
  - destruct (IH Hin). split; by right.
Qed.

Lemma combinations_no_loop {A} (l : list A) :
  (∀ x, (x, x) ∉ combinations l) → NoDup l.
Proof.
  induction l as [|z l IH]; intros Hno; [constructor|]. apply NoDup_cons. split.
  - intros Hz. apply (Hno z). simpl. apply elem_of_app. left.
    apply list_elem_of_fmap. by exists z.
  - apply IH. intros x Hx. apply (Hno x). simpl. apply elem_of_app. by right.
Qed.

Lemma add_summands_edges_mono acc terms e :
  e ∈ acc.2 → e ∈ (foldl add_summand acc terms).2.
Proof.
  revert acc. induction terms as [|t terms IH]; intros acc He; [done|].
  simpl. apply IH. simpl. apply elem_of_app. by left.
Qed.

Lemma add_summands_endpoints acc terms :
  (∀ u v, (u, v) ∈ acc.2 → u ∈ acc.1 ∧ v ∈ acc.1) →
  ∀ u v, (u, v) ∈ (foldl add_summand acc terms).2 →
         u ∈ (foldl add_summand acc terms).1 ∧ v ∈ (foldl add_summand acc terms).1.
Proof.
  revert acc. induction terms as [|t terms IH]; intros acc Hacc; [done|].
  simpl. apply IH. simpl. intros u v [Huv|Huv]%elem_of_app.
  - destruct (Hacc u v Huv). split; apply elem_of_app; by left.
  - assert (∀ w, w ∈ t → w ∈ acc.1 ++ filter (λ j, j ∉ acc.1) t) as Hw.
    { intros w Hwt. apply elem_of_app. destruct (decide (w ∈ acc.1)); [by left|right].
      by apply list_elem_of_filter. }
    destruct (elem_of_combinations t u v Huv). split; by apply Hw.
Qed.

Lemma add_summands_NoDup acc terms :
  NoDup acc.1 →
  (∀ u, (u, u) ∉ (foldl add_summand acc terms).2) →
  NoDup (foldl add_summand acc terms).1.
Proof.
  revert acc. induction terms as [|t terms IH]; intros acc Hnd Hno; [done|].
  simpl in *. apply IH; [|done]. simpl. apply NoDup_app. split_and!.
  - done.
  - by intros u Hu [Hnot _]%list_elem_of_filter.
  - apply NoDup_filter, combinations_no_loop. intros u Hu. apply (Hno u).
    apply add_summands_edges_mono. simpl. apply elem_of_app. by right.
Qed.

Lemma sharing_graph_endpoints terms u v :
  (u, v) ∈ (sharing_graph terms).2 →
  u ∈ connected_nodes terms ∧ v ∈ connected_nodes terms.
Proof.
  intros Huv. unfold connected_nodes.
  destruct (add_summands_endpoints ([], []) terms) with u v as [Hu Hv];
    [by intros ?? ?%elem_of_nil|done|].
  split; apply list_elem_of_filter; (split; [|done]); unfold graph_nodes;
    apply elem_of_remove_dups, list_elem_of_bind; exists (u, v); (split; [|done]); simpl.
  - by left.
  - right. by left.
Qed.

Lemma connected_nodes_NoDup terms :
  (∀ u, (u, u) ∉ (sharing_graph terms).2) → NoDup (connected_nodes terms).
Proof.
  intros Hno. apply NoDup_filter, add_summands_NoDup; [constructor|done].
Qed.

Lemma vars_nodes_lookup (ns : list Urepr) u i :
  vars_nodes ns !! u = Some i → ns !! i = Some u.
Proof.
  intros Hi%elem_of_list_to_map_2%elem_of_reverse%elem_of_lookup_imap.
  destruct Hi as (i' & u' & [= -> ->] & Hl). done.
Qed.

Lemma vars_nodes_total (ns : list Urepr) u : u ∈ ns → is_Some (vars_nodes ns !! u).
Proof.
  intros Hu. destruct (vars_nodes ns !! u) as [i|] eqn:Hi; [eauto|].
  apply not_elem_of_list_to_map_2 in Hi. exfalso. apply Hi.
  rewrite fmap_reverse, elem_of_reverse, fmap_imap.
  apply list_elem_of_lookup in Hu as [i Hi'].
  apply (elem_of_lookup_imap_2 (λ n, fst ∘ (λ n0 : Urepr, (n0, n))) ns u i) in Hi'. done.
Qed.

(** The edges over the node numbers: present, in range, and in step with
    the edges of the graph. *)
Lemma indexed_edges_spec terms :
  ∃ edges,
    indexed_edges terms = Some edges
    ∧ (∀ i j, (i, j) ∈ edges →
         ∃ u v, (u, v) ∈ (sharing_graph terms).2
                ∧ connected_nodes terms !! i = Some u
                ∧ connected_nodes terms !! j = Some v)
    ∧ (∀ u v, (u, v) ∈ (sharing_graph terms).2 →
         ∃ i j, (i, j) ∈ edges
                ∧ vars_nodes (connected_nodes terms) !! u = Some i
                ∧ vars_nodes (connected_nodes terms) !! v = Some j).
Proof.
  unfold indexed_edges.
  set (f := λ e : Urepr * Urepr,
         i ← vars_nodes (connected_nodes terms) !! e.1;
         j ← vars_nodes (connected_nodes terms) !! e.2; Some (i, j)).
  assert (∀ e ie, f e = Some ie →
            vars_nodes (connected_nodes terms) !! e.1 = Some ie.1
            ∧ vars_nodes (connected_nodes terms) !! e.2 = Some ie.2) as Hf.
  { intros [u v] [i j]. unfold f. simpl.
    destruct (vars_nodes (connected_nodes terms) !! u) as [i'|] eqn:Hu; [|done]. simpl.
    destruct (vars_nodes (connected_nodes terms) !! v) as [j'|] eqn:Hv; [|done]. simpl.
    by intros [= -> ->]. }
  destruct (mapM_is_Some_2 f (sharing_graph terms).2) as [edges Hedges].
  { apply list.Forall_forall. intros [u v] Huv. unfold f. simpl.
    destruct (sharing_graph_endpoints terms u v Huv) as [Hu Hv].
    destruct (vars_nodes_total _ u Hu) as [i ->].
    destruct (vars_nodes_total _ v Hv) as [j ->]. simpl. eauto. }
  exists edges. split; [done|]. apply mapM_Some_1 in Hedges. split.
  - intros i j [k Hk]%list_elem_of_lookup.
    destruct (Forall2_lookup_r _ _ _ _ _ Hedges Hk) as ([u v] & Huv & Hfe).
    destruct (Hf _ _ Hfe). exists u, v. split; [by eapply list_elem_of_lookup_2|].
    split; by apply vars_nodes_lookup.
  - intros u v [k Hk]%list_elem_of_lookup.
    destruct (Forall2_lookup_l _ _ _ _ _ Hedges Hk) as ([i j] & Hij & Hfe).
    destruct (Hf _ _ Hfe). exists i, j. split; [|done].
    by eapply list_elem_of_lookup_2.
Qed.

Lemma filter_ext_in {A} (P Q : A → Prop) `{∀ x, Decision (P x)} `{∀ x, Decision (Q x)}
    (l : list A) :
  (∀ x, x ∈ l → P x ↔ Q x) → filter P l = filter Q l.
Proof.
  induction l as [|x l IH]; intros Hext; [done|].
  rewrite !filter_cons, IH by (intros y Hy; apply Hext; by right).
  destruct (Hext x) as [H1 H2]; [by left|]. by repeat case_decide; auto; tauto.
Qed.

Lemma filter_indices_length {A} (P : A → bool) (l : list A) :
  length (filter (λ i, from_option P false (l !! i) = true) (seq 0 (length l)))
  = length (filter (λ x, P x = true) l).
Proof.
  induction l as [|x l IH] using rev_ind; [done|].
  rewrite length_app. simpl. rewrite Nat.add_1_r, seq_S, !filter_app, !length_app. simpl.
  f_equal.
  - rewrite <-IH. f_equal. apply filter_ext_in.
    intros i Hi%elem_of_seq. by rewrite lookup_app_l by lia.
  - rewrite !filter_cons, !filter_nil, list_lookup_middle by done. simpl.
    by destruct (P x); repeat case_decide.
Qed.
End sharing_graph_facts.
(** ** The pivots chosen from the sharing graph *)
Section pivot_facts.
Context (solve : LpProblem → Solution) (other_dims : list string).
Implicit Types (terms : list (list Urepr)) (S : list Urepr).

(** [S] has an endpoint of every edge. *)
Definition covers (edges : list (Urepr * Urepr)) (S : list Urepr) : Prop :=
  ∀ u v, (u, v) ∈ edges → u ∈ S ∨ v ∈ S.

(** The solver's answers are optimal: always for the first program, and for
    the second one whenever the solver says so. *)
Definition solver_optimal (terms : list (list Urepr)) : Prop :=
  (∀ prob, first_program terms = Some prob → optimal prob (value (solve prob)))
  ∧ (∀ prob, second_program other_dims terms = Some prob →
       status (solve prob) = Optimal → optimal prob (value (solve prob))).

Lemma length_omap_selected (ns : list Urepr) (c : nat → bool) (l : list nat) :
  (∀ i, i ∈ l → is_Some (ns !! i)) →
  length (omap (λ i, if c i then ns !! i else None) l)
  = length (filter (λ i, c i = true) l).
Proof.
  induction l as [|i l IH]; intros Hl; [done|].
  rewrite filter_cons. cbn [omap list_omap]. destruct (Hl i) as [u Hu]; [by left|].
  rewrite Hu. destruct (c i); case_decide; try done; simpl; rewrite IH; auto;
    intros j Hj; apply Hl; by right.
Qed.

Lemma select_pivots_spec terms :
  solver_optimal terms →
  ∃ sel,
    select_pivots solve other_dims terms = Some sel
    ∧ covers (sharing_graph terms).2 (pivots sel)
    ∧ (constrained solve other_dims terms = true →
       ∀ n, n ∈ pivots sel → off_reduction other_dims n = false)
    ∧ ∀ S, covers (sharing_graph terms).2 S →
        (constrained solve other_dims terms = true →
         ∀ n, n ∈ S → n ∈ connected_nodes terms → off_reduction other_dims n = false) →
        length (pivots sel) ≤ length S.
Proof.
  intros [H1 H2].
  destruct (indexed_edges_spec terms) as (edges & Hedges & Hback & Hforth).
  destruct (decide (connected_nodes terms = [])) as [Hempty|Hnonempty].
  { unfold select_pivots. rewrite Hempty. eexists. split; [done|]. simpl. split_and!.
    - intros u v Huv. destruct (Hforth u v Huv) as (i & j & _ & Hi%vars_nodes_lookup & _).
      by rewrite Hempty in Hi.
    - by intros _ n ?%elem_of_nil.
    - intros. lia. }
  assert (select_pivots solve other_dims terms =
    prob ← first_program terms;
    x ← (if bool_decide (1 < length other_dims) then
           prob2 ← second_program other_dims terms;
           Some (if bool_decide (status (solve prob2) = Optimal)
                 then solve prob2 else solve prob)
         else Some (solve prob));
    let nodes := omap (λ i, if bool_decide (value x (VarX i) = 1%Z)
                            then connected_nodes terms !! i else None)
                      (seq 0 (length (connected_nodes terms))) in
    Some (mkSelection true
            (filter (λ n, n ∉ graph_nodes (sharing_graph terms).2) (sharing_graph terms).1)
            nodes (filter (λ n, n ∉ nodes) (connected_nodes terms)))) as ->.
  { unfold select_pivots. by destruct (connected_nodes terms). }
  set (ns := connected_nodes terms) in *.
  set (p1 := setup (length ns) edges).
  assert (first_program terms = Some p1) as Hp1.
  { unfold first_program. by rewrite Hedges. }
  set (p2 := foldl add_zero p1 (zeroed other_dims terms)).
  assert (second_program other_dims terms = Some p2) as Hp2.
  { unfold second_program. by rewrite Hp1. }
  rewrite Hp1. simpl. rewrite Hp2.
  set (x := if bool_decide (1 < length other_dims)
            then if bool_decide (status (solve p2) = Optimal) then solve p2 else solve p1
            else solve p1).
  assert ((if bool_decide (1 < length other_dims)
           then prob ← Some p2;
                Some (if bool_decide (status (solve prob) = Optimal)
                      then solve prob else solve p1)
           else Some (solve p1)) = Some x) as ->.
  { unfold x. by case_bool_decide. }
  simpl.
  assert (feasible p1 (value x)
          ∧ (if constrained solve other_dims terms then optimal p2 (value x)
             else optimal p1 (value x))) as [Hfeas Hopt].
  { unfold constrained, x. rewrite Hp2. simpl.
    case_bool_decide; simpl; [case_bool_decide|]; try (split; [apply H1|apply H1]; done).
    pose proof (H2 p2 Hp2 ltac:(done)) as Hz. split; [|done].
    by apply (feasible_add_zeros p1 (zeroed other_dims terms)), Hz. }
  assert (∀ i j, (i, j) ∈ edges → (i < length ns)%nat ∧ (j < length ns)%nat) as Hrange.
  { intros i j Hij. destruct (Hback i j Hij) as (u & v & _ & Hi & Hj).
    split; by eapply lookup_lt_Some. }
  assert (∀ u, u ∈ omap (λ i, if bool_decide (value x (VarX i) = 1%Z)
                               then ns !! i else None) (seq 0 (length ns))
               ↔ ∃ i, value x (VarX i) = 1%Z ∧ ns !! i = Some u) as Hpiv.
  { intros u. rewrite list_elem_of_omap. split.
    - intros (i & _ & Hi). case_bool_decide; [eauto|done].
    - intros (i & Hv & Hi). exists i. split.
      + apply elem_of_seq. apply lookup_lt_Some in Hi. lia.
      + by rewrite bool_decide_eq_true_2. }
  eexists. split; [done|]. simpl. split_and!.
  - intros u v Huv. destruct (Hforth u v Huv) as (i & j & Hij & Hi & Hj).
    destruct (Hrange i j Hij) as [Hil Hjl].
    apply vars_nodes_lookup in Hi, Hj.
    destruct (feasible_edge_covered _ _ _ i j Hfeas Hij Hil Hjl) as [Hx|Hx];
      [left|right]; apply Hpiv; eauto.
  - intros Hc n (i & Hv & Hi)%Hpiv. rewrite Hc in Hopt.
    destruct (off_reduction other_dims n) eqn:Hoff; [|done].
    destruct Hopt as [Hf2 _].
    apply (feasible_add_zeros p1 (zeroed other_dims terms)) in Hf2 as [_ Hzero].
    rewrite Hzero in Hv; [done|]. unfold zeroed. apply list_elem_of_filter.
    fold ns. rewrite Hi. simpl. split; [by rewrite Hoff|].
    apply elem_of_seq. apply lookup_lt_Some in Hi. lia.
  - intros S Hcov Havoid.
    set (Sb := λ i, from_option (λ u, bool_decide (u ∈ S)) false (ns !! i)).
    assert (NoDup ns) as Hnd.
    { apply connected_nodes_NoDup. intros u Huu.
      destruct (Hforth u u Huu) as (i & j & Hij & Hi & Hj).
      rewrite Hi in Hj. injection Hj as <-.
      by apply (feasible_no_loop _ _ _ i Hfeas). }
    assert (feasible p1 (assignment_of Sb)) as HfS.
    { apply cover_feasible. intros i j Hij. split.
      - intros ->. by apply (feasible_no_loop _ _ _ j Hfeas).
      - destruct (Hback i j Hij) as (u & v & Huv & Hi & Hj). unfold Sb.
        rewrite Hi, Hj. simpl. destruct (Hcov u v Huv); [left|right];
          by apply bool_decide_eq_true_2. }
    assert ((eval (value x) (objective p1) ≤ eval (assignment_of Sb) (objective p1))%Z)
      as Hle.
    { destruct (constrained solve other_dims terms) eqn:Hc.
      - destruct Hopt as [_ Hmin]. unfold p2 in Hmin. rewrite objective_add_zeros in Hmin.
        apply Hmin, feasible_add_zeros. split; [done|].
        intros i [Hi _]%list_elem_of_filter. simpl. unfold Sb. fold ns in Hi.
        destruct (ns !! i) as [u|] eqn:Hu; simpl in *; [|done].
        case_bool_decide as HuS; [|done].
        rewrite (Havoid eq_refl u HuS) in Hi; [done|]. by eapply list_elem_of_lookup_2.
      - destruct Hopt as [_ Hmin]. by apply Hmin. }
    assert (∀ a, feasible p1 a →
              eval a (objective p1)
              = Z.of_nat (length (filter (λ i, a (VarX i) = 1%Z) (seq 0 (length ns)))))
      as Hobj.
    { intros a Ha. apply eval_selection. intros i Hi%elem_of_seq.
      apply (setup_node_binary _ _ _ i Ha). lia. }
    rewrite (Hobj _ Hfeas), (Hobj _ HfS) in Hle.
    rewrite (length_omap_selected ns (λ i, bool_decide (value x (VarX i) = 1%Z))).
    2:{ intros i Hi%elem_of_seq. apply lookup_lt_is_Some. lia. }
    rewrite (filter_ext_in _ (λ i, value x (VarX i) = 1%Z)).
    2:{ intros i _. apply bool_decide_eq_true. }
    apply Nat2Z.inj_le. etrans; [exact Hle|]. apply inj_le.
    rewrite (filter_ext_in _ (λ i, from_option (λ u, bool_decide (u ∈ S)) false (ns !! i) = true)).
    2:{ intros i _. simpl. fold (Sb i). by destruct (Sb i). }
    rewrite filter_indices_length.
    apply submseteq_length, NoDup_submseteq; [by apply NoDup_filter|].
    intros u [Hu%bool_decide_eq_true _]%list_elem_of_filter. done.
Qed.
End pivot_facts.
Section pivot_theorem.
Context (solve : LpProblem → Solution) (other_dims : list string).

Lemma path_graph_edges (A B C D : Urepr) :
  (sharing_graph [[A; B]; [B; C]; [C; D]]).2 = [(A, B); (B, C); (C, D)].
Proof. done. Qed.

(** C3, as amended: when the solver's answers are optimal for the programs
    it is given, the pivots have an endpoint of every edge of the sharing
    graph; no cover is smaller, among all covers when the pivots come from
    the first program, and among the covers that avoid the nodes set to
    zero when they come from the second; for the path graph with the edges
    (A,B), (B,C), (C,D) there are at most two pivots. *)
Theorem pivots_cover_minimally (terms : list (list Urepr)) :
  solver_optimal solve other_dims terms →
  ∃ sel,
    select_pivots solve other_dims terms = Some sel
    ∧ covers (sharing_graph terms).2 (pivots sel)
    ∧ (∀ S, covers (sharing_graph terms).2 S →
         (constrained solve other_dims terms = true →
          ∀ n, n ∈ S → n ∈ connected_nodes terms → off_reduction other_dims n = false) →
         length (pivots sel) ≤ length S)
    ∧ (∀ A B C D, terms = [[A; B]; [B; C]; [C; D]] → length (pivots sel) ≤ 2).
Proof.
  intros Hopt.
  destruct (select_pivots_spec solve other_dims terms Hopt)
    as (sel & Hsel & Hcov & Hfree & Hmin).
  exists sel. split_and!; [done..|].
  intros A B C D ->. rewrite path_graph_edges in *.
  assert (∀ S, covers [(A, B); (B, C); (C, D)] S ↔
               (A ∈ S ∨ B ∈ S) ∧ (B ∈ S ∨ C ∈ S) ∧ (C ∈ S ∨ D ∈ S)) as Hcovers.
  { intros S. unfold covers. split.
    - intros H. split_and!; apply H; repeat constructor.
    - intros (H1 & H2 & H3) u v Huv.
      repeat (apply elem_of_cons in Huv as [[= -> ->]|Huv]; [done|]).
      by apply elem_of_nil in Huv. }
  apply Hcovers in Hcov as (HAB & HBC & HCD).
  destruct (constrained solve other_dims [[A; B]; [B; C]; [C; D]]) eqn:Hc.
  - specialize (Hfree eq_refl).
    destruct (off_reduction other_dims B) eqn:HB.
    + assert (B ∉ pivots sel) as HnB by (intros HB'%Hfree; congruence).
      destruct HAB as [HA|?]; [|done]. destruct HBC as [?|HC]; [done|].
      apply (Hmin [A; C]).
      * apply Hcovers. split_and!; [left|right|left]; repeat constructor.
      * intros _ n Hn _. apply Hfree.
        repeat (apply elem_of_cons in Hn as [->|Hn]; [done|]). by apply elem_of_nil in Hn.
    + destruct (off_reduction other_dims C) eqn:HC.
      * assert (C ∉ pivots sel) as HnC by (intros HC'%Hfree; congruence).
        destruct HBC as [HB'|?]; [|done]. destruct HCD as [?|HD]; [done|].
        apply (Hmin [B; D]).
        -- apply Hcovers. split_and!; [right|left|right]; repeat constructor.
        -- intros _ n Hn _. apply Hfree.
           repeat (apply elem_of_cons in Hn as [->|Hn]; [done|]). by apply elem_of_nil in Hn.
      * apply (Hmin [B; C]).
        -- apply Hcovers. split_and!; [right|left|left]; repeat constructor.
        -- intros _ n Hn _.
           repeat (apply elem_of_cons in Hn as [->|Hn]; [done|]). by apply elem_of_nil in Hn.
  - apply (Hmin [B; C]); [|done].
    apply Hcovers. split_and!; [right|left|left]; repeat constructor.
Qed.
End pivot_theorem.
Section pivot_examples.
Import Graphs.
Local Open Scope Z_scope.

Lemma path_solver_optimal : solver_optimal path_solver [] path.
Proof.
  assert (first_program path = Some (setup 4 [(0, 1); (1, 2); (2, 3)]%nat)) as Hp1
    by (vm_compute; reflexivity).
  split.
  - intros prob Hprob. rewrite Hp1 in Hprob. injection Hprob as <-.
    assert (value (path_solver (setup 4 [(0, 1); (1, 2); (2, 3)]%nat))
            = assignment_of (λ i, bool_decide (i = 1 ∨ i = 2)%nat)) as -> by reflexivity.
    split.
    + apply cover_feasible. intros i j Hij.
      repeat (apply elem_of_cons in Hij as [[= -> ->]|Hij]; [split; [done|]; vm_compute; auto|]).
      by apply elem_of_nil in Hij.
    + intros a' Ha'.
      assert (a' (VarX 0%nat) = 1 ∨ a' (VarX 1%nat) = 1) as H01.
      { apply (feasible_edge_covered 4 _ a' 0 1 Ha'); [repeat constructor|lia..]. }
      assert (a' (VarX 2%nat) = 1 ∨ a' (VarX 3%nat) = 1) as H23.
      { apply (feasible_edge_covered 4 _ a' 2 3 Ha'); [repeat constructor|lia..]. }
      pose proof (setup_node_binary 4 _ a' 0 Ha' ltac:(lia)).
      pose proof (setup_node_binary 4 _ a' 1 Ha' ltac:(lia)).
      pose proof (setup_node_binary 4 _ a' 2 Ha' ltac:(lia)).
      pose proof (setup_node_binary 4 _ a' 3 Ha' ltac:(lia)).
      cbn [setup objective eval seq fmap list_fmap foldr fst snd]. simpl. lia.
  - intros prob Hprob. unfold second_program in Hprob. rewrite Hp1 in Hprob.
    injection Hprob as <-. vm_compute. discriminate.
Qed.

Lemma star_solver_optimal : solver_optimal star_solver reduction_dims star.
Proof.
  assert (first_program star = Some (setup 3 [(0, 1); (0, 2)]%nat)) as Hp1
    by (vm_compute; reflexivity).
  assert (zeroed reduction_dims star = [0%nat]) as Hz by (vm_compute; reflexivity).
  split.
  - intros prob Hprob. rewrite Hp1 in Hprob. injection Hprob as <-.
    assert (value (star_solver (setup 3 [(0, 1); (0, 2)]%nat))
            = assignment_of (λ i, bool_decide (i = 0)%nat)) as -> by reflexivity.
    split.
    + apply cover_feasible. intros i j Hij.
      repeat (apply elem_of_cons in Hij as [[= -> ->]|Hij]; [split; [done|]; vm_compute; auto|]).
      by apply elem_of_nil in Hij.
    + intros a' Ha'.
      assert (a' (VarX 0%nat) = 1 ∨ a' (VarX 1%nat) = 1) as H01.
      { apply (feasible_edge_covered 3 _ a' 0 1 Ha'); [repeat constructor|lia..]. }
      pose proof (setup_node_binary 3 _ a' 0 Ha' ltac:(lia)).
      pose proof (setup_node_binary 3 _ a' 1 Ha' ltac:(lia)).
      pose proof (setup_node_binary 3 _ a' 2 Ha' ltac:(lia)).
      cbn [setup objective eval seq fmap list_fmap foldr fst snd]. simpl. lia.
  - intros prob Hprob _. unfold second_program in Hprob. rewrite Hp1, Hz in Hprob.
    assert (prob = foldl add_zero (setup 3 [(0, 1); (0, 2)]%nat) [0%nat]) as ->
      by (by injection Hprob).
    assert (value (star_solver (foldl add_zero (setup 3 [(0, 1); (0, 2)]%nat) [0%nat]))
            = assignment_of (λ i, bool_decide (i = 1 ∨ i = 2)%nat)) as -> by reflexivity.
    split.
    + apply feasible_add_zeros. split.
      * apply cover_feasible. intros i j Hij.
        repeat (apply elem_of_cons in Hij as [[= -> ->]|Hij];
                [split; [done|]; vm_compute; auto|]).
        by apply elem_of_nil in Hij.
      * intros i ->%list_elem_of_singleton. done.
    + intros a' [Ha' Hzero]%feasible_add_zeros.
      specialize (Hzero 0%nat ltac:(by left)).
      assert (a' (VarX 0%nat) = 1 ∨ a' (VarX 1%nat) = 1) as H01.
      { apply (feasible_edge_covered 3 _ a' 0 1 Ha'); [repeat constructor|lia..]. }
      assert (a' (VarX 0%nat) = 1 ∨ a' (VarX 2%nat) = 1) as H02.
      { apply (feasible_edge_covered 3 _ a' 0 2 Ha'); [repeat constructor|lia..]. }
      rewrite objective_add_zeros.
      cbn [setup objective eval seq fmap list_fmap foldr fst snd]. simpl. lia.
Qed.
End pivot_examples.

(** With two reduction dimensions the pivots come from the second program:
    for the star they are the two leaves, although the centre alone covers
    both edges. *)
Lemma minimum_cover_counterexample :
  solver_optimal Graphs.star_solver Graphs.reduction_dims Graphs.star
  ∧ ∃ sel,
      select_pivots Graphs.star_solver Graphs.reduction_dims Graphs.star = Some sel
      ∧ pivots sel = [Graphs.uL1; Graphs.uL2]
      ∧ covers (sharing_graph Graphs.star).2 [Graphs.uStar]
      ∧ length [Graphs.uStar] < length (pivots sel).
Proof.
  split; [exact star_solver_optimal|].
  eexists. split; [vm_compute; reflexivity|]. split_and!.
  - reflexivity.
  - intros u v Huv. left.
    assert ((sharing_graph Graphs.star).2
            = [(Graphs.uStar, Graphs.uL1); (Graphs.uStar, Graphs.uL2)]) as Hedges by done.
    rewrite Hedges in Huv.
    repeat (apply elem_of_cons in Huv as [[= -> ->]|Huv]; [by left|]).
    by apply elem_of_nil in Huv.
  - simpl. lia.
Qed.

Lemma pivots_cover_minimally_witness :
  solver_optimal Graphs.path_solver [] Graphs.path
  ∧ ∃ sel,
      select_pivots Graphs.path_solver [] Graphs.path = Some sel
      ∧ covers (sharing_graph Graphs.path).2 (pivots sel)
      ∧ (∀ S, covers (sharing_graph Graphs.path).2 S →
           (constrained Graphs.path_solver [] Graphs.path = true →
            ∀ n, n ∈ S → n ∈ connected_nodes Graphs.path → off_reduction [] n = false) →
           length (pivots sel) ≤ length S)
      ∧ (∀ A B C D, Graphs.path = [[A; B]; [B; C]; [C; D]] → length (pivots sel) ≤ 2).
Proof.
  split; [exact path_solver_optimal|].
  exact (pivots_cover_minimally Graphs.path_solver [] Graphs.path path_solver_optimal).
Defined.

(** ** The copies of the cost model are those of the store *)
Section reconstruct_agrees.
Context (EstimateFlops : TNode → Z).

(** [reconstruct] on the store yields a temporary that reads as
    [reconstruct_value] says. *)
Lemma reconstruct_reads_as_value g σ :
  allocated σ g →
  ∃ c σ',
    reconstruct EstimateFlops g σ = Some (c, σ')
    ∧ view σ' g = view σ g
    ∧ mkTemporary (level (view σ' c)) (pushed (view σ' c)) (readby (view σ' c))
        (node (view σ' c)) (main_loop (view σ' c)) (nest (view σ' c)) (reads (view σ' c))
        ((λ sc, (KSymbol sc.1, sc.2)) <$> linear_reads_costs (view σ' c))
        (flops (view σ' c))
      = reconstruct_value EstimateFlops (view σ g).
Proof.
  intros (Hg & Hrb & Hrd & Hlc & Hne).
  apply wp_reconstruct.
  intros σ' tc Ht Hl Hd Hlevel Hpushed Hnode Hloop Hnest Hflops Hrbc Hrdc _ Hlcc Hrbv Hrdv Hlcv.
  assert (temporary_at σ' g = temporary_at σ g) as Hsame.
  { apply temporary_at_prefix; [|done]. rewrite Ht. by apply prefix_app_r. }
  assert (temporary_at σ' (length (temporaries σ)) = tc) as Hc.
  { unfold temporary_at. by rewrite Ht, default_lookup_snoc. }
  split.
  - apply view_ext; [done|by apply list_at_prefix..|by apply dict_at_prefix].
  - unfold view, reconstruct_value. simpl. rewrite Hc.
    by rewrite Hlevel, Hpushed, Hnode, Hloop, Hnest, Hflops, Hrbv, Hrdv, Hlcv.
Qed.
End reconstruct_agrees.

(** ** Running [is_pushable] on the example kernel *)
Section pushable_example.
(** Every symbol of the example is declared, and every declaration is
    visible in the body of the loop over [j]. *)
Definition example_decls : gmap string nat :=
  list_to_map [("A", 1); ("B", 2); ("T", 3); ("R", 4); ("C", 5); ("K", 6)].
Definition example_ra (d : nat) : option (list nat) := Some [101].

Example T_is_pushable :
  @is_pushable same_urepr example_decls example_ra traced temporary_T = Some true.
Proof. vm_compute. reflexivity. Qed.

(** [R], the output, has no reader. *)
Example R_is_not_pushable :
  @is_pushable same_urepr example_decls example_ra traced temporary_R = Some false.
Proof. vm_compute. reflexivity. Qed.
End pushable_example.
(** ** The tracer as a whole: what [_analyze_loop] leaves behind *)

(** The store [σ'] has every object of [σ]: the temporaries and the
    dictionaries of [σ] are as they were, and a list of [σ] has at most
    grown at its end. *)
Definition extends (σ σ' : Store) : Prop :=
  temporaries σ `prefix_of` temporaries σ'
  ∧ dicts σ `prefix_of` dicts σ'
  ∧ length (lists σ) ≤ length (lists σ')
  ∧ ∀ ℓ, list_at σ ℓ `prefix_of` list_at σ' ℓ.

Lemma extends_refl σ : extends σ σ.
Proof. by split_and!. Qed.

Lemma extends_trans σ1 σ2 σ3 : extends σ1 σ2 → extends σ2 σ3 → extends σ1 σ3.
Proof.
  intros (Ht & Hd & Hn & Hl) (Ht' & Hd' & Hn' & Hl').
  split_and!; [by trans (temporaries σ2)|by trans (dicts σ2)|lia|].
  intros ℓ. by trans (list_at σ2 ℓ).
Qed.

Lemma extends_lists_prefix σ σ' :
  temporaries σ `prefix_of` temporaries σ' → dicts σ `prefix_of` dicts σ' →
  lists σ `prefix_of` lists σ' → extends σ σ'.
Proof.
  intros Ht Hd Hl. split_and!; [done|done|by apply prefix_length|].
  intros ℓ. destruct (decide (ℓ < length (lists σ))) as [Hlt|Hge].
  - by rewrite (list_at_prefix σ σ').
  - unfold list_at at 1. rewrite lookup_ge_None_2 by lia. apply prefix_nil.
Qed.

Lemma extends_append σ σ' r s :
  temporaries σ' = temporaries σ →
  lists σ' = alter (λ l, l ++ [s]) r (lists σ) →
  dicts σ' = dicts σ → extends σ σ'.
Proof.
  intros Ht Hl Hd. split_and!; [by rewrite Ht|by rewrite Hd|by rewrite Hl, length_alter|].
  intros ℓ. unfold list_at. rewrite Hl, default_lookup_alter.
  case_decide as Hc; [|done]. destruct Hc as [-> _]. by apply prefix_app_r.
Qed.

Lemma extends_temporary_at σ σ' q :
  extends σ σ' → q < length (temporaries σ) → temporary_at σ' q = temporary_at σ q.
Proof. intros (Ht & _) Hq. by apply temporary_at_prefix. Qed.

Lemma extends_length σ σ' : extends σ σ' → length (temporaries σ) ≤ length (temporaries σ').
Proof. intros (Ht & _). by apply prefix_length. Qed.


(** Entries and keys of an ordered dictionary after an assignment. *)
Lemma elem_of_set {K V} `{EqDecision K} (d : odict K V) k v k' v' :
  (k', v') ∈ OrderedDict.set d k v → (k', v') ∈ d ∨ (k', v') = (k, v).
Proof.
  induction d as [|[k0 v0] d IH]; simpl.
  - intros ->%list_elem_of_singleton. by right.
  - case_decide as Hk.
    + intros [[= -> ->]|Hin]%elem_of_cons; [right; by subst|left; by right].
    + intros [->|Hin]%elem_of_cons; [left; by left|].
      destruct (IH Hin) as [?|?]; [left; by right|by right].
Qed.

Lemma keys_set_NoDup {K V} `{EqDecision K} (d : odict K V) k v :
  NoDup (OrderedDict.keys d) → NoDup (OrderedDict.keys (OrderedDict.set d k v)).
Proof.
  unfold OrderedDict.keys. induction d as [|[k0 v0] d IH]; simpl.
  - intros _. apply NoDup_singleton.
  - intros [Hk0 Hd]%NoDup_cons. case_decide as Hk; simpl.
    + by apply NoDup_cons.
    + apply NoDup_cons. split; [|by apply IH].
      intros ([k1 v1] & -> & Hin)%list_elem_of_fmap.
      destruct (elem_of_set _ _ _ _ _ Hin) as [Hin'|[= -> ->]]; [|done].
      apply Hk0. apply list_elem_of_fmap. by exists (k1, v1).
Qed.

Lemma get_of_elem {K V} `{EqDecision K} (d : odict K V) k v :
  NoDup (OrderedDict.keys d) → (k, v) ∈ d → OrderedDict.get d k = Some v.
Proof.
  unfold OrderedDict.keys. induction d as [|[k0 v0] d IH]; simpl.
  - by intros _ ?%elem_of_nil.
  - intros [Hk0 Hd]%NoDup_cons [[= -> ->]|Hin]%elem_of_cons.
    + by rewrite decide_True.
    + rewrite decide_False; [by apply IH|]. intros ->. apply Hk0.
      apply list_elem_of_fmap. by exists (k, v).
Qed.

Lemma get_update {K V} `{EqDecision K} (d d' : odict K V) k v :
  OrderedDict.get (OrderedDict.update d d') k = Some v →
  (k, v) ∈ d' ∨ OrderedDict.get d k = Some v.
Proof.
  unfold OrderedDict.update. revert d.
  induction d' as [|[k0 v0] d' IH]; intros d; simpl; [by right|].
  intros [Hin|Hget]%IH; [left; by right|].
  rewrite OrderedDict.get_set in Hget. case_decide; [|by right].
  injection Hget as <-. subst. left. by left.
Qed.

Section tracer_invariant.
Context (EstimateFlops : TNode → Z).
Context (_analyze_expr : Expr → list Symbol * list (Symbol * Z)).
Context (loop : Loop) (nest : Nest) (global_trace : Trace).
(** The store [_analyze_loop] starts from. *)
Context (σ0 : Store).
Local Open Scope Z_scope.

(** Every temporary of the global trace exists, under the [urepr] of its
    symbol. *)
Definition keyed_by_urepr (σ : Store) (trace : Trace) : Prop :=
  ∀ u g, OrderedDict.get trace u = Some g →
    (g < length (temporaries σ))%nat ∧ t_urepr (temporary_at σ g) = u.

(** What holds of the temporary at [q], held under [u] in the trace of the
    loop. *)
Definition entry_ok (σ : Store) (u : Urepr) (q : loc) : Prop :=
  (length (temporaries σ0) ≤ q < length (temporaries σ))%nat
  ∧ -1 ≤ level (temporary_at σ q)
  ∧ pushed (temporary_at σ q) = false
  ∧ (0 ≤ level (temporary_at σ q) →
     ∃ w, node (temporary_at σ q) = TWriter w ∧ SWriter w ∈ body loop
          ∧ (_analyze_expr (rvalue w)).2 ≠ [])
  ∧ (keyed_by_urepr σ0 global_trace → t_urepr (temporary_at σ q) = u).

Definition trace_ok (σ : Store) (trace : Trace) : Prop :=
  extends σ0 σ ∧ NoDup (OrderedDict.keys trace)
  ∧ ∀ u q, (u, q) ∈ trace → entry_ok σ u q.

Lemma entry_ok_extends σ σ' u q : extends σ σ' → entry_ok σ u q → entry_ok σ' u q.
Proof.
  intros Hext (Hq & Hrest). pose proof (extends_length _ _ Hext).
  unfold entry_ok. rewrite (extends_temporary_at σ σ') by (done || lia).
  split; [lia|done].
Qed.

Lemma trace_ok_extends σ σ' trace : extends σ σ' → trace_ok σ trace → trace_ok σ' trace.
Proof.
  intros Hext (H0 & Hnd & Hall). split_and!; [by eapply extends_trans|done|].
  intros u q Hq. eapply entry_ok_extends; eauto.
Qed.

Lemma trace_ok_set σ trace u q :
  trace_ok σ trace → entry_ok σ u q → trace_ok σ (OrderedDict.set trace u q).
Proof.
  intros (H0 & Hnd & Hall) Hq. split_and!; [done|by apply keys_set_NoDup|].
  intros u' q' [Hin|[= -> ->]]%elem_of_set; auto.
Qed.

Lemma trace_ok_wf σ trace : trace_ok σ trace → trace_wf σ trace.
Proof.
  intros (_ & _ & Hall) u q Hq%get_elem_of. destruct (Hall u q Hq) as [? _]. lia.
Qed.

(** A temporary just appended to the store, at level -1. *)
Lemma entry_ok_new σ σ' u t :
  extends σ0 σ → temporaries σ' = temporaries σ ++ [t] →
  level t = -1 → pushed t = false →
  (keyed_by_urepr σ0 global_trace → t_urepr t = u) →
  entry_ok σ' u (length (temporaries σ)).
Proof.
  intros H0 Ht Hlevel Hpushed Hkey. pose proof (extends_length _ _ H0).
  assert (temporary_at σ' (length (temporaries σ)) = t) as Hnew.
  { unfold temporary_at. by rewrite Ht, default_lookup_snoc. }
  unfold entry_ok. rewrite Hnew, Ht, length_app. simpl. rewrite Hlevel.
  split_and!; [lia|lia|lia|done|lia|done].
Qed.

Lemma wp_trace_linear_read_ok target trace s Q σ :
  trace_ok σ trace →
  (∀ trace' σ',
     extends σ σ' → trace_ok σ' trace' →
     is_Some (OrderedDict.get trace' (urepr s)) →
     (∀ u, is_Some (OrderedDict.get trace u) → is_Some (OrderedDict.get trace' u)) →
     Q trace' σ') →
  wp (trace_linear_read EstimateFlops global_trace loop nest target trace s) Q σ.
Proof.
  intros Hok HQ. pose proof Hok as (H0 & Hnd & Hall). unfold trace_linear_read.
  destruct (OrderedDict.get global_trace (urepr s)) as [g|] eqn:Hg.
  - apply wp_bind, wp_readby_append. intros σ1 Ht1 Hl1 Hd1.
    pose proof (extends_append _ _ _ _ Ht1 Hl1 Hd1) as He1.
    apply wp_bind, wp_reconstruct.
    intros σ2 tc Ht2 Hl2 Hd2 Hlevel Hpushed Hnode _ _ _ _ _ _ _ _ _ _.
    apply wp_bind, wp_set_level. intros σ3 Ht3 Hl3 Hd3.
    apply wp_ret.
    rewrite Ht2, alter_snoc in Ht3. rewrite Ht1 in Ht3. simpl in Ht3.
    assert (extends σ1 σ3) as He3.
    { apply extends_lists_prefix.
      - rewrite Ht3, Ht1. by apply prefix_app_r.
      - by rewrite Hd3.
      - by rewrite Hl3. }
    assert (extends σ σ3) as He by by eapply extends_trans.
    rewrite Ht1. apply HQ; [done| | |].
    + apply trace_ok_set; [by eapply trace_ok_extends|].
      eapply entry_ok_new; [exact H0|exact Ht3|done|done|].
      intros Hkeyed. destruct (Hkeyed _ _ Hg) as [Hlt Hu].
      pose proof (extends_length _ _ H0).
      unfold t_urepr, t_symbol in *. simpl. rewrite Hnode.
      rewrite (extends_temporary_at σ σ1), (extends_temporary_at σ0 σ); [done|done|lia|done|lia].
    + rewrite OrderedDict.get_set_eq. eauto.
    + intros u. apply OrderedDict.get_set_is_Some.
  - apply wp_bind, wp_Temporary_init.
    intros σ1 rb rd lc Ht1 Hl1 Hd1 _ _ _ _ _ _ _ _ _.
    assert (extends σ σ1) as He1.
    { apply extends_lists_prefix; [|done..]. rewrite Ht1. by apply prefix_app_r. }
    unfold OrderedDict.setdefault.
    destruct (OrderedDict.get trace (urepr s)) as [t|] eqn:Hget.
    + apply wp_bind, wp_readby_append. intros σ2 Ht2 Hl2 Hd2.
      pose proof (extends_append _ _ _ _ Ht2 Hl2 Hd2) as He2.
      apply wp_ret.
      assert (extends σ σ2) as He by by eapply extends_trans.
      apply HQ; [done|by eapply trace_ok_extends|by rewrite Hget|done].
    + apply wp_bind, wp_readby_append. intros σ2 Ht2 Hl2 Hd2.
      pose proof (extends_append _ _ _ _ Ht2 Hl2 Hd2) as He2.
      apply wp_ret.
      assert (extends σ σ2) as He by by eapply extends_trans.
      apply HQ; [done| | |].
      * apply trace_ok_set; [by eapply trace_ok_extends|].
        eapply entry_ok_extends; [exact He2|].
        eapply entry_ok_new; [exact H0|exact Ht1|done..].
      * rewrite OrderedDict.get_set_eq. eauto.
      * intros u. apply OrderedDict.get_set_is_Some.
Qed.

(** The symbols a statement leaves in the trace: the target and the linear
    reads of a [Writer]. *)
Definition traced_symbols (node : Stmt) : list Urepr :=
  match node with
  | SWriter w => urepr (lvalue w) :: (urepr <$> (_analyze_expr (rvalue w)).2.*1)
  | SOther _ _ _ => []
  end.

Lemma wp__analyze_node_ok trace node Q σ :
  trace_ok σ trace → node ∈ body loop →
  (∀ trace' σ',
     extends σ σ' → trace_ok σ' trace' →
     (∀ u, u ∈ traced_symbols node → is_Some (OrderedDict.get trace' u)) →
     (∀ u, is_Some (OrderedDict.get trace u) → is_Some (OrderedDict.get trace' u)) →
     Q trace' σ') →
  wp (_analyze_node EstimateFlops _analyze_expr global_trace loop nest trace node) Q σ.
Proof.
  intros Hok Hin HQ. destruct node as [w|nid written read]; unfold _analyze_node.
  - unfold trace_reads.
    destruct (_analyze_expr (rvalue w)) as [rds lrc] eqn:Hexpr. simpl in HQ.
    apply wp_bind, wp_bind, wp_alloc_list. intros σ1 Ht1 Hl1 Hd1.
    apply wp_bind, wp_alloc_dict. intros σ2 Ht2 Hl2 Hd2.
    assert (extends σ σ2) as He2.
    { apply extends_lists_prefix.
      - by rewrite Ht2, Ht1.
      - rewrite Hd2, Hd1. by apply prefix_app_r.
      - rewrite Hl2, Hl1. by apply prefix_app_r. }
    assert (dict_at σ2 (length (dicts σ1)) = lrc) as Hcosts.
    { unfold dict_at. by rewrite Hd2, default_lookup_snoc. }
    assert ((length (dicts σ1) < length (dicts σ2))%nat) as Hclt.
    { rewrite Hd2, length_app. simpl. lia. }
    apply wp_bind.
    apply (wp_foldM (λ tr l σ', extends σ2 σ' ∧ trace_ok σ' tr
              ∧ (∀ u, is_Some (OrderedDict.get trace u) → is_Some (OrderedDict.get tr u))
              ∧ ∀ s, s ∈ lrc.*1 → s ∈ l ∨ is_Some (OrderedDict.get tr (urepr s)))).
    { split_and!; [apply extends_refl|by eapply trace_ok_extends|done|auto]. }
    { intros tr b l' σ' (He & Hok' & Hkeep & Hkeys).
      apply wp_trace_linear_read_ok; [done|]. intros tr' σ'' He' Hok'' Hb Hkeep'.
      split_and!; [by eapply extends_trans|done|auto|]. intros s Hs.
      destruct (Hkeys s Hs) as [[->|Hs']%elem_of_cons|Hs']; auto. }
    intros trace1 σ3 (He3 & Hok3 & Hkeep & Hkeys). apply wp_ret. simpl.
    apply wp_bind, wp_Temporary_init.
    intros σ4 rb rd' lc' Ht4 Hl4 Hd4 _ _ _ _ _ _ Hlc' Hlcv _. simpl in Hlcv.
    rewrite (dict_at_prefix σ2 σ3) in Hlcv; [|by apply He3|done]. rewrite Hcosts in Hlcv.
    assert (extends σ3 σ4) as He4.
    { apply extends_lists_prefix; [|done..]. rewrite Ht4. by apply prefix_app_r. }
    assert (temporary_at σ4 (length (temporaries σ3)) =
      mkTemporary (-1) false rb (TWriter w) loop nest rd' lc' (EstimateFlops (TWriter w)))
      as Hnew.
    { unfold temporary_at. by rewrite Ht4, default_lookup_snoc. }
    unfold linear_reads.
    apply wp_bind, wp_bind, wp_get_temporary. rewrite Hnew. simpl.
    apply wp_bind, wp_get_dict, wp_ret. rewrite Hlcv.
    pose proof (trace_ok_extends _ _ _ He4 Hok3) as Hok4.
    apply wp_bind, wp_levels_of.
    { intros s Hs. destruct (Hkeys s Hs) as [?%elem_of_nil|]; done. }
    intros lv Hlv.
    assert (∀ z, z ∈ lv → -1 ≤ z) as Hlvge.
    { intros z [i Hi]%list_elem_of_lookup.
      destruct (Forall2_lookup_r _ _ _ _ _ Hlv Hi) as (s & _ & Hsz).
      unfold level_in in Hsz.
      destruct (OrderedDict.get trace1 (urepr s)) as [q|] eqn:Hq; [|done].
      simpl in Hsz. injection Hsz as <-.
      destruct Hok4 as (_ & _ & Hall4). apply get_elem_of in Hq.
      by destruct (Hall4 _ _ Hq) as (_ & ? & _). }
    assert (∃ m, py_max (if lv is [] then [-2] else lv) = Some m
                 ∧ -2 ≤ m ∧ (-1 ≤ m → lrc ≠ [])) as (m & Hm & Hmge & Hmlrc).
    { destruct lv as [|z0 lv0] eqn:Hlveq.
      - exists (-2). split_and!; [done|lia|lia].
      - rewrite <-Hlveq in *. destruct (py_max_spec lv) as (m & Hm & Hmin & _); [by subst|].
        exists m. split_and!; [done|..].
        + specialize (Hlvge m Hmin). lia.
        + intros _ ->. apply Forall2_nil_inv_l in Hlv. by subst. }
    apply wp_bind. eapply wp_lift; [exact Hm|].
    apply wp_bind, wp_set_level. intros σ5 Ht5 Hl5 Hd5. apply wp_ret.
    rewrite Ht4, alter_snoc in Ht5. simpl in Ht5.
    assert (extends σ3 σ5) as He5.
    { apply extends_lists_prefix.
      - rewrite Ht5. by apply prefix_app_r.
      - by rewrite Hd5.
      - by rewrite Hl5. }
    assert (extends σ σ5) as He.
    { eapply extends_trans; [exact He2|]. by eapply extends_trans. }
    assert (trace_ok σ5 (OrderedDict.set trace1 (urepr (lvalue w)) (length (temporaries σ3))))
      as Hok5.
    { apply trace_ok_set; [by apply (trace_ok_extends σ3)|].
      destruct Hok3 as (H03 & _). pose proof (extends_length _ _ H03).
      assert (temporary_at σ5 (length (temporaries σ3)) =
        mkTemporary (m + 1) false rb (TWriter w) loop nest rd' lc' (EstimateFlops (TWriter w)))
        as Hfin.
      { unfold temporary_at. by rewrite Ht5, default_lookup_snoc. }
      unfold entry_ok. rewrite Hfin, Ht5, length_app. simpl.
      split_and!; try lia; try done; [].
      intros Hpos. exists w. split_and!; [done|done|]. rewrite Hexpr. simpl. apply Hmlrc. lia. }
    apply HQ; [done|done| |].
    + rewrite Hexpr. simpl.
      intros u [->|(s & -> & Hs)%list_elem_of_fmap]%elem_of_cons.
      * rewrite OrderedDict.get_set_eq. eauto.
      * apply OrderedDict.get_set_is_Some.
        destruct (Hkeys s Hs) as [?%elem_of_nil|]; done.
    + intros u Hu. apply OrderedDict.get_set_is_Some. auto.
  - apply wp_bind.
    apply (wp_foldM (λ (_ : unit) (_ : list loc) σ', extends σ σ')).
    { apply extends_refl. }
    { intros [] t l' σ' He. apply wp_bind, wp_get_temporary, wp_readby_append.
      intros σ'' Ht Hl Hd. eapply extends_trans; [done|]. by eapply extends_append. }
    intros [] σ' He. apply wp_ret.
    apply HQ; [done|by eapply trace_ok_extends| |done].
    by intros u ?%elem_of_nil.
Qed.

(** [_analyze_loop], from the store [σ0]. *)
Lemma analyze_loop_ok :
  ∃ trace σ',
    _analyze_loop EstimateFlops _analyze_expr loop nest global_trace σ0 = Some (trace, σ')
    ∧ trace_ok σ' trace
    ∧ ∀ node u, node ∈ body loop → u ∈ traced_symbols node →
        is_Some (OrderedDict.get trace u).
Proof.
  unfold _analyze_loop.
  apply (wp_foldM (λ tr l σ, trace_ok σ tr ∧ (∀ x, x ∈ l → x ∈ body loop)
            ∧ ∀ node u, node ∈ body loop → u ∈ traced_symbols node →
                node ∈ l ∨ is_Some (OrderedDict.get tr u))).
  - split_and!; [|done|auto]. split_and!; [apply extends_refl|constructor|].
    by intros u q ?%elem_of_nil.
  - intros tr b l' σ (Hok & Hin & Hkeys).
    apply wp__analyze_node_ok; [done|apply Hin; by left|].
    intros tr' σ' He Hok' Hb Hkeep. split_and!; [done|intros x Hx; apply Hin; by right|].
    intros node u Hnode Hu.
    destruct (Hkeys node u Hnode Hu) as [[->|Hl]%elem_of_cons|Hs]; auto.
  - intros tr σ (Hok & _ & Hkeys). split; [done|]. intros node u Hnode Hu.
    destruct (Hkeys node u Hnode Hu) as [?%elem_of_nil|]; done.
Qed.
End tracer_invariant.

Section tracer_results.
Context (EstimateFlops : TNode → Z).
Context (_analyze_expr : Expr → list Symbol * list (Symbol * Z)).
Local Open Scope Z_scope.

(** X1: [_analyze_loop] returns for every loop, nest, global trace and
    store: no lookup [trace[s.urepr]] fails and [max] is never given an
    empty list.  The trace it returns holds existing temporaries under
    distinct keys, and has an entry for the target and for every linear
    read of every [Writer] of the loop body. *)
Theorem analyze_loop_returns (loop : Loop) (nest : Nest) (global_trace : Trace)
    (σ : Store) :
  ∃ trace σ',
    _analyze_loop EstimateFlops _analyze_expr loop nest global_trace σ = Some (trace, σ')
    ∧ trace_wf σ' trace
    ∧ NoDup (OrderedDict.keys trace)
    ∧ ∀ w, SWriter w ∈ body loop →
        is_Some (OrderedDict.get trace (urepr (lvalue w)))
        ∧ ∀ s, s ∈ (_analyze_expr (rvalue w)).2.*1 →
            is_Some (OrderedDict.get trace (urepr s)).
Proof.
  destruct (analyze_loop_ok EstimateFlops _analyze_expr loop nest global_trace σ)
    as (trace & σ' & Hrun & Hok & Hkeys).
  exists trace, σ'. split_and!; [done|by eapply trace_ok_wf|by destruct Hok as (_ & ? & _)|].
  intros w Hw. split.
  - apply (Hkeys (SWriter w)); [done|]. simpl. by left.
  - intros s Hs. apply (Hkeys (SWriter w)); [done|]. simpl. right.
    apply list_elem_of_fmap. by exists s.
Qed.

(** X2: [_analyze_loop] changes no temporary and no dictionary that
    existed before the call, and an existing list is at most appended
    to (the [readby] lists of the temporaries of the global trace are);
    the temporaries of the trace it returns are all objects made during
    the call. *)
Theorem analyze_loop_frame (loop : Loop) (nest : Nest) (global_trace : Trace)
    (σ : Store) :
  ∃ trace σ',
    _analyze_loop EstimateFlops _analyze_expr loop nest global_trace σ = Some (trace, σ')
    ∧ temporaries σ `prefix_of` temporaries σ'
    ∧ dicts σ `prefix_of` dicts σ'
    ∧ (∀ ℓ, list_at σ ℓ `prefix_of` list_at σ' ℓ)
    ∧ ∀ u q, (u, q) ∈ trace →
        (length (temporaries σ) ≤ q < length (temporaries σ'))%nat.
Proof.
  destruct (analyze_loop_ok EstimateFlops _analyze_expr loop nest global_trace σ)
    as (trace & σ' & Hrun & ((Ht & Hd & _ & Hl) & _ & Hall) & _).
  exists trace, σ'. split_and!; [done..|].
  intros u q Hq. by destruct (Hall u q Hq) as [? _].
Qed.

(** X3: in the trace returned by [_analyze_loop] no temporary is pushed
    and every level is at least -1; a temporary of level 0 or more is the
    [Writer] of a statement of this loop that has a linear read, so the
    symbols that are only read, and the copies taken from the global
    trace, are all at level -1. *)
Theorem analyze_loop_levels (loop : Loop) (nest : Nest) (global_trace : Trace)
    (σ : Store) :
  ∃ trace σ',
    _analyze_loop EstimateFlops _analyze_expr loop nest global_trace σ = Some (trace, σ')
    ∧ ∀ u q, (u, q) ∈ trace →
        -1 ≤ level (temporary_at σ' q)
        ∧ pushed (temporary_at σ' q) = false
        ∧ (0 ≤ level (temporary_at σ' q) →
           ∃ w, node (temporary_at σ' q) = TWriter w ∧ SWriter w ∈ body loop
                ∧ (_analyze_expr (rvalue w)).2 ≠ []).
Proof.
  destruct (analyze_loop_ok EstimateFlops _analyze_expr loop nest global_trace σ)
    as (trace & σ' & Hrun & (_ & _ & Hall) & _).
  exists trace, σ'. split; [done|].
  intros u q Hq. by destruct (Hall u q Hq) as (_ & ? & ? & ? & _).
Qed.

(** X4: when every temporary of the global trace is held under the
    [urepr] of its own symbol, so is every temporary of the trace that
    [_analyze_loop] returns, and so is every temporary of the global trace
    after [global_trace.update(trace)]. *)
Theorem analyze_loop_keyed (loop : Loop) (nest : Nest) (global_trace : Trace)
    (σ : Store) :
  keyed_by_urepr σ global_trace →
  ∃ trace σ',
    _analyze_loop EstimateFlops _analyze_expr loop nest global_trace σ = Some (trace, σ')
    ∧ (∀ u q, (u, q) ∈ trace → t_urepr (temporary_at σ' q) = u)
    ∧ keyed_by_urepr σ' (OrderedDict.update global_trace trace).
Proof.
  intros Hkeyed.
  destruct (analyze_loop_ok EstimateFlops _analyze_expr loop nest global_trace σ)
    as (trace & σ' & Hrun & (He & _ & Hall) & _).
  exists trace, σ'. split_and!; [done| |].
  - intros u q Hq. destruct (Hall u q Hq) as (_ & _ & _ & _ & Hu). auto.
  - intros u g [Hin|Hg]%get_update.
    + destruct (Hall u g Hin) as (? & _ & _ & _ & Hu). split; [lia|auto].
    + destruct (Hkeyed u g Hg) as [Hlt Hu]. pose proof (extends_length _ _ He).
      rewrite (extends_temporary_at σ σ') by done. split; [lia|done].
Qed.
End tracer_results.

Lemma keyed_Forall σ (trace : Trace) :
  Forall (λ kv, kv.2 < length (temporaries σ) ∧ t_urepr (temporary_at σ kv.2) = kv.1) trace →
  keyed_by_urepr σ trace.
Proof.
  intros Hall u g Hg%get_elem_of. rewrite list.Forall_forall in Hall.
  exact (Hall (u, g) Hg).
Qed.

Lemma analyze_loop_keyed_witness :
  keyed_by_urepr store_w1 trace_w1
  ∧ ∃ trace σ',
      _analyze_loop flops_of analysis loop_j nest_j trace_w1 store_w1 = Some (trace, σ')
      ∧ (∀ u q, (u, q) ∈ trace → t_urepr (temporary_at σ' q) = u)
      ∧ keyed_by_urepr σ' (OrderedDict.update trace_w1 trace).
Proof.
  assert (keyed_by_urepr store_w1 trace_w1) as Hk.
  { apply keyed_Forall. vm_compute. repeat constructor. }
  split; [exact Hk|].
  exact (analyze_loop_keyed flops_of analysis loop_j nest_j trace_w1 store_w1 Hk).
Defined.

Section update_facts.
Context {K V : Type} `{EqDecision K}.

Lemma get_update_keeps (d d' : odict K V) k :
  is_Some (OrderedDict.get d k) → is_Some (OrderedDict.get (OrderedDict.update d d') k).
Proof.
  unfold OrderedDict.update. revert d.
  induction d' as [|[k0 v0] d' IH]; intros d Hk; simpl; [done|].
  apply IH. by apply OrderedDict.get_set_is_Some.
Qed.

Lemma get_update_new (d d' : odict K V) k v :
  (k, v) ∈ d' → is_Some (OrderedDict.get (OrderedDict.update d d') k).
Proof.
  unfold OrderedDict.update. revert d.
  induction d' as [|[k0 v0] d' IH]; intros d; simpl; [by intros ?%elem_of_nil|].
  intros [[= -> ->]|Hin]%elem_of_cons; [|by apply IH].
  apply (get_update_keeps _ d'). rewrite OrderedDict.get_set_eq. eauto.
Qed.
End update_facts.

Section analysis_facts.
Context (EstimateFlops : TNode → Z).
Context (_analyze_expr : Expr → list Symbol * list (Symbol * Z)).
Local Open Scope Z_scope.

(** X5: the analysis phase of [unpick] returns for every list of loops.
    It changes no temporary that existed before; every temporary of the
    global trace it builds is held under the [urepr] of its symbol; and
    every trace recorded in [mapper] is not empty, belongs to one of the
    loops, and holds, under the [urepr] of their symbols, temporaries at
    level -1 or more whose keys are keys of the global trace. *)
Theorem analyze_loops_returns (nests : list (Loop * Nest)) (σ : Store) :
  ∃ global_trace mapper σ',
    analyze_loops EstimateFlops _analyze_expr nests σ = Some ((global_trace, mapper), σ')
    ∧ temporaries σ `prefix_of` temporaries σ'
    ∧ keyed_by_urepr σ' global_trace
    ∧ ∀ k trace, (k, trace) ∈ mapper →
        trace ≠ []
        ∧ (∃ ln, ln ∈ nests ∧ lid ln.1 = k)
        ∧ ∀ u q, (u, q) ∈ trace →
            (q < length (temporaries σ'))%nat
            ∧ t_urepr (temporary_at σ' q) = u
            ∧ -1 ≤ level (temporary_at σ' q)
            ∧ is_Some (OrderedDict.get global_trace u).
Proof.
  unfold analyze_loops.
  set (recorded := λ (done : list (Loop * Nest)) (σ' : Store) (gt : Trace) (k : nat)
                     (trace : Trace),
         trace ≠ []
         ∧ (∃ ln, ln ∈ done ∧ lid ln.1 = k)
         ∧ ∀ u q, (u, q) ∈ trace →
             (q < length (temporaries σ'))%nat
             ∧ t_urepr (temporary_at σ' q) = u
             ∧ -1 ≤ level (temporary_at σ' q)
             ∧ is_Some (OrderedDict.get gt u)).
  cut (wp (foldM (λ (acc : Trace * odict nat Trace) (ln : Loop * Nest),
           let '(global_trace, mapper) := acc in
           let '(loop, nest) := ln in
           do trace <- _analyze_loop EstimateFlops _analyze_expr loop nest global_trace;
           if trace is [] then ret (global_trace, mapper)
           else ret (OrderedDict.update global_trace trace,
                     OrderedDict.set mapper (lid loop) trace))
        ([], []) nests)
        (λ acc σ', extends σ σ' ∧ keyed_by_urepr σ' acc.1
                   ∧ ∀ k trace, (k, trace) ∈ acc.2 → recorded nests σ' acc.1 k trace) σ).
  { intros ([gt mapper] & σ' & Hrun & He & Hk & Hm). exists gt, mapper, σ'.
    split_and!; [done|by destruct He|done|done]. }
  apply (wp_foldM (λ acc l σ', ∃ done, nests = done ++ l ∧ extends σ σ'
            ∧ keyed_by_urepr σ' acc.1
            ∧ ∀ k trace, (k, trace) ∈ acc.2 → recorded done σ' acc.1 k trace)).
  - exists []. split_and!; [done|apply extends_refl|done|]. by intros k trace ?%elem_of_nil.
  - intros [gt mapper] [lp ns] l' σ1 (done & Hnests & He & Hk & Hm). simpl in *.
    destruct (analyze_loop_ok EstimateFlops _analyze_expr lp ns gt σ1)
      as (trace & σ2 & Hrun & (He2 & _ & Hall) & _).
    eapply wp_bind_run; [exact Hrun|].
    pose proof (extends_length _ _ He2) as Hlen.
    assert (keyed_by_urepr σ2 gt) as Hk2.
    { intros u g Hg. destruct (Hk u g Hg) as [Hlt Hu].
      rewrite (extends_temporary_at σ1 σ2) by done. split; [lia|done]. }
    assert (∀ gt', (∀ u, is_Some (OrderedDict.get gt u) → is_Some (OrderedDict.get gt' u)) →
              ∀ k tr, (k, tr) ∈ mapper → recorded (done ++ [(lp, ns)]) σ2 gt' k tr) as Hm2.
    { intros gt' Hkeep k tr Hin. destruct (Hm k tr Hin) as (Hne & (ln & Hln & Hlid) & Hentries).
      split_and!; [done|exists ln; split; [apply elem_of_app; by left|done]|].
      intros u q Hq. destruct (Hentries u q Hq) as (Hlt & Hu & Hlevel & Hkey).
      rewrite (extends_temporary_at σ1 σ2) by done. split_and!; [lia|done|done|auto]. }
    destruct trace as [|kv trace'] eqn:Htrace.
    + apply wp_ret. exists (done ++ [(lp, ns)]). simpl.
      split_and!; [by rewrite <-app_assoc|by eapply extends_trans|done|].
      apply Hm2. auto.
    + rewrite <-Htrace in *. apply wp_ret. exists (done ++ [(lp, ns)]). simpl.
      split_and!; [by rewrite <-app_assoc|by eapply extends_trans| |].
      * intros u g [Hin|Hg]%get_update; [|by apply Hk2].
        destruct (Hall u g Hin) as (? & _ & _ & _ & Hu). split; [lia|auto].
      * intros k tr [Hin|[= -> ->]]%elem_of_set.
        -- apply Hm2; [|done]. intros u. apply get_update_keeps.
        -- split_and!; [by rewrite Htrace| |].
           ++ exists (lp, ns). split; [|done]. apply elem_of_app. right. by left.
           ++ intros u q Hq. destruct (Hall u q Hq) as (? & ? & _ & _ & Hu).
              split_and!; [lia|auto|done|by eapply get_update_new].
  - intros [gt mapper] σ' (done & Hnests & He & Hk & Hm). rewrite app_nil_r in Hnests.
    subst done. done.
Qed.
End analysis_facts.
(** ** The cost model on the levels of a trace *)
Section odict_facts.
Context {K V : Type} `{EqDecision K}.
Implicit Types (d : odict K V).

Lemma odict_get_elem d k v : OrderedDict.get d k = Some v → (k, v) ∈ d.
Proof.
  induction d as [|[k0 v0] d IH]; simpl; [done|].
  case_decide as Hk.
  - intros [= ->]. subst. by left.
  - intros Hq. right. auto.
Qed.

Lemma elem_of_keys_get d k : k ∈ OrderedDict.keys d ↔ is_Some (OrderedDict.get d k).
Proof.
  unfold OrderedDict.keys. induction d as [|[k0 v0] d IH]; simpl.
  - split; [by intros ?%elem_of_nil|by intros [? ?]].
  - rewrite elem_of_cons, IH. case_decide as Hk.
    + split; [eauto|]. intros _. by left.
    + split; [|by right]. intros [->|?]; done.
Qed.

Lemma elem_of_keys_set d k v k' :
  k' ∈ OrderedDict.keys (OrderedDict.set d k v) ↔ k' ∈ OrderedDict.keys d ∨ k' = k.
Proof.
  rewrite !elem_of_keys_get, OrderedDict.get_set. case_decide as Hk.
  - subst. split; eauto.
  - split; [by left|]. intros [?|?]; [done|by subst].
Qed.

Lemma get_filter_keys (P : K → Prop) `{∀ k, Decision (P k)} (d : list (K * V)) k :
  OrderedDict.get (filter (λ kv, P kv.1) d) k
  = if decide (P k) then OrderedDict.get d k else None.
Proof.
  induction d as [|[k0 v0] d IH]; [simpl; by case_decide|].
  rewrite filter_cons. simpl.
  destruct (decide (P k0)) as [HP0|HP0]; simpl; rewrite ?IH;
    destruct (decide (k0 = k)) as [->|Hne]; destruct (decide (P k)); done.
Qed.

Lemma keys_filter_NoDup (P : K * V → Prop) `{∀ kv, Decision (P kv)} (d : list (K * V)) :
  NoDup (OrderedDict.keys d) → NoDup (OrderedDict.keys (filter P d)).
Proof.
  unfold OrderedDict.keys. induction d as [|[k0 v0] d IH]; [done|].
  rewrite fmap_cons. intros [Hk0 Hd]%NoDup_cons. rewrite filter_cons.
  case_decide; [|by apply IH].
  simpl. apply NoDup_cons. split; [|by apply IH].
  intros ([k1 v1] & -> & [_ Hin]%list_elem_of_filter)%list_elem_of_fmap.
  apply Hk0. apply list_elem_of_fmap. by exists (k1, v1).
Qed.
End odict_facts.

Section cost_model_facts.
Local Open Scope Z_scope.
Implicit Types (d : LevelDict) (t : Temporary).

Lemma materialized_cost_cons t l :
  materialized_cost (t :: l) = flops t * niters t + materialized_cost l.
Proof.
  unfold materialized_cost. simpl.
  rewrite (foldl_cost_shift (λ t, flops t * niters t)).
  rewrite (foldl_cost_shift (λ t, flops t * niters t) l 0). lia.
Qed.

Lemma materialized_cost_app l1 l2 :
  materialized_cost (l1 ++ l2) = materialized_cost l1 + materialized_cost l2.
Proof.
  induction l1 as [|t l1 IH]; [done|].
  rewrite <-app_comm_cons, !materialized_cost_cons, IH. lia.
Qed.

(** A dictionary of levels as [_group_by_level] builds it. *)
Definition levels_ok d : Prop := default_factory d = true ∧ NoDup (level_keys d).

(** [d'] is [d] after some levels have been looked up: the levels hold
    what they held, and keys may have been added. *)
Definition grown d d' : Prop :=
  levels_ok d' ∧ (∀ i, levels_at d' i = levels_at d i)
  ∧ ∀ k, k ∈ level_keys d → k ∈ level_keys d'.

Lemma grown_refl d : levels_ok d → grown d d.
Proof. intros Hd. split; [done|]. split; [done|auto]. Qed.

Lemma grown_trans d1 d2 d3 : grown d1 d2 → grown d2 d3 → grown d1 d3.
Proof.
  intros (_ & H1 & K1) (Hok & H2 & K2). split; [done|]. split; [|auto].
  intros i. by rewrite H2.
Qed.

Lemma levels_at_elem d k v : levels_ok d → (k, v) ∈ items d → levels_at d k = v.
Proof. intros [_ Hnd] Hin. unfold levels_at. by rewrite (get_of_elem _ _ _ Hnd Hin). Qed.

Lemma getitem_grown d i :
  levels_ok d →
  ∃ d', getitem d i = Some (levels_at d i, d') ∧ grown d d'
        ∧ ∀ k, k ∈ level_keys d' ↔ k ∈ level_keys d ∨ k = i.
Proof.
  intros [Hd Hnd]. unfold getitem, levels_at.
  destruct (OrderedDict.get (items d) i) as [v|] eqn:Hget; simpl.
  - exists d. split_and!; [done|by apply grown_refl|].
    intros k. split; [by left|]. intros [?| ->]; [done|].
    apply elem_of_keys_get. by rewrite Hget.
  - rewrite Hd. eexists. split; [done|]. split; [split; [|split]|].
    + split; [done|]. by apply keys_set_NoDup.
    + intros j. unfold levels_at. simpl. rewrite OrderedDict.get_set.
      case_decide; [subst; by rewrite Hget|done].
    + intros k Hk. apply elem_of_keys_set. by left.
    + intros k. apply elem_of_keys_set.
Qed.

Lemma restrict_grown d l :
  levels_ok d →
  ∃ d', restrict d l = Some ((λ i, (i, levels_at d i)) <$> l, d') ∧ grown d d'
        ∧ ∀ k, k ∈ level_keys d' ↔ k ∈ level_keys d ∨ k ∈ l.
Proof.
  revert d. induction l as [|i l IH]; intros d Hd; simpl.
  - exists d. split_and!; [done|by apply grown_refl|].
    intros k. split; [by left|]. by intros [?|?%elem_of_nil].
  - destruct (getitem_grown d i Hd) as (d1 & -> & Hg1 & Hi1). simpl.
    destruct (IH d1) as (d2 & -> & Hg2 & Hl2); [by destruct Hg1|]. simpl.
    exists d2. split_and!.
    + f_equal. f_equal. f_equal. apply list_fmap_ext. intros _ j _. simpl. f_equal.
      by destruct Hg1 as (_ & -> & _).
    + by eapply grown_trans.
    + intros k. rewrite Hl2, Hi1, elem_of_cons. tauto.
Qed.

Lemma foldl_selected_cost (f : Z → list Temporary) (l : list Z) :
  foldl (λ cost (lt : Z * list Temporary), cost + materialized_cost lt.2) 0
        ((λ i, (i, f i)) <$> l)
  = foldr (λ i c, materialized_cost (f i) + c) 0 l.
Proof.
  rewrite (foldl_cost_shift (λ lt : Z * list Temporary, materialized_cost lt.2)).
  rewrite Z.add_0_l. induction l as [|i l IH]; [done|]. rewrite fmap_cons. simpl.
  by rewrite IH.
Qed.

Lemma cost_cse_grown d a b :
  levels_ok d →
  ∃ d', _cost_cse d (Some (a, b)) = Some (levels_cost d (range a (b + 1)), d')
        ∧ grown d d' ∧ ∀ k, k ∈ level_keys d' ↔ k ∈ level_keys d ∨ a ≤ k ≤ b.
Proof.
  intros Hd. unfold _cost_cse.
  destruct (restrict_grown d (range a (b + 1)) Hd) as (d' & -> & Hg & Hl). simpl.
  exists d'. split_and!; [|done|].
  - by rewrite foldl_selected_cost.
  - intros k. rewrite Hl. unfold range. rewrite elem_of_seqZ.
    split; (intros [?|?]; [by left|right; lia]).
Qed.

(** A plain dictionary: the lookups succeed on the keys only. *)
Lemma restrict_plain (its : odict Z (list Temporary)) l :
  (∀ i, i ∈ l → i ∈ OrderedDict.keys its) →
  restrict (mkLevelDict false its) l
  = Some ((λ i, (i, levels_at (mkLevelDict false its) i)) <$> l, mkLevelDict false its).
Proof.
  induction l as [|i l IH]; intros Hl; simpl; [done|].
  destruct (proj1 (elem_of_keys_get its i) (Hl i ltac:(by left))) as [v Hv].
  unfold getitem at 1. simpl. rewrite Hv. simpl.
  rewrite IH by (intros j Hj; apply Hl; by right). simpl.
  unfold levels_at at 2. simpl. by rewrite Hv.
Qed.

Lemma restrict_plain_inv (its : odict Z (list Temporary)) l :
  is_Some (restrict (mkLevelDict false its) l) → ∀ i, i ∈ l → i ∈ OrderedDict.keys its.
Proof.
  induction l as [|i l IH]; simpl; [by intros _ i ?%elem_of_nil|].
  unfold getitem at 1. simpl.
  destruct (OrderedDict.get its i) as [v|] eqn:Hv; simpl; [|by intros [? ?]].
  intros Hsome j [->|Hj]%elem_of_cons.
  - apply elem_of_keys_get. by rewrite Hv.
  - apply IH; [|done]. destruct (restrict _ l) as [[r ?]|]; [eauto|by destruct Hsome].
Qed.

(** The step of [_group_by_level]. *)
Definition group_step d t : LevelDict :=
  match getitem d (level t) with
  | Some (l, levels) =>
      mkLevelDict true (OrderedDict.set (items levels) (level t) (l ++ [t]))
  | None => d
  end.

Lemma group_by_level_fold trace :
  _group_by_level trace = foldl group_step (mkLevelDict true []) (OrderedDict.values trace).
Proof. done. Qed.

Lemma group_step_spec d t :
  levels_ok d →
  levels_ok (group_step d t)
  ∧ (∀ i, levels_at (group_step d t) i
          = if decide (i = level t) then levels_at d i ++ [t] else levels_at d i)
  ∧ ∀ k, k ∈ level_keys (group_step d t) ↔ k ∈ level_keys d ∨ k = level t.
Proof.
  intros Hd. unfold group_step.
  destruct (getitem_grown d (level t) Hd) as (d' & -> & ((Hd' & Hnd') & Hsame & Hkeys) & Hin).
  split; [|split].
  - split; [done|]. by apply keys_set_NoDup.
  - intros i. unfold levels_at at 1. simpl. rewrite OrderedDict.get_set.
    case_decide as Hi; case_decide; subst; try done. apply Hsame.
  - intros k. unfold level_keys at 1. simpl. rewrite elem_of_keys_set.
    fold (level_keys d'). rewrite Hin. tauto.
Qed.
End cost_model_facts.
Section grouping_facts.
Local Open Scope Z_scope.
Implicit Types (d : LevelDict) (t : Temporary).

Lemma group_fold_spec d l :
  levels_ok d →
  levels_ok (foldl group_step d l)
  ∧ (∀ i, levels_at (foldl group_step d l) i
          = levels_at d i ++ filter (λ t, level t = i) l)
  ∧ ∀ k, k ∈ level_keys (foldl group_step d l) ↔ k ∈ level_keys d ∨ k ∈ level <$> l.
Proof.
  revert d. induction l as [|t l IH]; intros d Hd.
  - simpl. split; [done|]. split.
    + intros i. by rewrite app_nil_r.
    + intros k. split; [by left|]. by intros [?|?%elem_of_nil].
  - destruct (group_step_spec d t Hd) as (Hd1 & Hat1 & Hk1).
    destruct (IH _ Hd1) as (Hd2 & Hat2 & Hk2). cbn [foldl].
    split; [done|]. split.
    + intros i. rewrite Hat2, Hat1, filter_cons.
      destruct (decide (i = level t)) as [->|Hne].
      * rewrite decide_True by done. by rewrite <-app_assoc.
      * rewrite decide_False by done. done.
    + intros k. rewrite Hk2, Hk1, fmap_cons, elem_of_cons. tauto.
Qed.

Lemma levels_ok_empty : levels_ok (mkLevelDict true []).
Proof. split; [done|]. constructor. Qed.

Lemma group_by_level_ok (trace : odict Urepr Temporary) :
  levels_ok (_group_by_level trace)
  ∧ (∀ i, levels_at (_group_by_level trace) i
          = filter (λ t, level t = i) (OrderedDict.values trace))
  ∧ ∀ k, k ∈ level_keys (_group_by_level trace) ↔ k ∈ level <$> OrderedDict.values trace.
Proof.
  rewrite group_by_level_fold.
  destruct (group_fold_spec (mkLevelDict true []) (OrderedDict.values trace) levels_ok_empty)
    as (Hd & Hat & Hk).
  split; [done|]. split; [done|]. intros k. rewrite Hk. split; [|by right].
  by intros [?%elem_of_nil|?].
Qed.

(** The cost of all the entries of a dictionary of levels. *)
Definition items_cost (its : odict Z (list Temporary)) : Z :=
  foldr (λ kv c, materialized_cost kv.2 + c) 0 its.

Lemma items_cost_set its k v :
  items_cost (OrderedDict.set its k v)
  = items_cost its - materialized_cost (default [] (OrderedDict.get its k))
    + materialized_cost v.
Proof.
  induction its as [|[k0 v0] its IH]; simpl.
  - change (materialized_cost []) with 0. lia.
  - case_decide as Hk; simpl; [lia|]. rewrite IH. lia.
Qed.

Lemma items_cost_group_step d t :
  levels_ok d →
  items_cost (items (group_step d t)) = items_cost (items d) + flops t * niters t.
Proof.
  intros [Hd _]. unfold group_step, getitem.
  destruct (OrderedDict.get (items d) (level t)) as [v|] eqn:Hget; simpl.
  - rewrite items_cost_set, Hget. simpl.
    rewrite materialized_cost_app, materialized_cost_cons.
    change (materialized_cost []) with 0. lia.
  - rewrite Hd. simpl. rewrite !items_cost_set, OrderedDict.get_set_eq, Hget. simpl.
    rewrite materialized_cost_cons. change (materialized_cost []) with 0. lia.
Qed.

Lemma items_cost_group_fold d l :
  levels_ok d →
  items_cost (items (foldl group_step d l)) = items_cost (items d) + materialized_cost l.
Proof.
  revert d. induction l as [|t l IH]; intros d Hd.
  - simpl. change (materialized_cost []) with 0. lia.
  - cbn [foldl]. rewrite IH by by apply group_step_spec.
    rewrite items_cost_group_step by done. rewrite materialized_cost_cons. lia.
Qed.

Lemma cost_cse_unbounded d : _cost_cse d None = Some (items_cost (items d), d).
Proof.
  unfold _cost_cse. simpl. do 2 f_equal.
  rewrite (foldl_cost_shift (λ lt : Z * list Temporary, materialized_cost lt.2)).
  unfold items_cost. lia.
Qed.

(** The sum over a range of levels that has the level of every temporary. *)
Lemma filtered_cost_total (r : list Z) (l : list Temporary) :
  NoDup r → (∀ t, t ∈ l → level t ∈ r) →
  foldr (λ i c, materialized_cost (filter (λ t, level t = i) l) + c) 0 r
  = materialized_cost l.
Proof.
  intros Hr. induction l as [|t l IH]; intros Hl.
  - clear Hr Hl. induction r as [|i r IHr]; [done|]. cbn [foldr]. rewrite IHr, filter_nil.
    change (materialized_cost []) with 0. lia.
  - rewrite materialized_cost_cons, <-IH by (intros t' Ht'; apply Hl; by right).
    assert (level t ∈ r) as Hin by (apply Hl; by left).
    clear IH Hl. induction r as [|i r IHr]; [by apply elem_of_nil in Hin|].
    apply NoDup_cons in Hr as [Hi Hr]. cbn [foldr]. rewrite filter_cons.
    destruct (decide (level t = i)) as [Heq|Hne].
    + rewrite materialized_cost_cons.
      assert (foldr (λ i c, materialized_cost (filter (λ t0, level t0 = i) (t :: l)) + c) 0 r
              = foldr (λ i c, materialized_cost (filter (λ t0, level t0 = i) l) + c) 0 r)
        as ->; [|lia].
      clear IHr Hr Hin. induction r as [|j r IHr']; [done|]. cbn [foldr].
      rewrite filter_cons, decide_False.
      * rewrite IHr'; [done|]. intros Hir. apply Hi. by right.
      * intros Hj. apply Hi. rewrite <-Heq, Hj. by left.
    + apply elem_of_cons in Hin as [?|Hin]; [done|]. rewrite IHr by done. lia.
Qed.

Lemma NoDup_range a b : NoDup (range a b).
Proof. apply NoDup_seqZ. Qed.

Lemma elem_of_range a b i : i ∈ range a b ↔ a ≤ i < b.
Proof. unfold range. rewrite elem_of_seqZ. lia. Qed.

Lemma foldl_min_le (l : list Z) x :
  foldl Z.min x l ≤ x ∧ ∀ y, y ∈ l → foldl Z.min x l ≤ y.
Proof.
  revert x. induction l as [|a l IH]; intros x; simpl.
  - split; [lia|]. by intros y ?%elem_of_nil.
  - destruct (IH (Z.min x a)) as [H1 H2]. split; [lia|].
    intros y [->|Hy]%elem_of_cons; [lia|auto].
Qed.

Lemma foldl_min_in (l : list Z) x : foldl Z.min x l = x ∨ foldl Z.min x l ∈ l.
Proof.
  revert x. induction l as [|a l IH]; intros x; simpl; [by left|].
  destruct (IH (Z.min x a)) as [->|Hin].
  - destruct (Z.min_spec x a) as [[_ ->]|[_ ->]]; [by left|right; by left].
  - right. by right.
Qed.

Lemma py_min_spec l : l ≠ [] →
  ∃ m, py_min l = Some m ∧ m ∈ l ∧ ∀ y, y ∈ l → m ≤ y.
Proof.
  destruct l as [|x l]; [done|]. intros _. simpl. eexists. split; [done|].
  destruct (foldl_min_le l x) as [H1 H2]. split.
  - destruct (foldl_min_in l x) as [->|?]; [by left|by right].
  - intros y [->|Hy]%elem_of_cons; auto.
Qed.
End grouping_facts.
Section cost_fact_run_facts.
Context (EstimateFlops : TNode → Z).
Local Open Scope Z_scope.
Implicit Types (d : LevelDict) (t : Temporary).

Lemma cost_fact_run_best trace levels bounds :
  _cost_fact EstimateFlops trace levels bounds
  = best <$> cost_fact_run EstimateFlops trace levels bounds.
Proof.
  unfold _cost_fact, cost_fact_run.
  destruct (match bounds with
            | Some b => Some b
            | None => lo ← py_min (level_keys levels);
                      hi ← py_max (level_keys levels); Some (lo, hi)
            end) as [b|]; simpl; [|done].
  repeat case_guard; simpl; try done.
  destruct (py_min (level_keys levels)) as [lo|]; simpl; [|done].
  destruct (_cost_cse levels (Some (lo, b.1))) as [[c l]|]; simpl; [|done].
  by destruct (foldl _ _ _).
Qed.

Lemma get_fmap_values {A B} (f : A → B) (d : odict Urepr A) u :
  OrderedDict.get ((λ kv, (kv.1, f kv.2)) <$> d) u = f <$> OrderedDict.get d u.
Proof.
  induction d as [|[k v] d IH]; [done|]. rewrite fmap_cons. simpl.
  by case_decide.
Qed.

(** The working trace [nt'] has every key of [nt]. *)
Definition keeps_keys (nt nt' : odict Urepr Copy) : Prop :=
  ∀ u, is_Some (OrderedDict.get nt u) → is_Some (OrderedDict.get nt' u).

Lemma fact_temporary_keys st t :
  is_Some (OrderedDict.get (new_trace st) (t_urepr t)) →
  ∃ st', fact_temporary st t = Some st' ∧ keeps_keys (new_trace st) (new_trace st').
Proof.
  intros [c Hc]. unfold fact_temporary.
  rewrite trace_operand_fold. simpl. rewrite Hc. simpl.
  eexists. split; [done|]. simpl. intros u. apply OrderedDict.get_set_is_Some.
Qed.

Lemma fact_temporaries_keys (ts : list Temporary) f0 :
  (∀ t, t ∈ ts → is_Some (OrderedDict.get (new_trace f0) (t_urepr t))) →
  ∃ f, foldl (λ o t, f ← o; fact_temporary f t) (Some f0) ts = Some f
       ∧ keeps_keys (new_trace f0) (new_trace f).
Proof.
  revert f0. induction ts as [|t ts IH]; intros f0 Hts.
  - exists f0. split; [done|]. by intros u.
  - destruct (fact_temporary_keys f0 t) as (f1 & Hf1 & Hk1); [apply Hts; by left|].
    destruct (IH f1) as (f & Hf & Hk).
    { intros t' Ht'. apply Hk1, Hts. by right. }
    exists f. cbn [foldl]. simpl. rewrite Hf1. split; [done|].
    intros u Hu. by apply Hk, Hk1.
Qed.

Lemma cost_cse_plain (its : odict Z (list Temporary)) a b :
  (∀ i, a ≤ i ≤ b → i ∈ OrderedDict.keys its) →
  ∃ c, _cost_cse (mkLevelDict false its) (Some (a, b)) = Some (c, mkLevelDict false its).
Proof.
  intros Hkeys. unfold _cost_cse. rewrite restrict_plain.
  - simpl. eauto.
  - intros i Hi%elem_of_range. apply Hkeys. lia.
Qed.

Lemma cost_cse_plain_inv (its : odict Z (list Temporary)) a b :
  is_Some (_cost_cse (mkLevelDict false its) (Some (a, b))) →
  ∀ i, a ≤ i ≤ b → i ∈ OrderedDict.keys its.
Proof.
  unfold _cost_cse. intros Hsome i Hi.
  apply (restrict_plain_inv its (range a (b + 1))).
  - destruct (restrict _ _) as [[r l]|]; [eauto|by destruct Hsome].
  - apply elem_of_range. lia.
Qed.

(** The best alternative that [_cost_fact] holds for the bounds [b0], [b1]:
    none yet, or a cut at a level above [b0] with a cost below [maxint]. *)
Definition best_in (b0 b1 : Z) (b : Z * Z * Z) : Prop :=
  b.1.1 = b0 ∧ ((b.1.2 = b0 ∧ b.2 = maxint) ∨ (b0 < b.1.2 ≤ b1 ∧ b.2 < maxint)).

Lemma fact_level_spec cse_cost b0 b1 its st lvl ts :
  levels_ok (levels_now st) →
  (∀ t, t ∈ ts → is_Some (OrderedDict.get (new_trace (fact st)) (t_urepr t))) →
  (∀ j, lvl < j ≤ b1 → j ∈ OrderedDict.keys its) →
  b0 < lvl ≤ b1 → best_in b0 b1 (best st) →
  ∃ st', fact_level cse_cost (b0, b1) (mkLevelDict false its) st (lvl, ts) = Some st'
         ∧ grown (levels_now st) (levels_now st')
         ∧ keeps_keys (new_trace (fact st)) (new_trace (fact st'))
         ∧ best_in b0 b1 (best st').
Proof.
  intros Hok Hts Hkeys Hlvl Hbest. unfold fact_level.
  destruct (fact_temporaries_keys ts
              (mkFactState (new_trace (fact st)) (total_outloop_cost (fact st)) 0))
    as (f & -> & Hk); [done|]. simpl.
  destruct (restrict_grown (levels_now st) (range 0 lvl) Hok) as (d' & -> & Hg & _). simpl.
  destruct (cost_cse_plain its (lvl + 1) b1) as (above & ->).
  { intros j Hj. apply Hkeys. lia. }
  simpl. eexists. split; [done|]. simpl. split_and!; [done|done|].
  case_bool_decide as Hlt; [|done].
  destruct Hbest as [_ Hb]. split; [done|]. right. simpl. split; [done|].
  destruct Hb as [[_ Hm]|[_ ?]]; [rewrite Hm in Hlt|]; lia.
Qed.

Lemma fact_levels_fold cse_cost b0 b1 its (L : list (Z * list Temporary)) st :
  levels_ok (levels_now st) →
  (∀ lvl ts, (lvl, ts) ∈ L →
     b0 < lvl ≤ b1
     ∧ (∀ t, t ∈ ts → is_Some (OrderedDict.get (new_trace (fact st)) (t_urepr t)))
     ∧ ∀ j, lvl < j ≤ b1 → j ∈ OrderedDict.keys its) →
  best_in b0 b1 (best st) →
  ∃ st', foldl (λ o lt, st ← o; fact_level cse_cost (b0, b1) (mkLevelDict false its) st lt)
           (Some st) L = Some st'
         ∧ grown (levels_now st) (levels_now st')
         ∧ best_in b0 b1 (best st').
Proof.
  revert st. induction L as [|[lvl ts] L IH]; intros st Hok HL Hbest.
  - exists st. split; [done|]. split; [by apply grown_refl|done].
  - destruct (HL lvl ts) as (Hlvl & Hts & Hkeys); [by left|].
    destruct (fact_level_spec cse_cost b0 b1 its st lvl ts)
      as (st1 & Hst1 & Hg1 & Hk1 & Hb1); [done..|].
    destruct (IH st1) as (st' & Hst' & Hg' & Hb'); [by destruct Hg1| |done|].
    { intros lvl' ts' Hin. destruct (HL lvl' ts') as (? & Hts' & ?); [by right|].
      split; [done|]. split; [|done]. intros t Ht. by apply Hk1, Hts'. }
    exists st'. cbn [foldl mbind option_bind]. rewrite Hst1. split; [done|].
    split; [by eapply grown_trans|done].
Qed.

Lemma elem_of_keys_filter {K V} (Q : K * V → Prop) `{∀ kv, Decision (Q kv)}
    (d : list (K * V)) k :
  k ∈ OrderedDict.keys (filter Q d) ↔ ∃ v, (k, v) ∈ d ∧ Q (k, v).
Proof.
  unfold OrderedDict.keys. rewrite list_elem_of_fmap. split.
  - intros ([k' v] & -> & [HQ Hin]%list_elem_of_filter). by exists v.
  - intros (v & Hin & HQ). exists (k, v). split; [done|]. by apply list_elem_of_filter.
Qed.

Lemma elem_of_level_keys d k : k ∈ level_keys d ↔ ∃ v, (k, v) ∈ items d.
Proof.
  unfold level_keys, OrderedDict.keys. rewrite list_elem_of_fmap. split.
  - intros ([k' v] & -> & Hin). by exists v.
  - intros (v & Hin). by exists (k, v).
Qed.

(** [_cost_fact] on levels that have every level from [b0] to [b1]. *)
Lemma cost_fact_run_spec trace levels b0 b1 :
  levels_ok levels → b0 ≤ b1 →
  (∀ j, b0 ≤ j ≤ b1 → j ∈ level_keys levels) →
  (∀ i t, t ∈ levels_at levels i → is_Some (OrderedDict.get trace (t_urepr t))) →
  ∃ st, cost_fact_run EstimateFlops trace levels (Some (b0, b1)) = Some st
        ∧ grown levels (levels_now st)
        ∧ best_in b0 b1 (best st).
Proof.
  intros Hok Hle Hkeys Hmem. unfold cost_fact_run. simpl.
  rewrite option_guard_True by done. simpl.
  rewrite option_guard_True by (split; apply Hkeys; lia). simpl.
  destruct (py_min_spec (level_keys levels)) as (lo & -> & _ & _).
  { intros Hnil. specialize (Hkeys b0 ltac:(lia)). rewrite Hnil in Hkeys.
    by apply elem_of_nil in Hkeys. }
  simpl.
  destruct (cost_cse_grown levels lo b0 Hok) as (levels1 & -> & Hg1 & Hk1). simpl.
  set (its := filter (λ kv : Z * list Temporary, b0 < kv.1 ∧ kv.1 ≤ b1) (items levels1)).
  destruct (fact_levels_fold (levels_cost levels (range lo (b0 + 1))) b0 b1 its
              (merge_sort by_level its)
              (mkLevelState (b0, b0, maxint)
                 (mkFactState ((λ kv, (kv.1, reconstruct_value EstimateFlops kv.2)) <$> trace)
                    0 0)
                 (levels_cost levels (range lo (b0 + 1))) levels1))
    as (st & Hst & Hg & Hb).
  - by destruct Hg1.
  - intros lvl ts Hin. simpl.
    assert ((lvl, ts) ∈ its) as Hin'.
    { by rewrite <-(merge_sort_Permutation by_level its). }
    apply list_elem_of_filter in Hin' as [Hlvl Hitem]. simpl in Hlvl.
    split; [lia|]. split.
    + intros t Ht. rewrite get_fmap_values. apply fmap_is_Some. apply (Hmem lvl).
      destruct Hg1 as (Hok1 & Hsame1 & _).
      rewrite <-Hsame1, (levels_at_elem levels1 lvl ts); done.
    + intros j Hj. apply elem_of_keys_filter.
      assert (j ∈ level_keys levels1) as [v Hv]%elem_of_level_keys.
      { apply Hk1. left. apply Hkeys. lia. }
      exists v. split; [done|]. simpl. lia.
  - split; [done|]. by left.
  - exists st. split; [done|]. split; [|done]. by eapply grown_trans.
Qed.
End cost_fact_run_facts.
Section cost_model_theorems.
Context (EstimateFlops : TNode → Z).
Local Open Scope Z_scope.
Implicit Types (d : LevelDict) (t : Temporary) (trace : odict Urepr Temporary).

(** X6: [_group_by_level] returns a [defaultdict] whose keys are the levels
    that occur in the trace, each once, and which holds under every key
    the temporaries of that level, in the order of the trace; no key holds
    an empty list. *)
Theorem group_by_level_levels trace :
  default_factory (_group_by_level trace) = true
  ∧ NoDup (level_keys (_group_by_level trace))
  ∧ (∀ i, i ∈ level_keys (_group_by_level trace)
          ↔ ∃ t, t ∈ OrderedDict.values trace ∧ level t = i)
  ∧ ∀ i ts, OrderedDict.get (items (_group_by_level trace)) i = Some ts
            ↔ ts ≠ [] ∧ ts = filter (λ t, level t = i) (OrderedDict.values trace).
Proof.
  destruct (group_by_level_ok trace) as ([Hd Hnd] & Hat & Hk).
  assert (∀ i, i ∈ level_keys (_group_by_level trace)
               ↔ ∃ t, t ∈ OrderedDict.values trace ∧ level t = i) as Hkeys.
  { intros i. rewrite Hk, list_elem_of_fmap. split; intros (t & ? & ?); eauto. }
  split; [done|]. split; [done|]. split; [done|]. intros i ts. split.
  - intros Hget. pose proof (Hat i) as Hi. unfold levels_at in Hi. rewrite Hget in Hi.
    simpl in Hi. split; [|done]. intros ->.
    assert (i ∈ level_keys (_group_by_level trace)) as (t & Ht & Hl)%Hkeys.
    { apply elem_of_keys_get. by rewrite Hget. }
    assert (t ∈ filter (λ t, level t = i) (OrderedDict.values trace)) as Hin
      by by apply list_elem_of_filter.
    rewrite <-Hi in Hin. by apply elem_of_nil in Hin.
  - intros [Hne ->].
    destruct (filter (λ t, level t = i) (OrderedDict.values trace)) as [|t l] eqn:Hf; [done|].
    assert (t ∈ filter (λ t, level t = i) (OrderedDict.values trace)) as Hin
      by (rewrite Hf; by left).
    apply list_elem_of_filter in Hin as [Hl Hin].
    assert (i ∈ level_keys (_group_by_level trace)) as [v Hv]%elem_of_keys_get
      by (apply Hkeys; eauto).
    pose proof (Hat i) as Hi. unfold levels_at in Hi. rewrite Hv in Hi. simpl in Hi.
    by rewrite Hv, Hi, Hf.
Qed.

Lemma levels_cost_filtered d (l : list Temporary) (r : list Z) :
  (∀ i, levels_at d i = filter (λ t, level t = i) l) →
  levels_cost d r = foldr (λ i c, materialized_cost (filter (λ t, level t = i) l) + c) 0 r.
Proof.
  intros Hat. unfold levels_cost. induction r as [|i r IH]; [done|].
  cbn [foldr]. by rewrite IH, Hat.
Qed.

(** X7: when every level of the trace lies between [lo] and [hi], the cost
    [_cost_cse] returns for the bounds ([lo], [hi]) is the cost it returns
    without bounds: the sum of [flops * niters] over all the temporaries
    of the trace.  The call without bounds leaves the dictionary as it
    is; the call with bounds leaves every level from [lo] to [hi] as a
    key, and no other. *)
Theorem cost_cse_whole trace (lo hi : Z) :
  (∀ t, t ∈ OrderedDict.values trace → lo ≤ level t ≤ hi) →
  _cost_cse (_group_by_level trace) None
  = Some (materialized_cost (OrderedDict.values trace), _group_by_level trace)
  ∧ ∃ levels,
      _cost_cse (_group_by_level trace) (Some (lo, hi))
      = Some (materialized_cost (OrderedDict.values trace), levels)
      ∧ (∀ i, levels_at levels i = levels_at (_group_by_level trace) i)
      ∧ ∀ k, k ∈ level_keys levels ↔ lo ≤ k ≤ hi.
Proof.
  intros Hbounds. destruct (group_by_level_ok trace) as (Hok & Hat & Hk). split.
  - rewrite cost_cse_unbounded. do 2 f_equal. rewrite group_by_level_fold.
    rewrite items_cost_group_fold by apply levels_ok_empty. done.
  - destruct (cost_cse_grown (_group_by_level trace) lo hi Hok)
      as (levels & Hrun & (_ & Hsame & _) & Hkeys).
    exists levels. split; [|split; [done|]].
    + rewrite Hrun. do 2 f_equal.
      rewrite (levels_cost_filtered _ (OrderedDict.values trace)) by done.
      apply filtered_cost_total; [apply NoDup_range|].
      intros t Ht. apply elem_of_range. specialize (Hbounds t Ht). lia.
    + intros k. rewrite Hkeys, Hk, list_elem_of_fmap. split; [|by right].
      intros [(t & -> & Ht)|?]; [by apply Hbounds|done].
Qed.

(** X8: on the levels that [_cost_cse] leaves after a call with the bounds
    ([lo], [hi]), and for a trace that holds every temporary under the
    [urepr] of its symbol, [_cost_fact] returns for any bounds [b0 <= b1]
    within [lo] and [hi]: no assertion fails and no key is missing.  The
    triple starts at [b0]; either no level improved on [maxint], and it is
    ([b0], [b0], [maxint]), or it cuts at a level above [b0] and up to
    [b1], at a cost below [maxint]. *)
Theorem cost_fact_returns trace (lo hi cost : Z) (levels : LevelDict) (b0 b1 : Z) :
  (∀ t, t ∈ OrderedDict.values trace → is_Some (OrderedDict.get trace (t_urepr t))) →
  _cost_cse (_group_by_level trace) (Some (lo, hi)) = Some (cost, levels) →
  lo ≤ b0 → b0 ≤ b1 → b1 ≤ hi →
  ∃ l c,
    _cost_fact EstimateFlops trace levels (Some (b0, b1)) = Some (b0, l, c)
    ∧ ((l = b0 ∧ c = maxint) ∨ (b0 < l ≤ b1 ∧ c < maxint)).
Proof.
  intros Hkeyed Hfill Hlo Hle Hhi.
  destruct (group_by_level_ok trace) as (Hok & Hat & Hk).
  destruct (cost_cse_grown (_group_by_level trace) lo hi Hok)
    as (levels' & Hrun & (Hok' & Hsame & _) & Hkeys).
  rewrite Hrun in Hfill. injection Hfill as _ <-.
  destruct (cost_fact_run_spec EstimateFlops trace levels' b0 b1)
    as (st & Hst & _ & Hb0 & Hshape); [done|done| | |].
  - intros j Hj. apply Hkeys. right. lia.
  - intros i t. rewrite Hsame, Hat. intros [_ Ht]%list_elem_of_filter. auto.
  - rewrite cost_fact_run_best, Hst. simpl.
    destruct (best st) as [[a l] c]. simpl in *. subst a. eauto.
Qed.

Lemma foldl_bind_None {A B} (f : A → B → option A) (l : list B) :
  foldl (λ o b, a ← o; f a b) None l = None.
Proof. by induction l. Qed.

(** X9: [_cost_fact] raises when the levels have a gap above a level that
    it visits: if [lvl] is a level strictly between [b0] and [b1] and
    some [j] with [lvl < j <= b1] is not a key of [levels], the lookup of
    [j] in the plain dictionary [fact_levels] fails. *)
Theorem cost_fact_gap_raises trace (levels : LevelDict) (b0 b1 lvl j : Z) :
  default_factory levels = true → NoDup (level_keys levels) →
  lvl ∈ level_keys levels → j ∉ level_keys levels →
  b0 < lvl → lvl < j → j ≤ b1 →
  _cost_fact EstimateFlops trace levels (Some (b0, b1)) = None.
Proof.
  intros Hd Hnd Hlvl Hj H0 H1 H2.
  assert (levels_ok levels) as Hok by done.
  rewrite cost_fact_run_best. unfold cost_fact_run. simpl.
  repeat case_guard; simpl; try done.
  destruct (py_min (level_keys levels)) as [lo|]; simpl; [|done].
  destruct (cost_cse_grown levels lo b0 Hok) as (levels1 & -> & (Hok1 & _ & Hsub) & Hk1).
  simpl.
  set (its := filter (λ kv : Z * list Temporary, b0 < kv.1 ∧ kv.1 ≤ b1) (items levels1)).
  assert (j ∉ OrderedDict.keys its) as Hjits.
  { intros (v & Hv & _)%elem_of_keys_filter.
    assert (j ∈ level_keys levels1) as [?|?]%Hk1 by (apply elem_of_level_keys; eauto);
      [done|lia]. }
  assert (∃ ts, (lvl, ts) ∈ merge_sort by_level its) as [ts Hts].
  { apply Hsub, elem_of_level_keys in Hlvl as [ts Hts]. exists ts.
    rewrite (merge_sort_Permutation by_level its). apply list_elem_of_filter.
    split; [simpl; lia|done]. }
  apply list_elem_of_split in Hts as (L1 & L2 & ->).
  rewrite foldl_app. cbn [foldl].
  match goal with |- context [foldl ?f ?a L1] => destruct (foldl f a L1) as [st|] end;
    cbn [mbind option_bind]; [|by rewrite foldl_bind_None].
  assert (fact_level (levels_cost levels (range lo (b0 + 1))) (b0, b1)
            (mkLevelDict false its) st (lvl, ts) = None) as ->.
  { unfold fact_level.
    destruct (foldl _ _ ts) as [f|]; simpl; [|done].
    destruct (restrict (levels_now st) (range 0 lvl)) as [[lower lv]|]; simpl; [|done].
    destruct (_cost_cse (mkLevelDict false its) (Some (lvl + 1, b1))) as [[above ?]|] eqn:Hc;
      simpl; [|done].
    exfalso. apply Hjits. apply (cost_cse_plain_inv its (lvl + 1) b1); [by rewrite Hc|lia]. }
  by rewrite foldl_bind_None.
Qed.
End cost_model_theorems.
Section search_facts.
Context (EstimateFlops : TNode → Z).
Local Open Scope Z_scope.
Implicit Types (d : LevelDict) (t : Temporary) (trace : odict Urepr Temporary).

(** What the search of [unpick] keeps from one level to the next: the
    levels still hold the temporaries of the trace, every level from [mn]
    to [mx] is a key, and the best alternative so far lies within [mn]
    and [mx] and costs less than [cur] unless it transforms nothing. *)
Definition search_inv trace (mn mx cur : Z) (acc : Z * Z * Z * LevelDict) : Prop :=
  levels_ok acc.2
  ∧ (∀ j, mn ≤ j ≤ mx → j ∈ level_keys acc.2)
  ∧ (∀ i, levels_at acc.2 i = filter (λ t, level t = i) (OrderedDict.values trace))
  ∧ mn ≤ acc.1.1.1 ∧ acc.1.1.1 ≤ acc.1.1.2 ∧ acc.1.1.2 ≤ mx
  ∧ acc.1.2 ≤ cur
  ∧ (acc.1.1.1 < acc.1.1.2 → acc.1.2 < cur).

Lemma try_level_spec trace mn mx cur acc i :
  (∀ t, t ∈ OrderedDict.values trace → is_Some (OrderedDict.get trace (t_urepr t))) →
  search_inv trace mn mx cur acc → mn ≤ i ≤ mx →
  ∃ acc', try_level EstimateFlops trace mx (Some acc) i = Some acc'
          ∧ search_inv trace mn mx cur acc'.
Proof.
  intros Hkeyed (Hok & Hkeys & Hat & Hmn & Hab & Hmx & Hcur & Hlt) Hi.
  destruct acc as [gb levels]. simpl in *.
  destruct (cost_fact_run_spec EstimateFlops trace levels i mx)
    as (st & Hst & (Hok' & Hsame & Hsub) & Hb0 & Hshape); [done|lia| | |].
  - intros j Hj. apply Hkeys. lia.
  - intros k t. rewrite Hat. intros [_ Ht]%list_elem_of_filter. auto.
  - unfold try_level. simpl. rewrite Hst. simpl. eexists. split; [done|].
    unfold search_inv. simpl. split; [done|]. split; [auto|]. split.
    { intros k. by rewrite Hsame. }
    case_bool_decide as Hbetter; [|done].
    destruct (best st) as [[a' l'] c']. simpl in *.
    destruct Hshape as [[? ?]|[? ?]]; split_and!; lia.
Qed.

Lemma try_levels_spec trace mn mx cur acc (ks : list Z) :
  (∀ t, t ∈ OrderedDict.values trace → is_Some (OrderedDict.get trace (t_urepr t))) →
  search_inv trace mn mx cur acc → (∀ i, i ∈ ks → mn ≤ i ≤ mx) →
  ∃ acc', foldl (try_level EstimateFlops trace mx) (Some acc) ks = Some acc'
          ∧ search_inv trace mn mx cur acc'.
Proof.
  intros Hkeyed. revert acc. induction ks as [|i ks IH]; intros acc Hinv Hks.
  - by exists acc.
  - destruct (try_level_spec trace mn mx cur acc i) as (acc1 & Hacc1 & Hinv1);
      [done|done|apply Hks; by left|].
    destruct (IH acc1) as (acc' & Hacc' & Hinv'); [done|intros; apply Hks; by right|].
    exists acc'. cbn [foldl]. by rewrite Hacc1.
Qed.

(** X10: for a trace that holds every temporary under the [urepr] of its
    symbol, the search of [unpick] returns exactly when the trace is not
    empty (on an empty trace [min] raises).  The triple ([a], [b], [c])
    it returns has [a <= b], both between the least and the greatest level
    of the trace; [c] is at most the cost of leaving every temporary as it
    is, and strictly less whenever [a < b].  The levels transformed are
    those above [a] up to [b], so that nothing is transformed unless the
    cost model predicts a strict gain; and [levels] still holds under
    every level the temporaries of the trace at that level. *)
Theorem best_alternative_returns trace :
  (∀ t, t ∈ OrderedDict.values trace → is_Some (OrderedDict.get trace (t_urepr t))) →
  (is_Some (best_alternative EstimateFlops trace) ↔ trace ≠ [])
  ∧ ∀ a b c levels,
      best_alternative EstimateFlops trace = Some (a, b, c, levels) →
      a ≤ b
      ∧ (∃ t, t ∈ OrderedDict.values trace ∧ level t ≤ a)
      ∧ (∃ t, t ∈ OrderedDict.values trace ∧ b ≤ level t)
      ∧ c ≤ materialized_cost (OrderedDict.values trace)
      ∧ (a < b → c < materialized_cost (OrderedDict.values trace))
      ∧ (∀ i, i ∈ transformed_levels (a, b, c) ↔ a < i ≤ b)
      ∧ ∀ i, levels_at levels i = filter (λ t, level t = i) (OrderedDict.values trace).
Proof.
  intros Hkeyed.
  destruct trace as [|kv trace'] eqn:Htrace.
  { split; [|done]. split; [by intros [? ?]|done]. }
  rewrite <-Htrace in *.
  assert (trace ≠ []) as Hne by by rewrite Htrace.
  assert (OrderedDict.values trace ≠ []) as Hvalues by by rewrite Htrace.
  clear Htrace kv trace'.
  destruct (group_by_level_ok trace) as (Hok & Hat & Hk).
  assert (level_keys (_group_by_level trace) ≠ []) as Hkne.
  { destruct (OrderedDict.values trace) as [|t l] eqn:Hv; [done|].
    intros Hnil. assert (level t ∈ level_keys (_group_by_level trace)) as Hin.
    { apply Hk. rewrite fmap_cons. by left. }
    rewrite Hnil in Hin. by apply elem_of_nil in Hin. }
  destruct (py_min_spec _ Hkne) as (mn & Hmn & Hmnin & Hmnle).
  destruct (py_max_spec _ Hkne) as (mx & Hmx & Hmxin & Hmxge).
  assert (∀ t, t ∈ OrderedDict.values trace → mn ≤ level t ≤ mx) as Hbounds.
  { intros t Ht. assert (level t ∈ level_keys (_group_by_level trace)) as Hin.
    { apply Hk, list_elem_of_fmap. eauto. }
    split; [by apply Hmnle|by apply Hmxge]. }
  destruct (cost_cse_grown (_group_by_level trace) mn mx Hok)
    as (levels1 & Hrun & (Hok1 & Hsame1 & _) & Hkeys1).
  assert (levels_cost (_group_by_level trace) (range mn (mx + 1))
          = materialized_cost (OrderedDict.values trace)) as Hcost.
  { rewrite (levels_cost_filtered _ (OrderedDict.values trace)) by done.
    apply filtered_cost_total; [apply NoDup_range|].
    intros t Ht. apply elem_of_range. specialize (Hbounds t Ht). lia. }
  rewrite Hcost in Hrun.
  destruct (try_levels_spec trace mn mx (materialized_cost (OrderedDict.values trace))
              (mn, mn, materialized_cost (OrderedDict.values trace), levels1)
              (merge_sort Z.le (level_keys levels1)))
    as ([[[a b] c] levels] & Hfold & Hinv); [done| | |].
  - unfold search_inv. simpl. split; [done|]. split.
    { intros j Hj. apply Hkeys1. by right. }
    split; [intros i; by rewrite Hsame1|].
    apply Hk, list_elem_of_fmap in Hmnin as (t1 & Ht1 & Hin1).
    specialize (Hbounds t1 Hin1). split_and!; lia.
  - intros i Hi. rewrite (merge_sort_Permutation Z.le (level_keys levels1)) in Hi.
    apply Hkeys1 in Hi as [Hi|?]; [|done].
    apply Hk, list_elem_of_fmap in Hi as (t & -> & Ht). by apply Hbounds.
  - assert (best_alternative EstimateFlops trace = Some (a, b, c, levels)) as Hbest.
    { unfold best_alternative. rewrite Hmn. simpl. rewrite Hmx. simpl. rewrite Hrun. simpl.
      exact Hfold. }
    split; [by rewrite Hbest|].
    intros a' b' c' levels'. rewrite Hbest. intros [= <- <- <- <-].
    destruct Hinv as (_ & _ & Hat' & Ha & Hab & Hb & Hc & Hlt). simpl in *.
    apply Hk, list_elem_of_fmap in Hmnin as (t1 & Ht1 & Hin1).
    apply Hk, list_elem_of_fmap in Hmxin as (t2 & Ht2 & Hin2).
    split_and!; [done| | |done|done| |done].
    + exists t1. split; [done|lia].
    + exists t2. split; [done|lia].
    + intros i. unfold transformed_levels. simpl. rewrite elem_of_range. lia.
Qed.
End search_facts.
Ltac by_computation := refine (bool_decide_unpack _ _); vm_compute; exact I.

Lemma cost_cse_whole_witness :
  (∀ t, t ∈ OrderedDict.values traced → (-1 ≤ level t ≤ 1)%Z)
  ∧ _cost_cse (_group_by_level traced) None
    = Some (materialized_cost (OrderedDict.values traced), _group_by_level traced)
  ∧ ∃ levels,
      _cost_cse (_group_by_level traced) (Some (-1, 1)%Z)
      = Some (materialized_cost (OrderedDict.values traced), levels)
      ∧ (∀ i, levels_at levels i = levels_at (_group_by_level traced) i)
      ∧ ∀ k, k ∈ level_keys levels ↔ (-1 ≤ k ≤ 1)%Z.
Proof.
  assert (∀ t, t ∈ OrderedDict.values traced → (-1 ≤ level t ≤ 1)%Z) as Hbounds.
  { apply list.Forall_forall. by_computation. }
  split; [exact Hbounds|].
  exact (cost_cse_whole traced (-1) 1 Hbounds).
Defined.

Lemma cost_fact_returns_witness :
  (∀ t, t ∈ OrderedDict.values traced → is_Some (OrderedDict.get traced (t_urepr t)))
  ∧ _cost_cse (_group_by_level traced) (Some (-1, 1)%Z)
    = Some (traced_filled.1, traced_filled.2)
  ∧ (-1 ≤ -1)%Z ∧ (-1 ≤ 1)%Z ∧ (1 ≤ 1)%Z
  ∧ ∃ l c,
      _cost_fact flops_of traced traced_filled.2 (Some (-1, 1)%Z) = Some ((-1)%Z, l, c)
      ∧ ((l = (-1)%Z ∧ c = maxint) ∨ ((-1 < l ≤ 1)%Z ∧ (c < maxint)%Z)).
Proof.
  assert (∀ t, t ∈ OrderedDict.values traced
               → is_Some (OrderedDict.get traced (t_urepr t))) as Hkeyed.
  { apply list.Forall_forall. by_computation. }
  assert (_cost_cse (_group_by_level traced) (Some (-1, 1)%Z)
          = Some (traced_filled.1, traced_filled.2)) as Hfill by (vm_compute; reflexivity).
  split; [exact Hkeyed|]. split; [exact Hfill|]. split; [lia|]. split; [lia|].
  split; [lia|].
  apply (cost_fact_returns flops_of traced (-1) 1 traced_filled.1 traced_filled.2 (-1) 1
           Hkeyed Hfill); lia.
Defined.

Lemma cost_fact_gap_raises_witness :
  default_factory (_group_by_level Gap.traced_gap) = true
  ∧ NoDup (level_keys (_group_by_level Gap.traced_gap))
  ∧ (0%Z ∈ level_keys (_group_by_level Gap.traced_gap))
  ∧ (1%Z ∉ level_keys (_group_by_level Gap.traced_gap))
  ∧ (-1 < 0)%Z ∧ (0 < 1)%Z ∧ (1 ≤ 2)%Z
  ∧ _cost_fact flops_of Gap.traced_gap (_group_by_level Gap.traced_gap) (Some (-1, 2)%Z)
    = None.
Proof.
  assert (default_factory (_group_by_level Gap.traced_gap) = true) as Hd
    by (vm_compute; reflexivity).
  assert (NoDup (level_keys (_group_by_level Gap.traced_gap))) as Hnd by by_computation.
  assert (0%Z ∈ level_keys (_group_by_level Gap.traced_gap)) as H0 by by_computation.
  assert (1%Z ∉ level_keys (_group_by_level Gap.traced_gap)) as H1 by by_computation.
  split; [exact Hd|]. split; [exact Hnd|]. split; [exact H0|]. split; [exact H1|].
  split; [lia|]. split; [lia|]. split; [lia|].
  apply (cost_fact_gap_raises flops_of Gap.traced_gap (_group_by_level Gap.traced_gap)
           (-1) 2 0 1 Hd Hnd H0 H1); lia.
Defined.

Lemma best_alternative_returns_witness :
  (∀ t, t ∈ OrderedDict.values traced → is_Some (OrderedDict.get traced (t_urepr t)))
  ∧ (is_Some (best_alternative flops_of traced) ↔ traced ≠ [])
  ∧ ∀ a b c levels,
      best_alternative flops_of traced = Some (a, b, c, levels) →
      (a ≤ b)%Z
      ∧ (∃ t, t ∈ OrderedDict.values traced ∧ (level t ≤ a)%Z)
      ∧ (∃ t, t ∈ OrderedDict.values traced ∧ (b ≤ level t)%Z)
      ∧ (c ≤ materialized_cost (OrderedDict.values traced))%Z
      ∧ ((a < b)%Z → (c < materialized_cost (OrderedDict.values traced))%Z)
      ∧ (∀ i, i ∈ transformed_levels (a, b, c) ↔ (a < i ≤ b)%Z)
      ∧ ∀ i, levels_at levels i = filter (λ t, level t = i) (OrderedDict.values traced).
Proof.
  assert (∀ t, t ∈ OrderedDict.values traced
               → is_Some (OrderedDict.get traced (t_urepr t))) as Hkeyed.
  { apply list.Forall_forall. by_computation. }
  split; [exact Hkeyed|].
  exact (best_alternative_returns flops_of traced Hkeyed).
Defined.
(** ** The rewriter: what every mode returns *)
Section rewriter_returns.
Context `{Collaborators World}.
Implicit Types (self : ExpressionRewriter) (s : Session World).

(** The modes that [expand], [factorize] and [licm] know. *)
Definition expand_modes : list string :=
  ["standard"; "dimensions"; "all"; "linear"; "outlinear"].
Definition factorize_modes : list string :=
  ["standard"; "dimensions"; "adhoc"; "heuristic"; "all"; "linear"; "outlinear";
   "constants"].
Definition licm_modes : list string :=
  ["normal"; "reductions"; "incremental"; "only_const"; "only_outlinear"; "only_linear";
   "aggressive"].

Lemma expand_cases self mode kwargs s :
  ((mode ∈ expand_modes)
   ∧ (expand self mode kwargs s).1 = Self
   ∧ warnings (expand self mode kwargs s).2 = warnings s)
  ∨ ((mode ∉ expand_modes)
     ∧ expand self mode kwargs s
       = (PyNone, warn "Skipping unknown expansion strategy." (called self (OpExpand mode) s))).
Proof.
  destruct (decide (mode ∈ expand_modes)) as [Hin|Hnot]; [left|right]; (split; [done|]).
  - unfold expand_modes in Hin.
    repeat (apply elem_of_cons in Hin as [->|Hin]); [..|by apply elem_of_nil in Hin];
      unfold expand; simpl; try done.
    by destruct (standard_dimension _ _).
  - unfold expand, expand_modes in *.
    rewrite !bool_decide_eq_false_2; [done|..]; intros Hm; apply Hnot;
      first [subst mode; by repeat constructor
            |repeat (apply elem_of_cons in Hm as [->|Hm]);
               [by repeat constructor..|by apply elem_of_nil in Hm]].
Qed.

Lemma factorize_cases self mode kwargs s :
  ((mode ∈ factorize_modes)
   ∧ (factorize self mode kwargs s).1 = Self
   ∧ warnings (factorize self mode kwargs s).2 = warnings s)
  ∨ ((mode ∉ factorize_modes)
     ∧ factorize self mode kwargs s
       = (PyNone, warn "Skipping unknown factorization strategy."
                    (called self (OpFactorize mode) s))).
Proof.
  destruct (decide (mode ∈ factorize_modes)) as [Hin|Hnot]; [left|right]; (split; [done|]).
  - unfold factorize_modes in Hin.
    repeat (apply elem_of_cons in Hin as [->|Hin]); [..|by apply elem_of_nil in Hin];
      unfold factorize; simpl; try done.
    + by destruct (standard_dimension _ _).
    + by destruct (adhoc kwargs) as [[|]|].
  - unfold factorize, factorize_modes in *.
    rewrite !bool_decide_eq_false_2; [done|..]; intros Hm; apply Hnot;
      first [subst mode; by repeat constructor
            |repeat (apply elem_of_cons in Hm as [->|Hm]);
               [by repeat constructor..|by apply elem_of_nil in Hm]].
Qed.

Lemma snoc_ne {A} (l : list A) x : l ++ [x] ≠ l.
Proof.
  intros Heq. apply (f_equal length) in Heq. rewrite length_app in Heq. simpl in Heq. lia.
Qed.

(** X11: [expand] returns the rewriter exactly for its five modes and
    [factorize] exactly for its eight; for any other mode they return
    [None].  A warning is logged exactly in the second case, and then the
    expression is left as it was; neither ever raises. *)
Theorem expand_factorize_return self mode kwargs s :
  ((expand self mode kwargs s).1 = Self ↔ mode ∈ expand_modes)
  ∧ ((expand self mode kwargs s).1 = PyNone ↔ mode ∉ expand_modes)
  ∧ (warnings (expand self mode kwargs s).2 = warnings s ↔ mode ∈ expand_modes)
  ∧ (mode ∉ expand_modes → world (expand self mode kwargs s).2 = world s)
  ∧ ((factorize self mode kwargs s).1 = Self ↔ mode ∈ factorize_modes)
  ∧ ((factorize self mode kwargs s).1 = PyNone ↔ mode ∉ factorize_modes)
  ∧ (warnings (factorize self mode kwargs s).2 = warnings s ↔ mode ∈ factorize_modes)
  ∧ (mode ∉ factorize_modes → world (factorize self mode kwargs s).2 = world s).
Proof.
  destruct (expand_cases self mode kwargs s) as [(He & -> & ->)|[He ->]];
    destruct (factorize_cases self mode kwargs s) as [(Hf & -> & ->)|[Hf ->]]; simpl;
    split_and!; try done; try (split; done);
    try (split; [intros ?%snoc_ne; done|done]).
Qed.
End rewriter_returns.
Section licm_returns.
Context `{Collaborators World}.
Implicit Types (self : ExpressionRewriter) (s : Session World).
Local Open Scope Z_scope.

Lemma warnings_foldl_on_world {A} (f : A → World → World) (l : list A) s :
  warnings (foldl (λ s a, on_world (f a) s) s l) = warnings s.
Proof. revert s. induction l as [|a l IH]; intros s; [done|]. simpl. by rewrite IH. Qed.

Lemma sweeps_nil (d : Z) : seqZ 1 (d - 1) = [] ↔ ¬ 2 ≤ d.
Proof.
  split.
  - intros Hnil Hd. rewrite seqZ_cons in Hnil by lia. done.
  - intros Hd. apply seqZ_nil. lia.
Qed.

(** When [licm] stops at the bare [return] of the mode ['reductions'], and
    when a keyword is passed twice. *)
Definition licm_gives_up self (mode : string) : Prop :=
  mode = "reductions"
  ∧ ∃ c, last (reduction_loops (expr_info self)) = Some c ∧ size c = 1.
Definition licm_repeats_keyword self (mode : string) (kwargs : Kwargs) : Prop :=
  (mode = "incremental" ∧ is_Some (kw_lda kwargs) ∧ 2 ≤ dimension (expr_info self))
  ∨ (mode = "aggressive" ∧ is_Some (with_promotion kwargs)).

(** What [licm] returns, and whether it logs a warning, mode by mode. *)
Lemma licm_cases self mode kwargs s :
  ((mode ∉ licm_modes)
   ∧ licm self mode kwargs s
     = (Self, warn "Skipping unknown licm strategy." (called self (OpLicm mode) s)))
  ∨ ((mode ∈ licm_modes)
     ∧ warnings (licm self mode kwargs s).2 = warnings s
     ∧ (((licm self mode kwargs s).1 = PyNone ∧ licm_gives_up self mode)
        ∨ ((licm self mode kwargs s).1 = Raised "TypeError"
           ∧ licm_repeats_keyword self mode kwargs)
        ∨ ((licm self mode kwargs s).1 = Self
           ∧ ¬ licm_gives_up self mode ∧ ¬ licm_repeats_keyword self mode kwargs))).
Proof.
  assert (∀ m : string, m ≠ "reductions" → ¬ licm_gives_up self m) as Hnone.
  { intros m Hm [? _]. done. }
  assert (∀ m : string, m ≠ "incremental" → m ≠ "aggressive" →
            ¬ licm_repeats_keyword self m kwargs) as Hraise.
  { intros m Hm1 Hm2 [[? _]|[? _]]; done. }
  destruct (decide (mode ∈ licm_modes)) as [Hin|Hnot]; [right|left]; (split; [done|]).
  - unfold licm_modes in Hin.
    repeat (apply elem_of_cons in Hin as [->|Hin]); [..|by apply elem_of_nil in Hin];
      unfold licm; simpl.
    + split; [done|]. right. right. split; [done|]. split; [by apply Hnone|by apply Hraise].
    + destruct (last (reduction_loops (expr_info self))) as [c|] eqn:Hlast.
      * case_bool_decide as Hsize; simpl.
        -- split; [done|]. left. split; [done|]. split; [done|]. eauto.
        -- split; [done|]. right. right. split; [done|].
           split; [|by apply Hraise]. intros [_ (c' & ? & ?)]. congruence.
      * split; [done|]. right. right. split; [done|].
        split; [|by apply Hraise]. intros [_ (c' & ? & ?)]. congruence.
    + destruct (seqZ 1 (dimension (expr_info self) - 1)) as [|i sweeps] eqn:Hsweeps.
      * split; [done|]. right. right. split; [done|]. split; [by apply Hnone|].
        apply sweeps_nil in Hsweeps. intros [(_ & _ & ?)|[? _]]; done.
      * assert (2 ≤ dimension (expr_info self)) as Hdim.
        { destruct (decide (2 ≤ dimension (expr_info self))) as [?|Hd]; [done|].
          apply sweeps_nil in Hd. by rewrite Hd in Hsweeps. }
        unfold set_lda. destruct (kw_lda kwargs) as [lda|] eqn:Hlda; simpl.
        -- split; [done|]. right. left. split; [done|]. left. eauto.
        -- split.
           ++ by rewrite (warnings_foldl_on_world
                            (λ i, (if look_ahead kwargs then Hoister_extract else Hoister_licm)
                                    (stmt self) (expr_info self) _ _)).
           ++ right. right. split; [done|]. split; [by apply Hnone|].
              intros [(_ & [? ?] & _)|(? & _)]; [congruence|done].
    + split; [done|]. right. right. split; [done|]. split; [by apply Hnone|by apply Hraise].
    + split; [done|]. right. right. split; [done|]. split; [by apply Hnone|by apply Hraise].
    + split; [done|]. right. right. split; [done|]. split; [by apply Hnone|by apply Hraise].
    + unfold set_promotion. destruct (with_promotion kwargs) as [b|] eqn:Hp; simpl.
      * split; [done|]. right. left. split; [done|]. right. eauto.
      * split; [done|]. right. right. split; [done|]. split; [by apply Hnone|].
        intros [(? & _)|(_ & [? ?])]; [done|congruence].
  - unfold licm, licm_modes in *.
    rewrite !bool_decide_eq_false_2; [done|..]; intros Hm; apply Hnot;
      subst mode; by repeat constructor.
Qed.

End licm_returns.
(** ** The sharing graph: what is selected, and when the program has a
    solution *)
Section selection_facts.
Implicit Types (terms : list (list Urepr)) (u v : Urepr).

Lemma add_summands_edges acc terms e :
  e ∈ (foldl add_summand acc terms).2 ↔ e ∈ acc.2 ∨ ∃ t, t ∈ terms ∧ e ∈ combinations t.
Proof.
  revert acc. induction terms as [|t terms IH]; intros acc.
  - simpl. split; [by left|]. intros [?|(t & ?%elem_of_nil & _)]; done.
  - cbn [foldl]. rewrite IH. simpl. rewrite elem_of_app. split.
    + intros [[?|?]|(t' & ? & ?)]; [by left|right; exists t|right; exists t'];
        (split; [|done]); [by left|by right].
    + intros [?|(t' & [->|?]%elem_of_cons & ?)]; [left; by left|left; by right|].
      right. by exists t'.
Qed.

Lemma sharing_graph_edges terms e :
  e ∈ (sharing_graph terms).2 ↔ ∃ t, t ∈ terms ∧ e ∈ combinations t.
Proof.
  unfold sharing_graph. rewrite add_summands_edges. simpl. split; [|by right].
  by intros [?%elem_of_nil|?].
Qed.

Lemma combinations_NoDup {A} (l : list A) x : NoDup l → (x, x) ∉ combinations l.
Proof.
  induction l as [|z l IH]; simpl; [by intros _ ?%elem_of_nil|].
  intros [Hz Hl]%NoDup_cons [(y & [= -> ->] & Hy)%list_elem_of_fmap|Hin]%elem_of_app.
  - done.
  - by apply IH.
Qed.

Lemma no_loop_iff terms :
  (∀ u, (u, u) ∉ (sharing_graph terms).2) ↔ ∀ t, t ∈ terms → NoDup t.
Proof.
  split.
  - intros Hno t Ht. apply combinations_no_loop. intros x Hx. apply (Hno x).
    apply sharing_graph_edges. eauto.
  - intros Hnd u (t & Ht & Hin)%sharing_graph_edges.
    by apply (combinations_NoDup t u (Hnd t Ht)).
Qed.

Lemma elem_of_graph_nodes (edges : list (Urepr * Urepr)) u :
  u ∈ graph_nodes edges ↔ ∃ v, (u, v) ∈ edges ∨ (v, u) ∈ edges.
Proof.
  unfold graph_nodes. rewrite elem_of_remove_dups, list_elem_of_bind. split.
  - intros ([a b] & Hu & Hin). simpl in Hu.
    apply elem_of_cons in Hu as [->|Hu]; [exists b; by left|].
    apply list_elem_of_singleton in Hu as ->. exists a. by right.
  - intros (v & [Hin|Hin]); [exists (u, v)|exists (v, u)]; (split; [|done]); simpl.
    + by left.
    + right. by left.
Qed.

Lemma connected_nodes_nil terms : connected_nodes terms = [] ↔ (sharing_graph terms).2 = [].
Proof.
  split.
  - intros Hnil. destruct (sharing_graph terms).2 as [|[u v] edges] eqn:He; [done|].
    destruct (sharing_graph_endpoints terms u v) as [Hu _]; [rewrite He; by left|].
    rewrite Hnil in Hu. by apply elem_of_nil in Hu.
  - intros He. unfold connected_nodes. rewrite He.
    induction (sharing_graph terms).1 as [|n ns IH]; [done|].
    rewrite filter_cons, decide_False; [done|]. by intros ?%elem_of_nil.
Qed.

Section selection.
Context (solve : LpProblem → Solution) (other_dims : list string).

(** [select_pivots] never fails: every endpoint of an edge has a number. *)
Lemma select_pivots_total terms :
  ∃ sel,
    select_pivots solve other_dims terms = Some sel
    ∧ isolated sel
      = filter (λ n, n ∉ graph_nodes (sharing_graph terms).2) (sharing_graph terms).1
    ∧ (solved sel = false ↔ connected_nodes terms = [])
    ∧ (solved sel = false → pivots sel = [] ∧ other_nodes sel = [])
    ∧ (∀ u, u ∈ pivots sel → u ∈ connected_nodes terms)
    ∧ other_nodes sel = filter (λ n, n ∉ pivots sel) (connected_nodes terms).
Proof.
  destruct (indexed_edges_spec terms) as (edges & Hedges & _ & _).
  destruct (decide (connected_nodes terms = [])) as [Hempty|Hnonempty].
  { unfold select_pivots. rewrite Hempty. eexists. split; [done|]. simpl.
    split_and!; done. }
  assert (select_pivots solve other_dims terms =
    prob ← first_program terms;
    x ← (if bool_decide (1 < length other_dims) then
           prob2 ← second_program other_dims terms;
           Some (if bool_decide (status (solve prob2) = Optimal)
                 then solve prob2 else solve prob)
         else Some (solve prob));
    let nodes := omap (λ i, if bool_decide (value x (VarX i) = 1%Z)
                            then connected_nodes terms !! i else None)
                      (seq 0 (length (connected_nodes terms))) in
    Some (mkSelection true
            (filter (λ n, n ∉ graph_nodes (sharing_graph terms).2) (sharing_graph terms).1)
            nodes (filter (λ n, n ∉ nodes) (connected_nodes terms)))) as ->.
  { unfold select_pivots. by destruct (connected_nodes terms). }
  set (p1 := setup (length (connected_nodes terms)) edges).
  assert (first_program terms = Some p1) as Hp1.
  { unfold first_program. by rewrite Hedges. }
  assert (second_program other_dims terms
          = Some (foldl add_zero p1 (zeroed other_dims terms))) as Hp2.
  { unfold second_program. by rewrite Hp1. }
  rewrite Hp1. cbn [mbind option_bind]. rewrite Hp2. cbn [mbind option_bind].
  assert (∃ x, (if bool_decide (1 < length other_dims)
           then Some (if bool_decide
                           (status (solve (foldl add_zero p1 (zeroed other_dims terms)))
                            = Optimal)
                      then solve (foldl add_zero p1 (zeroed other_dims terms))
                      else solve p1)
           else Some (solve p1)) = Some x) as [x ->].
  { case_bool_decide; eauto. }
  cbn [mbind option_bind]. eexists. split; [done|]. cbn [solved isolated pivots other_nodes].
  split; [done|]. split; [done|]. split; [done|]. split; [|done].
  intros u (i & _ & Hi)%list_elem_of_omap. case_bool_decide; [|done].
  by eapply list_elem_of_lookup_2.
Qed.

(** X13: [sharing_graph_rewrite] always gets its selection: no lookup in
    [vars_nodes] fails.  There is a program to solve exactly when the
    graph has an edge.  The isolated nodes are the nodes that no edge
    touches; the pivots and the other nodes are, between them, the nodes
    that some edge touches, and no pivot is among the other nodes. *)
Theorem select_pivots_partition terms :
  ∃ sel,
    select_pivots solve other_dims terms = Some sel
    ∧ (solved sel = false ↔ (sharing_graph terms).2 = [])
    ∧ (solved sel = false → pivots sel = [] ∧ other_nodes sel = [])
    ∧ (∀ u, u ∈ isolated sel
            ↔ u ∈ (sharing_graph terms).1
              ∧ ∀ v, ((u, v) ∉ (sharing_graph terms).2) ∧ ((v, u) ∉ (sharing_graph terms).2))
    ∧ (∀ u, u ∈ pivots sel ∨ u ∈ other_nodes sel
            ↔ u ∈ (sharing_graph terms).1
              ∧ ∃ v, (u, v) ∈ (sharing_graph terms).2 ∨ (v, u) ∈ (sharing_graph terms).2)
    ∧ ∀ u, u ∈ pivots sel → u ∉ other_nodes sel.
Proof.
  destruct (select_pivots_total terms) as (sel & Hsel & Hiso & Hsolved & Hnone & Hpiv & Hother).
  exists sel. split; [done|]. split; [by rewrite Hsolved, connected_nodes_nil|].
  split; [done|]. split; [|split].
  - intros u. rewrite Hiso, list_elem_of_filter, elem_of_graph_nodes. split.
    + intros [Hno Hu]. split; [done|]. intros v. split; intros Hin; apply Hno; eauto.
    + intros [Hu Hno]. split; [|done]. intros (v & [Hin|Hin]); by destruct (Hno v).
  - intros u. rewrite Hother, list_elem_of_filter.
    unfold connected_nodes in *. setoid_rewrite list_elem_of_filter in Hpiv.
    rewrite <-elem_of_graph_nodes. split.
    + intros [Hu%Hpiv|[_ [? ?]%list_elem_of_filter]]; [by destruct Hu|done].
    + intros [Hu Hg]. destruct (decide (u ∈ pivots sel)); [by left|right].
      split; [done|]. by apply list_elem_of_filter.
  - intros u Hu. rewrite Hother. by intros [? _]%list_elem_of_filter.
Qed.
End selection.

(** X14: the program that [setup()] builds for the sharing graph has a
    solution exactly when no summand has the same linear symbol twice: a
    symbol multiplied by itself gives an edge from a node to itself, whose
    constraint [y[(i, i)] + y[(i, i)] == 1] no binary value satisfies;
    otherwise selecting every node is a solution. *)
Theorem first_program_feasible terms :
  ∃ prob,
    first_program terms = Some prob
    ∧ ((∃ a, feasible prob a) ↔ ∀ t, t ∈ terms → NoDup t).
Proof.
  destruct (indexed_edges_spec terms) as (edges & Hedges & Hback & Hforth).
  exists (setup (length (connected_nodes terms)) edges). split.
  { unfold first_program. by rewrite Hedges. }
  rewrite <-no_loop_iff. split.
  - intros [a Ha] u Huu. destruct (Hforth u u Huu) as (i & j & Hij & Hi & Hj).
    rewrite Hi in Hj. injection Hj as <-. by apply (feasible_no_loop _ _ _ i Ha).
  - intros Hno. exists (assignment_of (λ _, true)). apply cover_feasible.
    intros i j Hij. split; [|by left]. intros ->.
    destruct (Hback j j Hij) as (u & v & Huv & Hu & Hv).
    rewrite Hu in Hv. injection Hv as <-. by apply (Hno u).
Qed.
End selection_facts.
(** ** The callers of the rewriter *)
Section driver_returns.
Context `{Collaborators World}.
Context (sorted_by_rank sorted_plain : list Urepr → list Urepr).
Implicit Types (self : ExpressionRewriter) (s : Session World).

Lemma warnings_expand_known self mode kwargs s :
  mode ∈ expand_modes → warnings (expand self mode kwargs s).2 = warnings s.
Proof. intros Hin. by destruct (expand_cases self mode kwargs s) as [(_ & _ & ?)|[? _]]. Qed.

Lemma warnings_factorize_known self mode kwargs s :
  mode ∈ factorize_modes → warnings (factorize self mode kwargs s).2 = warnings s.
Proof. intros Hin. by destruct (factorize_cases self mode kwargs s) as [(_ & _ & ?)|[? _]]. Qed.

Lemma warnings_licm_known self mode kwargs s :
  mode ∈ licm_modes → warnings (licm self mode kwargs s).2 = warnings s.
Proof. intros Hin. by destruct (licm_cases self mode kwargs s) as [[? _]|(_ & ? & _)]. Qed.

Lemma warnings_foldl {A} (f : Session World → A → Session World) (l : list A) s :
  (∀ s a, warnings (f s a) = warnings s) → warnings (foldl f s l) = warnings s.
Proof.
  intros Hf. revert s. induction l as [|a l IH]; intros s; [done|].
  simpl. by rewrite IH, Hf.
Qed.



Lemma warnings_expand_and_factorize lda s t :
  warnings (expand_and_factorize lda s t) = warnings s.
Proof.
  unfold expand_and_factorize.
  rewrite warnings_factorize_known by (by repeat constructor).
  rewrite warnings_factorize_known by (by repeat constructor).
  rewrite warnings_expand_known by (by repeat constructor). done.
Qed.

(** X15: [_transform_temporaries] logs no warning: every mode it passes
    to [expand], [factorize] and [licm] is one that the method knows. *)
Theorem transform_logs_no_warning (exprs : list nat) (temporaries : list Temporary) s :
  warnings (_transform_temporaries exprs temporaries s) = warnings s.
Proof.
  unfold _transform_temporaries.
  rewrite warnings_foldl.
  - apply warnings_foldl. intros. apply warnings_expand_and_factorize.
  - intros. apply warnings_licm_known. by repeat constructor.
Qed.

End driver_returns.
(** ** The loops that [unpick] analyzes *)
Section linear_nests_facts.

Lemma linear_nests_flat (fors : list Nest) (d : odict nat (Loop * Nest)) :
  foldl (λ nests nest,
           foldl (λ nests (lp : Loop * nat),
                    if is_linear lp.1
                    then OrderedDict.set nests (lid lp.1) (lp.1, nest)
                    else nests)
                 nests (nest_entries nest))
        d fors
  = foldl (λ (nests : odict nat (Loop * Nest)) (p : Loop * Nest),
           if is_linear p.1 then OrderedDict.set nests (lid p.1) p else nests) d (fors ≫= λ nest, (λ lp, (lp.1, nest)) <$> nest_entries nest).
Proof.
  revert d. induction fors as [|nest fors IH]; intros d; [done|].
  cbn [foldl]. rewrite IH, bind_cons, foldl_app. f_equal.
  generalize (nest_entries nest). intros l. revert d.
  induction l as [|lp l IHl]; intros d; [done|]. simpl. by rewrite IHl.
Qed.

Lemma record_linear_get (l : list (Loop * Nest)) (d : odict nat (Loop * Nest)) (k : nat) :
  OrderedDict.get (foldl (λ (nests : odict nat (Loop * Nest)) (p : Loop * Nest),
           if is_linear p.1 then OrderedDict.set nests (lid p.1) p else nests) d l) k
  = match last (filter (λ p, is_linear p.1 = true ∧ lid p.1 = k) l) with
    | Some p => Some p
    | None => OrderedDict.get d k
    end.
Proof.
  revert d. induction l as [|p l IH]; intros d; [done|].
  cbn [foldl]. rewrite IH, filter_cons.
  case_decide as Hp.
  - destruct Hp as [-> <-]. rewrite last_cons, OrderedDict.get_set_eq.
    by destruct (last _).
  - destruct (last _); [done|]. destruct (is_linear p.1) eqn:Hl; [|done].
    apply OrderedDict.get_set_ne. intros Hk. apply Hp. by split.
Qed.

Lemma record_linear_NoDup (l : list (Loop * Nest)) (d : odict nat (Loop * Nest)) :
  NoDup (OrderedDict.keys d) → NoDup (OrderedDict.keys (foldl (λ (nests : odict nat (Loop * Nest)) (p : Loop * Nest),
           if is_linear p.1 then OrderedDict.set nests (lid p.1) p else nests) d l)).
Proof.
  revert d. induction l as [|p l IH]; intros d Hd; [done|].
  cbn [foldl]. apply IH. destruct (is_linear p.1); [|done].
  by apply keys_set_NoDup.
Qed.

(** X17: the loops that [unpick] analyzes are the linear loops of the
    nests, each once; a loop that is in several nests is analyzed with the
    last of them: the lookup [nests[loop]] gives the last entry of the
    double loop over [fors] that is linear and is this loop. *)
Theorem linear_nests_lookup (fors : list Nest) (k : nat) :
  NoDup (OrderedDict.keys (linear_nests fors))
  ∧ OrderedDict.get (linear_nests fors) k
    = last (filter (λ p, is_linear p.1 = true ∧ lid p.1 = k)
                   (fors ≫= λ nest, (λ lp, (lp.1, nest)) <$> nest_entries nest)).
Proof.
  unfold linear_nests. rewrite linear_nests_flat. split.
  - apply record_linear_NoDup. constructor.
  - rewrite record_linear_get. by destruct (last _).
Qed.
End linear_nests_facts.
(** ** [Temporary.reconstruct] and the iteration counts *)
Section reconstruct_facts.
Context (EstimateFlops : TNode → Z).

(** X18: [reconstruct] makes a new object and changes no existing one.
    The copy has the level, the node, the loop and the nest of the
    original and equal [reads], [readby] and [linear_reads_costs], held in
    three objects of its own; [pushed] is not copied: the copy of a pushed
    temporary is not pushed; and [flops] is computed again from the
    node. *)
Theorem reconstruct_copy (g : loc) (σ : Store) :
  allocated σ g →
  ∃ c σ',
    reconstruct EstimateFlops g σ = Some (c, σ')
    ∧ c = length (temporaries σ)
    ∧ (∀ r, r < length (temporaries σ) → allocated σ r → view σ' r = view σ r)
    ∧ view σ' c
      = mkTemporary (level (view σ g)) false (readby (view σ g)) (node (view σ g))
          (main_loop (view σ g)) (nest (view σ g)) (reads (view σ g))
          (linear_reads_costs (view σ g)) (EstimateFlops (node (view σ g)))
    ∧ length (lists σ) ≤ readby (temporary_at σ' c)
    ∧ length (lists σ) ≤ reads (temporary_at σ' c)
    ∧ readby (temporary_at σ' c) ≠ reads (temporary_at σ' c)
    ∧ length (dicts σ) ≤ linear_reads_costs (temporary_at σ' c).
Proof.
  intros (Hg & Hrb & Hrd & Hlc & Hne).
  apply wp_reconstruct.
  intros σ' tc Ht Hl Hd Hlevel Hpushed Hnode Hloop Hnest Hflops Hrbc Hrdc Hnec Hlcc Hrbv Hrdv Hlcv.
  assert (temporary_at σ' (length (temporaries σ)) = tc) as Hc.
  { unfold temporary_at. by rewrite Ht, default_lookup_snoc. }
  split; [done|]. split; [|split].
  - intros r Hr (_ & Hrb' & Hrd' & Hlc' & _).
    apply view_ext; [|by apply list_at_prefix..|by apply dict_at_prefix].
    apply temporary_at_prefix; [|done]. rewrite Ht. by apply prefix_app_r.
  - unfold view. simpl. rewrite Hc.
    by rewrite Hlevel, Hpushed, Hnode, Hloop, Hnest, Hflops, Hrbv, Hrdv, Hlcv.
  - rewrite Hc. split_and!; [lia|lia|done|lia].
Qed.
End reconstruct_facts.

Section iteration_facts.
Context {L D : Type}.
Implicit Type t : TemporaryOf L D.
Local Open Scope Z_scope.

Lemma foldl_mul_shift (l : list Z) (a : Z) : foldl Z.mul a l = a * foldl Z.mul 1 l.
Proof.
  revert a. induction l as [|x l IH]; intros a; simpl; [lia|].
  rewrite (IH (a * x)), (IH (1 * x)). lia.
Qed.

Lemma product_cons (x : Z) (l : list Z) : product (x :: l) = x * product l.
Proof. unfold product. simpl. rewrite (foldl_mul_shift l (1 * x)). lia. Qed.

Lemma product_split (P : Loop → Prop) `{∀ l, Decision (P l)} (ls : list Loop) :
  product (size <$> ls)
  = product (size <$> filter (λ l, ¬ P l) ls) * product (size <$> filter P ls).
Proof.
  induction ls as [|l ls IH]; [done|].
  rewrite !filter_cons, fmap_cons, product_cons, IH.
  destruct (decide (P l)) as [Hl|Hl].
  - rewrite decide_False by tauto. rewrite fmap_cons, product_cons. lia.
  - rewrite decide_True by done. rewrite fmap_cons, product_cons. lia.
Qed.

(** X19: the iterations of a temporary are its iterations after hoisting
    out of the main loop, times the sizes of the entries of the nest that
    are the main loop; so [niters_after_licm] is [niters] when the main
    loop is not in the nest. *)
Theorem niters_after_licm_split t :
  niters t
  = niters_after_licm t
    * product (size <$> filter (λ l, lid l = lid (main_loop t)) (loops t)).
Proof.
  unfold niters, niters_after_licm.
  apply (product_split (λ l, lid l = lid (main_loop t))).
Qed.
End iteration_facts.
Lemma reconstruct_copy_witness :
  allocated store_w1 0
  ∧ ∃ c σ',
      reconstruct flops_of 0 store_w1 = Some (c, σ')
      ∧ c = length (temporaries store_w1)
      ∧ (∀ r, r < length (temporaries store_w1) → allocated store_w1 r →
              view σ' r = view store_w1 r)
      ∧ view σ' c
        = mkTemporary (level (view store_w1 0)) false (readby (view store_w1 0))
            (node (view store_w1 0)) (main_loop (view store_w1 0)) (nest (view store_w1 0))
            (reads (view store_w1 0)) (linear_reads_costs (view store_w1 0))
            (flops_of (node (view store_w1 0)))
      ∧ length (lists store_w1) ≤ readby (temporary_at σ' c)
      ∧ length (lists store_w1) ≤ reads (temporary_at σ' c)
      ∧ readby (temporary_at σ' c) ≠ reads (temporary_at σ' c)
      ∧ length (dicts store_w1) ≤ linear_reads_costs (temporary_at σ' c).
Proof.
  assert (allocated store_w1 0) as Ha by (unfold allocated; by_computation).
  split; [exact Ha|].
  exact (reconstruct_copy flops_of 0 store_w1 Ha).
Defined.
